(** * Unknown-field rejection and amino-JSON sign bytes (x/tx)

    A shallow embedding of [x/tx/decode/unknown.go] and
    [x/tx/signing/aminojson/aminojson.go], with the properties of the
    validator and of the sign-bytes handler proved over it. Three smaller
    pieces follow: the write batch of package [sqlite], [readScheduleFile]
    of the vesting client and [IsValSetSorted] of the staking tests.

    Byte slices are [list byte]; Go's [int], [int32], [uint64] and
    [protowire.Number]/[protowire.Type] values are integers in [Z], with the
    64-bit wrap-around written out where the code can reach it. A call
    either returns its results or panics ([decode.Run]). The validator's
    loop and its recursive calls are one function by recursion on fuel; the
    fuel it is run with is shown to suffice, so that every statement about
    [RejectUnknownFields] is about a call that ends.

    What the two files take from elsewhere stays a parameter: the
    descriptors of [protoreflect], the resolver, [proto.Unmarshal] at an
    [Any], the handler's encoder and [encoding/json]. The wire scanner of
    [protowire] is written out, since the validator's behaviour on a buffer
    is its behaviour on the fields the scanner cuts. *)

From Stdlib Require Import ZArith Ascii String Bool Lia List.
From Stdlib Require Import Strings.Byte DecimalString.
From Stdlib Require DecimalZ DecimalPos.
Import ListNotations.
Local Open Scope Z_scope.

(** ** Byte slices *)

Definition bytes : Type := list byte.

(** [len(b)] *)
Definition len (b : bytes) : Z := Z.of_nat (length b).

(** [uint64(b[i])] *)
Definition byteZ (x : byte) : Z := Z.of_N (Byte.to_N x).

(** [b[n:]] and [b[:n]]; every use below is guarded by [0 <= n <= len b]. *)
Definition from (n : Z) (b : bytes) : bytes := skipn (Z.to_nat n) b.
Definition upto (n : Z) (b : bytes) : bytes := firstn (Z.to_nat n) b.

Lemma len_nonneg (b : bytes) : 0 <= len b.
Proof. unfold len; lia. Qed.

Lemma len_app (a b : bytes) : len (a ++ b) = len a + len b.
Proof. unfold len; rewrite length_app; lia. Qed.

Lemma len_from (n : Z) (b : bytes) :
  0 <= n <= len b -> len (from n b) = len b - n.
Proof. unfold len, from; intros; rewrite length_skipn; lia. Qed.

Lemma len_upto (n : Z) (b : bytes) :
  0 <= n <= len b -> len (upto n b) = n.
Proof. unfold len, upto; intros; rewrite length_firstn; lia. Qed.

Lemma from_app (n : Z) (a b : bytes) :
  0 <= n <= len a -> from n (a ++ b) = from n a ++ b.
Proof.
  unfold len, from; intros; rewrite skipn_app.
  replace (Z.to_nat n - length a)%nat with 0%nat by lia; reflexivity.
Qed.

Lemma upto_app (n : Z) (a b : bytes) :
  0 <= n <= len a -> upto n (a ++ b) = upto n a.
Proof.
  unfold len, upto; intros; rewrite firstn_app.
  replace (Z.to_nat n - length a)%nat with 0%nat by lia.
  simpl; apply app_nil_r.
Qed.

(** ** The wire scanner: [google.golang.org/protobuf/encoding/protowire]

    The validator partitions its input with three functions of this package.
    They are transcribed here with the package's names and error codes; a
    negative length is an error code, as in the package. *)

Module protowire.

Definition errCodeTruncated : Z := -1.
Definition errCodeFieldNumber : Z := -2.
Definition errCodeOverflow : Z := -3.
Definition errCodeReserved : Z := -4.
Definition errCodeEndGroup : Z := -5.
Definition errCodeRecursionDepth : Z := -6.

Definition VarintType : Z := 0.
Definition Fixed64Type : Z := 1.
Definition BytesType : Z := 2.
Definition StartGroupType : Z := 3.
Definition EndGroupType : Z := 4.
Definition Fixed32Type : Z := 5.

Definition MinValidNumber : Z := 1.
Definition MaxInt32 : Z := 2147483647.
Definition DefaultRecursionLimit : Z := 10000.

(** Arithmetic on [uint64]. *)
Definition wrap64 (x : Z) : Z := x mod 2 ^ 64.

(** [ConsumeVarint] is written in the package as ten unrolled steps. Step
    [i] (counting from 0) fails with [errCodeTruncated] when [len(b) <= i],
    adds [uint64(b[i]) << (7*i)] to [v], returns [(v, i+1)] when the byte
    is below [0x80] and otherwise subtracts [0x80 << (7*i)]; the tenth
    step returns [(v, 10)] when its byte is below [2] and fails with
    [errCodeOverflow] otherwise. [k] counts the steps that remain after
    the current one. *)
Fixpoint varintFrom (k : nat) (i : Z) (v : Z) (b : bytes) : Z * Z :=
  match b with
  | [] => (0, errCodeTruncated)
  | x :: b' =>
      let y := byteZ x in
      let v := wrap64 (v + wrap64 (Z.shiftl y (7 * i))) in
      match k with
      | O => if y <? 2 then (v, 10) else (0, errCodeOverflow)
      | S k' =>
          if y <? 128 then (v, i + 1)
          else varintFrom k' (i + 1) (wrap64 (v - Z.shiftl 128 (7 * i))) b'
      end
  end.

Definition ConsumeVarint (b : bytes) : Z * Z := varintFrom 9 0 0 b.

Definition ConsumeFixed32 (b : bytes) : Z :=
  if len b <? 4 then errCodeTruncated else 4.

Definition ConsumeFixed64 (b : bytes) : Z :=
  if len b <? 8 then errCodeTruncated else 8.

(** The length reported by [ConsumeBytes]. *)
Definition ConsumeBytes (b : bytes) : Z :=
  let '(m, n) := ConsumeVarint b in
  if n <? 0 then n
  else if len (from n b) <? m then errCodeTruncated
  else n + m.

(** [DecodeTag]: the number is [-1] when it overflows [int32]. *)
Definition DecodeTag (x : Z) : Z * Z :=
  if MaxInt32 <? Z.shiftr x 3 then (-1, 0)
  else (Z.shiftr x 3, Z.land x 7).

Definition ConsumeTag (b : bytes) : Z * Z * Z :=
  let '(v, n) := ConsumeVarint b in
  if n <? 0 then (0, 0, n)
  else
    let '(num, typ) := DecodeTag v in
    if num <? MinValidNumber then (0, 0, errCodeFieldNumber)
    else (num, typ, n).

(** [consumeFieldValueD], with the loop of its [StartGroupType] case as
    the second function. Both recurse on strictly shorter slices or pass
    from one to the other; [fuel] bounds the number of such passes and
    [None] is returned only when it runs out. *)
Fixpoint consumeFieldValueD (fuel : nat) (num typ : Z) (b : bytes)
         (depth : Z) {struct fuel} : option Z :=
  match fuel with
  | O => None
  | S fuel' =>
      if typ =? VarintType then Some (snd (ConsumeVarint b))
      else if typ =? Fixed32Type then Some (ConsumeFixed32 b)
      else if typ =? Fixed64Type then Some (ConsumeFixed64 b)
      else if typ =? BytesType then Some (ConsumeBytes b)
      else if typ =? StartGroupType then
        if depth <? 0 then Some errCodeRecursionDepth
        else consumeGroup fuel' num b depth (len b)
      else if typ =? EndGroupType then Some errCodeEndGroup
      else Some errCodeReserved
  end
with consumeGroup (fuel : nat) (num : Z) (b : bytes) (depth n0 : Z)
     {struct fuel} : option Z :=
  match fuel with
  | O => None
  | S fuel' =>
      let '(num2, typ2, n) := ConsumeTag b in
      if n <? 0 then Some n
      else
        let b := from n b in
        if typ2 =? EndGroupType then
          if negb (num =? num2) then Some errCodeEndGroup
          else Some (n0 - len b)
        else
          match consumeFieldValueD fuel' num2 typ2 b (depth - 1) with
          | None => None
          | Some n =>
              if n <? 0 then Some n
              else consumeGroup fuel' num (from n b) depth n0
          end
  end.

(** Fuel that always suffices for a slice [b]: see [consumeFieldValueD_fuel]. *)
Definition fuelFor (b : bytes) : nat := S (S (2 * length b)).

(** [ConsumeFieldValue]. The fall-back value is never used. *)
Definition ConsumeFieldValue (num typ : Z) (b : bytes) : Z :=
  match consumeFieldValueD (fuelFor b) num typ b DefaultRecursionLimit with
  | Some n => n
  | None => errCodeTruncated
  end.

(** *** Facts about the scanner *)

(** A [ConsumeVarint] step sequence started at index [i] either fails or
    reads at least one byte, staying within the slice and within ten bytes. *)
Lemma varintFrom_length (k : nat) : forall i v b r n,
  i + Z.of_nat k = 9 ->
  varintFrom k i v b = (r, n) ->
  n < 0 \/ (i + 1 <= n <= i + len b /\ n <= 10).
Proof.
  induction k as [|k IH]; intros i v b r n Hi H; destruct b as [|x b];
    simpl in H.
  - inversion H; left; reflexivity.
  - destruct (byteZ x <? 2); inversion H; subst.
    + right; unfold len; simpl length; lia.
    + left; reflexivity.
  - inversion H; left; reflexivity.
  - destruct (byteZ x <? 128).
    + inversion H; subst; right; unfold len; simpl length; lia.
    + apply IH in H; [|lia]. destruct H as [H|H]; [left; exact H|].
      right; unfold len in *; simpl length; lia.
Qed.

Lemma varintFrom_value (k : nat) : forall i v b r n,
  varintFrom k i v b = (r, n) -> 0 <= r < 2 ^ 64.
Proof.
  induction k as [|k IH]; intros i v b r n H; destruct b as [|x b];
    simpl in H; try (inversion H; lia).
  - destruct (byteZ x <? 2); inversion H; subst; try lia.
    apply Z.mod_pos_bound; lia.
  - destruct (byteZ x <? 128).
    + inversion H; subst; apply Z.mod_pos_bound; lia.
    + eapply IH; eassumption.
Qed.

(** Bytes after the ones a successful varint read has consumed do not
    change its result. *)
Lemma varintFrom_app (k : nat) : forall i v b r n rest,
  varintFrom k i v b = (r, n) -> 0 <= n ->
  varintFrom k i v (b ++ rest) = (r, n).
Proof.
  induction k as [|k IH]; intros i v b r n rest H Hn; destruct b as [|x b];
    simpl in H |- *; try (inversion H; subst; unfold errCodeTruncated in *; lia).
  - exact H.
  - destruct (byteZ x <? 128); [exact H|]. apply IH; assumption.
Qed.

Lemma ConsumeVarint_length (b : bytes) (v n : Z) :
  ConsumeVarint b = (v, n) -> n < 0 \/ 1 <= n <= len b.
Proof.
  unfold ConsumeVarint; intros H.
  apply varintFrom_length in H; [|reflexivity]. lia.
Qed.

Lemma ConsumeVarint_app (b rest : bytes) (v n : Z) :
  ConsumeVarint b = (v, n) -> 0 <= n -> ConsumeVarint (b ++ rest) = (v, n).
Proof. unfold ConsumeVarint; apply varintFrom_app. Qed.

Lemma ConsumeBytes_length (b : bytes) :
  ConsumeBytes b < 0 \/ 1 <= ConsumeBytes b <= len b.
Proof.
  unfold ConsumeBytes.
  destruct (ConsumeVarint b) as [m n] eqn:E.
  pose proof (ConsumeVarint_length _ _ _ E) as Hn.
  pose proof (varintFrom_value _ _ _ _ _ _ E) as Hm.
  destruct (n <? 0) eqn:E1; [left; lia|].
  destruct (len (from n b) <? m) eqn:E2; [left; reflexivity|].
  right. rewrite len_from in E2 by lia. lia.
Qed.

Lemma ConsumeBytes_app (b rest : bytes) :
  0 <= ConsumeBytes b -> ConsumeBytes (b ++ rest) = ConsumeBytes b.
Proof.
  unfold ConsumeBytes.
  destruct (ConsumeVarint b) as [m n] eqn:E.
  pose proof (ConsumeVarint_length _ _ _ E) as Hn.
  destruct (n <? 0) eqn:E1; [lia|].
  rewrite (ConsumeVarint_app _ rest _ _ E) by lia. rewrite E1.
  destruct (len (from n b) <? m) eqn:E2; [unfold errCodeTruncated; lia|].
  intros _. rewrite from_app, len_app by lia.
  pose proof (len_nonneg rest).
  destruct (len (from n b) + len rest <? m) eqn:E3; [lia|reflexivity].
Qed.

Lemma ConsumeTag_length (b : bytes) (num typ m : Z) :
  ConsumeTag b = (num, typ, m) ->
  m < 0 \/ (1 <= m <= len b /\ 1 <= num <= MaxInt32 /\ 0 <= typ <= 7).
Proof.
  unfold ConsumeTag, DecodeTag.
  destruct (ConsumeVarint b) as [v n] eqn:E.
  pose proof (ConsumeVarint_length _ _ _ E) as Hn.
  pose proof (varintFrom_value _ _ _ _ _ _ E) as Hv.
  destruct (n <? 0) eqn:E1; [inversion 1; left; lia|].
  destruct (MaxInt32 <? Z.shiftr v 3) eqn:E2.
  - simpl. inversion 1; left; reflexivity.
  - destruct (Z.shiftr v 3 <? MinValidNumber) eqn:E3;
      [inversion 1; left; reflexivity|].
    inversion 1; subst. right. unfold MinValidNumber in *.
    assert (Z.land v 7 = v mod 8) as ->
      by (change 7 with (Z.ones 3); rewrite Z.land_ones by lia; reflexivity).
    pose proof (Z.mod_pos_bound v 8); lia.
Qed.

Lemma ConsumeTag_app (b rest : bytes) (num typ m : Z) :
  ConsumeTag b = (num, typ, m) -> 0 <= m ->
  ConsumeTag (b ++ rest) = (num, typ, m).
Proof.
  unfold ConsumeTag.
  destruct (ConsumeVarint b) as [v n] eqn:E.
  destruct (n <? 0) eqn:E1; [inversion 1; lia|].
  intros H Hm. rewrite (ConsumeVarint_app _ rest _ _ E) by lia.
  rewrite E1. exact H.
Qed.

(** More fuel does not change a result. *)
Lemma consumeFieldValueD_mono (f : nat) :
  (forall num typ b d n f', consumeFieldValueD f num typ b d = Some n ->
     (f <= f')%nat -> consumeFieldValueD f' num typ b d = Some n) /\
  (forall num b d n0 n f', consumeGroup f num b d n0 = Some n ->
     (f <= f')%nat -> consumeGroup f' num b d n0 = Some n).
Proof.
  induction f as [|f [IHv IHg]]; split; intros; try discriminate;
    (destruct f' as [|f']; [lia|]); simpl in H |- *.
  - repeat (destruct (_ =? _); [exact H|]).
    destruct (typ =? StartGroupType); [|exact H].
    destruct (d <? 0); [exact H|].
    apply IHg with (f' := f') in H; [exact H|lia].
  - destruct (ConsumeTag b) as [[num2 typ2] n1].
    destruct (n1 <? 0); [exact H|].
    destruct (typ2 =? EndGroupType); [exact H|].
    destruct (consumeFieldValueD f num2 typ2 (from n1 b) (d - 1)) as [n2|] eqn:E;
      [|discriminate].
    rewrite (IHv _ _ _ _ _ f' E) by lia.
    destruct (n2 <? 0); [exact H|].
    apply IHg; [exact H|lia].
Qed.

(** A result is an error code or a length between one and the length of the
    slice; for the group loop, which reports [n0] less what it has left, the
    length lies between what was already consumed and [n0]. *)
Lemma consumeFieldValueD_length (f : nat) :
  (forall num typ b d n, consumeFieldValueD f num typ b d = Some n ->
     n < 0 \/ 1 <= n <= len b) /\
  (forall num b d n0 n, consumeGroup f num b d n0 = Some n ->
     len b <= n0 -> n < 0 \/ n0 - len b + 1 <= n <= n0).
Proof.
  induction f as [|f [IHv IHg]]; split; intros; try discriminate;
    simpl in H.
  - destruct (typ =? VarintType).
    { inversion H; subst. destruct (ConsumeVarint b) as [v n] eqn:E.
      simpl. eapply ConsumeVarint_length; eassumption. }
    destruct (typ =? Fixed32Type).
    { inversion H; subst. unfold ConsumeFixed32, errCodeTruncated.
      destruct (len b <? 4) eqn:E; lia. }
    destruct (typ =? Fixed64Type).
    { inversion H; subst. unfold ConsumeFixed64, errCodeTruncated.
      destruct (len b <? 8) eqn:E; lia. }
    destruct (typ =? BytesType).
    { inversion H; subst. apply ConsumeBytes_length. }
    destruct (typ =? StartGroupType).
    { destruct (d <? 0); [inversion H; left; reflexivity|].
      apply IHg in H; lia. }
    destruct (typ =? EndGroupType); inversion H; left; reflexivity.
  - destruct (ConsumeTag b) as [[num2 typ2] n1] eqn:E.
    pose proof (ConsumeTag_length _ _ _ _ E) as Ht.
    destruct (n1 <? 0) eqn:E1; [inversion H; subst; left; lia|].
    assert (Hl : len (from n1 b) = len b - n1) by (apply len_from; lia).
    destruct (typ2 =? EndGroupType).
    { destruct (negb (num =? num2)); inversion H; subst;
        [left; reflexivity|right; lia]. }
    destruct (consumeFieldValueD f num2 typ2 (from n1 b) (d - 1)) as [n2|] eqn:E2;
      [|discriminate].
    apply IHv in E2.
    destruct (n2 <? 0) eqn:E3; [inversion H; subst; left; lia|].
    apply IHg in H.
    + rewrite len_from in H by lia. lia.
    + rewrite len_from by lia. lia.
Qed.

(** Fuel proportional to the length of the slice is enough. *)
Lemma consumeFieldValueD_fuel (f : nat) :
  (forall num typ b d, (2 * length b + 2 <= f)%nat ->
     consumeFieldValueD f num typ b d <> None) /\
  (forall num b d n0, (2 * length b + 1 <= f)%nat ->
     consumeGroup f num b d n0 <> None).
Proof.
  induction f as [|f [IHv IHg]]; split; intros; try lia; simpl.
  - repeat (destruct (_ =? _); [discriminate|]).
    destruct (typ =? StartGroupType);
      [|destruct (typ =? EndGroupType); discriminate].
    destruct (d <? 0); [discriminate|]. apply IHg; lia.
  - destruct (ConsumeTag b) as [[num2 typ2] n1] eqn:E.
    pose proof (ConsumeTag_length _ _ _ _ E) as Ht.
    destruct (n1 <? 0) eqn:E1; [discriminate|].
    assert (Hl : len (from n1 b) = len b - n1) by (apply len_from; lia).
    unfold len in Hl.
    destruct (typ2 =? EndGroupType);
      [destruct (negb (num =? num2)); discriminate|].
    destruct (consumeFieldValueD f num2 typ2 (from n1 b) (d - 1)) as [n2|] eqn:E2.
    + pose proof (proj1 (consumeFieldValueD_length f) _ _ _ _ _ E2) as Hb.
      destruct (n2 <? 0) eqn:E3; [discriminate|].
      apply IHg.
      assert (len (from n2 (from n1 b)) = len (from n1 b) - n2)
        by (apply len_from; lia).
      unfold len in *; lia.
    + exfalso; revert E2; apply IHv. lia.
Qed.

(** Bytes after a field value that was consumed successfully do not change
    the length found. *)
Lemma consumeFieldValueD_app (f : nat) :
  (forall num typ b d n rest, consumeFieldValueD f num typ b d = Some n ->
     0 <= n -> consumeFieldValueD f num typ (b ++ rest) d = Some n) /\
  (forall num b d n0 n rest, consumeGroup f num b d n0 = Some n ->
     len b <= n0 -> 0 <= n ->
     consumeGroup f num (b ++ rest) d (n0 + len rest) = Some n).
Proof.
  induction f as [|f [IHv IHg]]; split; intros; try discriminate;
    simpl in H |- *.
  - destruct (typ =? VarintType).
    { inversion H; subst. destruct (ConsumeVarint b) as [v n] eqn:E.
      simpl in *. rewrite (ConsumeVarint_app _ rest _ _ E) by lia.
      reflexivity. }
    destruct (typ =? Fixed32Type).
    { inversion H; subst. revert H0.
      unfold ConsumeFixed32, errCodeTruncated. rewrite len_app.
      pose proof (len_nonneg rest).
      destruct (len b <? 4) eqn:E; [lia|].
      destruct (len b + len rest <? 4) eqn:E'; [lia|reflexivity]. }
    destruct (typ =? Fixed64Type).
    { inversion H; subst. revert H0.
      unfold ConsumeFixed64, errCodeTruncated. rewrite len_app.
      pose proof (len_nonneg rest).
      destruct (len b <? 8) eqn:E; [lia|].
      destruct (len b + len rest <? 8) eqn:E'; [lia|reflexivity]. }
    destruct (typ =? BytesType).
    { inversion H; subst. rewrite ConsumeBytes_app by assumption.
      reflexivity. }
    destruct (typ =? StartGroupType).
    { destruct (d <? 0); [exact H|]. rewrite len_app.
      apply IHg; [exact H|lia|assumption]. }
    exact H.
  - destruct (ConsumeTag b) as [[num2 typ2] n1] eqn:E.
    pose proof (ConsumeTag_length _ _ _ _ E) as Ht.
    destruct (n1 <? 0) eqn:E1; [inversion H; subst; lia|].
    rewrite (ConsumeTag_app _ rest _ _ _ E) by lia. rewrite E1.
    assert (Hl : len (from n1 b) = len b - n1) by (apply len_from; lia).
    rewrite from_app by lia.
    destruct (typ2 =? EndGroupType).
    { destruct (negb (num =? num2)); [exact H|].
      inversion H; subst. f_equal. rewrite len_app; lia. }
    destruct (consumeFieldValueD f num2 typ2 (from n1 b) (d - 1)) as [n2|] eqn:E2;
      [|discriminate].
    pose proof (proj1 (consumeFieldValueD_length f) _ _ _ _ _ E2) as Hb.
    destruct (n2 <? 0) eqn:E3; [inversion H; subst; lia|].
    rewrite (IHv _ _ _ _ _ rest E2) by lia. rewrite E3.
    rewrite from_app by lia.
    apply IHg; [exact H| |assumption].
    rewrite len_from by lia. lia.
Qed.

Lemma ConsumeFieldValue_run (num typ : Z) (b : bytes) (f : nat) :
  (fuelFor b <= f)%nat ->
  consumeFieldValueD f num typ b DefaultRecursionLimit
  = Some (ConsumeFieldValue num typ b).
Proof.
  intros Hf. unfold ConsumeFieldValue.
  destruct (consumeFieldValueD (fuelFor b) num typ b DefaultRecursionLimit)
    as [n|] eqn:E.
  - eapply (proj1 (consumeFieldValueD_mono _)); eassumption.
  - exfalso; revert E. apply (proj1 (consumeFieldValueD_fuel _)).
    unfold fuelFor; lia.
Qed.

(** The length [ConsumeFieldValue] reports is an error code or lies between
    one and the length of the slice. *)
Lemma ConsumeFieldValue_length (num typ : Z) (b : bytes) :
  ConsumeFieldValue num typ b < 0 \/ 1 <= ConsumeFieldValue num typ b <= len b.
Proof.
  eapply (proj1 (consumeFieldValueD_length _)).
  apply ConsumeFieldValue_run with (f := fuelFor b). lia.
Qed.

Lemma ConsumeFieldValue_app (num typ : Z) (b rest : bytes) :
  0 <= ConsumeFieldValue num typ b ->
  ConsumeFieldValue num typ (b ++ rest) = ConsumeFieldValue num typ b.
Proof.
  intros Hn.
  assert (Hf : (fuelFor b <= fuelFor (b ++ rest))%nat)
    by (unfold fuelFor; rewrite length_app; lia).
  pose proof (ConsumeFieldValue_run num typ b _ Hf) as E.
  apply (proj1 (consumeFieldValueD_app _)) with (rest := rest) in E;
    [|assumption].
  rewrite ConsumeFieldValue_run in E by lia. congruence.
Qed.

End protowire.

(** ** [x/tx/decode/unknown.go] *)

Module decode.

Definition bit11NonCritical : Z := Z.shiftl 1 10.

(** [protoreflect.Kind]: the kinds a field descriptor can declare. *)
Inductive Kind : Type :=
| BoolKind | EnumKind | Int32Kind | Sint32Kind | Uint32Kind
| Int64Kind | Sint64Kind | Uint64Kind | Sfixed32Kind | Fixed32Kind
| FloatKind | Sfixed64Kind | Fixed64Kind | DoubleKind | StringKind
| BytesKind | MessageKind | GroupKind.

(** [anypb.Any] once decoded. *)
Record Any : Type := mkAny { TypeUrl : string; Value : bytes }.

(** The descriptor interfaces of [protoreflect] and the one decoding the
    validator delegates, [proto.Unmarshal] at [anypb.Any]. Descriptors are
    interface values in the code and stay abstract here; [md_ByNumber desc]
    is [desc.Fields().ByNumber], [asMessageDescriptor] is the type assertion
    [.(protoreflect.MessageDescriptor)], and [anyDesc] is the package
    variable of that name. [Unmarshal] hands back the payload of one of the
    fields it has read, which is no longer than its input. *)
Class Reflect : Type := {
  MessageDescriptor : Type;
  FieldDescriptor : Type;
  Descriptor : Type;
  md_FullName : MessageDescriptor -> string;
  md_ByNumber : MessageDescriptor -> Z -> option FieldDescriptor;
  fd_FullName : FieldDescriptor -> string;
  fd_Kind : FieldDescriptor -> Kind;
  fd_Message : FieldDescriptor -> option MessageDescriptor;
  asMessageDescriptor : Descriptor -> option MessageDescriptor;
  anyDesc : MessageDescriptor;
  Unmarshal : bytes -> option Any;
  Unmarshal_Value : forall b a, Unmarshal b = Some a -> len (Value a) <= len b
}.

(** [protodesc.Resolver], through its method [FindDescriptorByName]; [None]
    is the method's error. *)
Definition Resolver `{Reflect} : Type := string -> option Descriptor.

(** The errors the validator returns. *)
Inductive Error : Type :=
| ErrInvalidLength
| ErrUnknownField (typeName : string) (tagNum : Z) (wireType : string)
| ErrConsumeFieldValue (tagNum : Z) (wireType : string) (code : Z)
| ErrInvalidWireType (wireType : string) (fieldName : string)
| ErrUnmarshal
| ErrNotFound (name : string).

(** How a call ends: it returns its results, or it panics. *)
Inductive Run (A : Type) : Type :=
| Returns (a : A)
| Panics.
Arguments Returns {A} a.
Arguments Panics {A}.

Definition WireTypeToString (wt : Z) : string :=
  if wt =? 0 then "varint"%string
  else if wt =? 1 then "fixed64"%string
  else if wt =? 2 then "bytes"%string
  else if wt =? 3 then "start_group"%string
  else if wt =? 4 then "end_group"%string
  else if wt =? 5 then "fixed32"%string
  else String.append "unknown type: " (NilZero.string_of_int (Z.to_int wt)).

Definition isWireTypeAssignable (wt : Z) (kind : Kind) : bool :=
  match kind with
  | Int32Kind | Int64Kind | Sint32Kind | Sint64Kind
  | Uint32Kind | Uint64Kind | BoolKind | EnumKind =>
      wt =? protowire.VarintType
  | Fixed64Kind | Sfixed64Kind | DoubleKind =>
      wt =? protowire.Fixed64Type
  | StringKind | BytesKind | MessageKind | GroupKind =>
      wt =? protowire.BytesType
  | Fixed32Kind | Sfixed32Kind | FloatKind =>
      wt =? protowire.Fixed32Type
  end.

(** The part of [s] after its last ['/'], if it has one. *)
Fixpoint afterLastSlash (s : string) : option string :=
  match s with
  | EmptyString => None
  | String c s' =>
      match afterLastSlash s' with
      | Some r => Some r
      | None => if Ascii.eqb c "/"%char then Some s' else None
      end
  end.

(** Modelled from the spec: [MessageNameFromTypeURL] is a function of this
    package that is not among the source files. The spec gives it as "the
    fully qualified name is the URL's path component after the last [/]"; a
    URL without a slash is taken whole. *)
Definition MessageNameFromTypeURL (url : string) : string :=
  match afterLastSlash url with
  | Some name => name
  | None => url
  end.

(** The field at the head of a buffer whose tag and field value parse: the
    field number, the wire type, the bytes of the value and the bytes after
    the field. These are the [tagNum], [wireType], [fieldBytes] and, for
    the next pass, [bz] of one pass of the validator's loop. *)
Definition headField (bz : bytes) : option (Z * Z * bytes * bytes) :=
  let '(tagNum, wireType, m) := protowire.ConsumeTag bz in
  if m <? 0 then None
  else
    let n := protowire.ConsumeFieldValue tagNum wireType (from m bz) in
    if n <? 0 then None
    else Some (tagNum, wireType, upto n (from m bz), from n (from m bz)).

(** The bytes of a field value after its length prefix, cut as the
    validator cuts them: [fieldBytes[o:]] for the [o] of [ConsumeVarint]. *)
Definition content (fieldBytes : bytes) : option bytes :=
  let '(_, o) := protowire.ConsumeVarint fieldBytes in
  if o <? 0 then None else Some (from o fieldBytes).

Section Validator.
Context `{Reflect}.

Definition anyFullName : string := md_FullName anyDesc.

(** The three statements that follow each recursive call:
    [hasUnknownNonCriticals = hasUnknownNonCriticals || child], then
    [return hasUnknownNonCriticals, err] when [err != nil]; [k] is the rest
    of the loop body. A panic of the call, and a call that is out of fuel,
    end the caller the same way. *)
Definition afterCall (r : option (Run (bool * option Error)))
    (hasUnknownNonCriticals : bool)
    (k : bool -> option (Run (bool * option Error)))
  : option (Run (bool * option Error)) :=
  match r with
  | None => None
  | Some Panics => Some Panics
  | Some (Returns (child, err)) =>
      let hasUnknownNonCriticals := hasUnknownNonCriticals || child in
      match err with
      | Some e => Some (Returns (hasUnknownNonCriticals, Some e))
      | None => k hasUnknownNonCriticals
      end
  end.

(** [orFlag h r] is the result [r] with [h] joined to its flag. *)
Definition orFlag (h : bool) (r : option (Run (bool * option Error)))
  : option (Run (bool * option Error)) :=
  match r with
  | Some (Returns (c, e)) => Some (Returns (h || c, e))
  | _ => r
  end.

(** One pass through the loop [for len(bz) > 0 { ... }] of
    [RejectUnknownFields], from the state [(bz, hasUnknownNonCriticals)],
    with the [return hasUnknownNonCriticals, nil] that follows the loop when
    its condition fails. [RejectUnknownFields] stands for the function
    itself at its two recursive calls (the arguments
    [allowUnknownNonCriticals] and [resolver] are passed on unchanged) and
    [continue] for the next pass, from the rest of the buffer and the flag
    as it then stands. The slice [fieldBytes[o:]] panics when [o] is
    negative. The two [fmt.Printf] calls write to standard output and have
    no part in the results. *)
Definition iteration
    (RejectUnknownFields :
       bytes -> MessageDescriptor -> option (Run (bool * option Error)))
    (continue : bytes -> bool -> option (Run (bool * option Error)))
    (bz : bytes) (desc : MessageDescriptor)
    (allowUnknownNonCriticals : bool) (resolver : Resolver)
    (hasUnknownNonCriticals : bool)
  : option (Run (bool * option Error)) :=
  if negb (0 <? len bz) then Some (Returns (hasUnknownNonCriticals, None))
  else
  let '(tagNum, wireType, m) := protowire.ConsumeTag bz in
  if m <? 0 then Some (Returns (hasUnknownNonCriticals, Some ErrInvalidLength))
  else
  let fieldDesc := md_ByNumber desc tagNum in
  let isCriticalField := Z.land tagNum bit11NonCritical =? 0 in
  let unknown := match fieldDesc with None => true | Some _ => false end in
  let hasUnknownNonCriticals :=
    if unknown && negb isCriticalField then true
    else hasUnknownNonCriticals in
  if unknown && (isCriticalField || negb allowUnknownNonCriticals) then
    Some (Returns (hasUnknownNonCriticals,
                   Some (ErrUnknownField (md_FullName desc) tagNum
                                         (WireTypeToString wireType))))
  else
  let bz := from m bz in
  let n := protowire.ConsumeFieldValue tagNum wireType bz in
  if n <? 0 then
    Some (Returns (hasUnknownNonCriticals,
                   Some (ErrConsumeFieldValue tagNum
                           (WireTypeToString wireType) n)))
  else
  let fieldBytes := upto n bz in
  let bz := from n bz in
  match fieldDesc with
  | None => continue bz hasUnknownNonCriticals
  | Some fieldDesc =>
    if negb (isWireTypeAssignable wireType (fd_Kind fieldDesc)) then
      Some (Returns (hasUnknownNonCriticals,
                     Some (ErrInvalidWireType (WireTypeToString wireType)
                                              (fd_FullName fieldDesc))))
    else
    match fd_Message fieldDesc with
    | None => continue bz hasUnknownNonCriticals
    | Some fieldMessage =>
      let '(_, o) := protowire.ConsumeVarint fieldBytes in
      if o <? 0 then Some Panics
      else
      let fieldBytes := from o fieldBytes in
      if String.eqb (md_FullName fieldMessage) anyFullName then
        afterCall (RejectUnknownFields fieldBytes anyDesc)
          hasUnknownNonCriticals (fun hasUnknownNonCriticals =>
        match Unmarshal fieldBytes with
        | None => Some (Returns (hasUnknownNonCriticals, Some ErrUnmarshal))
        | Some a =>
          let msgName := MessageNameFromTypeURL (TypeUrl a) in
          match resolver msgName with
          | None =>
              Some (Returns (hasUnknownNonCriticals,
                             Some (ErrNotFound msgName)))
          | Some msgDesc =>
            match asMessageDescriptor msgDesc with
            | None => Some Panics
            | Some fieldMessage =>
              afterCall (RejectUnknownFields (Value a) fieldMessage)
                hasUnknownNonCriticals (continue bz)
            end
          end
        end)
      else
        afterCall (RejectUnknownFields fieldBytes fieldMessage)
          hasUnknownNonCriticals (continue bz)
    end
  end.

(** The loop, by recursion on [fuel]: each pass and each recursive call of
    the function takes one unit, and [None] means that the fuel ran out. A
    recursive call is the function's entry test [len(bz) == 0] followed by
    the loop from [(bz, false)]. *)
Fixpoint loop (fuel : nat) (bz : bytes) (desc : MessageDescriptor)
    (allowUnknownNonCriticals : bool) (resolver : Resolver)
    (hasUnknownNonCriticals : bool) {struct fuel}
  : option (Run (bool * option Error)) :=
  match fuel with
  | O => None
  | S fuel =>
      iteration
        (fun bz desc =>
           if len bz =? 0 then Some (Returns (false, None))
           else loop fuel bz desc allowUnknownNonCriticals resolver false)
        (fun bz hasUnknownNonCriticals =>
           loop fuel bz desc allowUnknownNonCriticals resolver
             hasUnknownNonCriticals)
        bz desc allowUnknownNonCriticals resolver hasUnknownNonCriticals
  end.

(** The loop with the fuel that [loop_fuel] shows to suffice: the length of
    the buffer and one more. *)
Definition loopFrom (bz : bytes) (desc : MessageDescriptor)
    (allowUnknownNonCriticals : bool) (resolver : Resolver)
    (hasUnknownNonCriticals : bool)
  : option (Run (bool * option Error)) :=
  loop (S (length bz)) bz desc allowUnknownNonCriticals resolver
    hasUnknownNonCriticals.

(** [RejectUnknownFields]: the entry test, then the loop. *)
Definition RejectUnknownFields (bz : bytes) (desc : MessageDescriptor)
    (allowUnknownNonCriticals : bool) (resolver : Resolver)
  : option (Run (bool * option Error)) :=
  if len bz =? 0 then Some (Returns (false, None))
  else loopFrom bz desc allowUnknownNonCriticals resolver false.

Definition RejectUnknownFieldsStrict (bz : bytes) (msg : MessageDescriptor)
    (resolver : Resolver) : option (Run (option Error)) :=
  match RejectUnknownFields bz msg false resolver with
  | None => None
  | Some Panics => Some Panics
  | Some (Returns (_, err)) => Some (Returns err)
  end.

(** A call fails when it returns an error or panics. *)
Definition fails (r : option (Run (bool * option Error))) : Prop :=
  (exists flag e, r = Some (Returns (flag, Some e))) \/ r = Some Panics.

(** [Occurs resolver desc bz desc' rest]: reading [bz] as a message of type
    [desc] field by field, and going into nested messages, into [Any]
    envelopes and into their payloads as the validator does, one comes to
    a field boundary inside a message of type [desc'], with [rest] the
    bytes from that boundary on. *)
Inductive Occurs (resolver : Resolver)
  : MessageDescriptor -> bytes -> MessageDescriptor -> bytes -> Prop :=
| Occurs_here desc bz : Occurs resolver desc bz desc bz
| Occurs_after desc bz tagNum wireType fieldBytes bz' desc' rest :
    headField bz = Some (tagNum, wireType, fieldBytes, bz') ->
    Occurs resolver desc bz' desc' rest ->
    Occurs resolver desc bz desc' rest
| Occurs_message desc bz tagNum wireType fieldBytes bz' fd fm inner desc' rest :
    headField bz = Some (tagNum, wireType, fieldBytes, bz') ->
    md_ByNumber desc tagNum = Some fd -> fd_Message fd = Some fm ->
    String.eqb (md_FullName fm) anyFullName = false ->
    content fieldBytes = Some inner ->
    Occurs resolver fm inner desc' rest ->
    Occurs resolver desc bz desc' rest
| Occurs_envelope desc bz tagNum wireType fieldBytes bz' fd fm inner desc' rest :
    headField bz = Some (tagNum, wireType, fieldBytes, bz') ->
    md_ByNumber desc tagNum = Some fd -> fd_Message fd = Some fm ->
    String.eqb (md_FullName fm) anyFullName = true ->
    content fieldBytes = Some inner ->
    Occurs resolver anyDesc inner desc' rest ->
    Occurs resolver desc bz desc' rest
| Occurs_payload desc bz tagNum wireType fieldBytes bz' fd fm inner a d fm'
    desc' rest :
    headField bz = Some (tagNum, wireType, fieldBytes, bz') ->
    md_ByNumber desc tagNum = Some fd -> fd_Message fd = Some fm ->
    String.eqb (md_FullName fm) anyFullName = true ->
    content fieldBytes = Some inner ->
    Unmarshal inner = Some a ->
    resolver (MessageNameFromTypeURL (TypeUrl a)) = Some d ->
    asMessageDescriptor d = Some fm' ->
    Occurs resolver fm' (Value a) desc' rest ->
    Occurs resolver desc bz desc' rest.


End Validator.

(** *** The slices of one pass are shorter than the buffer *)

Section ValidatorFacts.
Context `{Reflect}.

Local Abbreviation result := (option (Run (bool * option Error))).

Lemma afterCall_ext (r : result) (h : bool) (k k' : bool -> result) :
  (forall h', k h' = k' h') -> afterCall r h k = afterCall r h k'.
Proof.
  intros E. destruct r as [[[c [e|]]|]|]; simpl; auto.
Qed.

(** What one pass cuts out of a non-empty buffer whose tag and field value
    parse: the rest of the buffer is strictly shorter than the buffer, and
    so are the field's bytes, before and after the length prefix is
    stripped. *)
Lemma slices_shorter (bz : bytes) (tagNum wireType m : Z) :
  protowire.ConsumeTag bz = (tagNum, wireType, m) -> 0 <= m ->
  let n := protowire.ConsumeFieldValue tagNum wireType (from m bz) in
  0 <= n ->
  len (from n (from m bz)) < len bz /\
  len (upto n (from m bz)) < len bz /\
  forall v o, protowire.ConsumeVarint (upto n (from m bz)) = (v, o) ->
    0 <= o -> len (from o (upto n (from m bz))) < len (upto n (from m bz)).
Proof.
  intros Ht Hm n Hn.
  pose proof (protowire.ConsumeTag_length _ _ _ _ Ht) as Hl.
  assert (Hf : len (from m bz) = len bz - m)
    by (apply len_from; lia).
  pose proof (protowire.ConsumeFieldValue_length tagNum wireType (from m bz))
    as Hv. fold n in Hv.
  assert (Hu : len (upto n (from m bz)) = n)
    by (apply len_upto; lia).
  repeat split.
  - rewrite len_from by lia. lia.
  - lia.
  - intros v o Ho Hpos.
    pose proof (protowire.ConsumeVarint_length _ _ _ Ho).
    rewrite len_from by lia. lia.
Qed.

(** A pass uses the function and the next pass only on slices strictly
    shorter than its buffer. *)
Lemma iteration_ext (call call' : bytes -> MessageDescriptor -> result)
    (next next' : bytes -> bool -> result)
    (bz : bytes) (desc : MessageDescriptor) (allow : bool)
    (resolver : Resolver) (h : bool) :
  (forall fb d, len fb < len bz -> call fb d = call' fb d) ->
  (forall bz' h', len bz' < len bz -> next bz' h' = next' bz' h') ->
  iteration call next bz desc allow resolver h
  = iteration call' next' bz desc allow resolver h.
Proof.
  intros Hc Hk. unfold iteration.
  destruct (negb (0 <? len bz)); [reflexivity|].
  destruct (protowire.ConsumeTag bz) as [[tagNum wireType] m] eqn:Ht.
  destruct (m <? 0) eqn:Hm; [reflexivity|].
  match goal with |- (if ?c then _ else _) = _ => destruct c end;
    [reflexivity|].
  destruct (protowire.ConsumeFieldValue tagNum wireType (from m bz) <? 0)
    eqn:Hn; [reflexivity|].
  destruct (slices_shorter bz tagNum wireType m Ht ltac:(lia) ltac:(lia))
    as (Hrest & Hfb & Hstrip).
  destruct (md_ByNumber desc tagNum) as [fd|]; [|apply Hk; assumption].
  destruct (negb (isWireTypeAssignable wireType (fd_Kind fd)));
    [reflexivity|].
  destruct (fd_Message fd) as [fm|]; [|apply Hk; assumption].
  destruct (protowire.ConsumeVarint _) as [v o] eqn:Ho.
  destruct (o <? 0) eqn:Hneg; [reflexivity|].
  specialize (Hstrip _ _ eq_refl ltac:(lia)).
  destruct (String.eqb (md_FullName fm) anyFullName).
  - rewrite Hc by lia. apply afterCall_ext; intros h'.
    destruct (Unmarshal _) as [a|] eqn:Hu; [|reflexivity].
    apply Unmarshal_Value in Hu.
    destruct (resolver _) as [d|]; [|reflexivity].
    destruct (asMessageDescriptor d); [|reflexivity].
    rewrite Hc by lia. apply afterCall_ext; intros h''.
    apply Hk; assumption.
  - rewrite Hc by lia. apply afterCall_ext; intros h'.
    apply Hk; assumption.
Qed.

Lemma afterCall_Some (r : result) (h : bool) (k : bool -> result) :
  r <> None -> (forall h', k h' <> None) -> afterCall r h k <> None.
Proof.
  intros Hr Hk. destruct r as [[[c [e|]]|]|]; simpl; auto; discriminate.
Qed.

(** A pass returns or panics as soon as the function and the next pass do
    so on every strictly shorter slice. *)
Lemma iteration_Some (call : bytes -> MessageDescriptor -> result)
    (next : bytes -> bool -> result)
    (bz : bytes) (desc : MessageDescriptor) (allow : bool)
    (resolver : Resolver) (h : bool) :
  (forall fb d, len fb < len bz -> call fb d <> None) ->
  (forall bz' h', len bz' < len bz -> next bz' h' <> None) ->
  iteration call next bz desc allow resolver h <> None.
Proof.
  intros Hc Hk. unfold iteration.
  destruct (negb (0 <? len bz)); [discriminate|].
  destruct (protowire.ConsumeTag bz) as [[tagNum wireType] m] eqn:Ht.
  destruct (m <? 0) eqn:Hm; [discriminate|].
  match goal with |- (if ?c then _ else _) <> _ => destruct c end;
    [discriminate|].
  destruct (protowire.ConsumeFieldValue tagNum wireType (from m bz) <? 0)
    eqn:Hn; [discriminate|].
  destruct (slices_shorter bz tagNum wireType m Ht ltac:(lia) ltac:(lia))
    as (Hrest & Hfb & Hstrip).
  destruct (md_ByNumber desc tagNum) as [fd|]; [|apply Hk; assumption].
  destruct (negb (isWireTypeAssignable wireType (fd_Kind fd)));
    [discriminate|].
  destruct (fd_Message fd) as [fm|]; [|apply Hk; assumption].
  destruct (protowire.ConsumeVarint _) as [v o] eqn:Ho.
  destruct (o <? 0) eqn:Hneg; [discriminate|].
  specialize (Hstrip _ _ eq_refl ltac:(lia)).
  destruct (String.eqb (md_FullName fm) anyFullName).
  - apply afterCall_Some; [apply Hc; lia|]. intros h'.
    destruct (Unmarshal _) as [a|] eqn:Hu; [|discriminate].
    apply Unmarshal_Value in Hu.
    destruct (resolver _) as [d|]; [|discriminate].
    destruct (asMessageDescriptor d); [|discriminate].
    apply afterCall_Some; [apply Hc; lia|]. intros h''.
    apply Hk; assumption.
  - apply afterCall_Some; [apply Hc; lia|]. intros h'.
    apply Hk; assumption.
Qed.

(** The fuel does not matter once it exceeds the length of the buffer. *)
Lemma loop_enough (f : nat) : forall f' bz desc allow resolver h,
  (length bz < f)%nat -> (length bz < f')%nat ->
  loop f bz desc allow resolver h = loop f' bz desc allow resolver h.
Proof.
  induction f as [|f IH]; intros f' bz desc allow resolver h Hf Hf';
    [lia|].
  destruct f' as [|f']; [lia|]. simpl.
  apply iteration_ext.
  - intros fb d Hl. destruct (len fb =? 0); [reflexivity|].
    unfold len in Hl. apply IH; lia.
  - intros bz' h' Hl. unfold len in Hl. apply IH; lia.
Qed.

(** With more fuel than the buffer has bytes the loop returns or panics. *)
Lemma loop_fuel (f : nat) : forall bz desc allow resolver h,
  (length bz < f)%nat -> loop f bz desc allow resolver h <> None.
Proof.
  induction f as [|f IH]; intros bz desc allow resolver h Hf; [lia|].
  simpl. apply iteration_Some.
  - intros fb d Hl. destruct (len fb =? 0); [discriminate|].
    unfold len in Hl. apply IH; lia.
  - intros bz' h' Hl. unfold len in Hl. apply IH; lia.
Qed.

(** The loop satisfies the equation of the source: one pass, with the
    function itself at the recursive calls and the loop at the next pass. *)
Lemma loopFrom_unfold (bz : bytes) (desc : MessageDescriptor) (allow : bool)
    (resolver : Resolver) (h : bool) :
  loopFrom bz desc allow resolver h
  = iteration (fun fb d => RejectUnknownFields fb d allow resolver)
      (fun bz' h' => loopFrom bz' desc allow resolver h')
      bz desc allow resolver h.
Proof.
  unfold loopFrom at 1. simpl. apply iteration_ext.
  - intros fb d Hl. unfold RejectUnknownFields, loopFrom.
    destruct (len fb =? 0); [reflexivity|].
    unfold len in Hl. apply loop_enough; lia.
  - intros bz' h' Hl. unfold loopFrom, len in *. apply loop_enough; lia.
Qed.

Lemma RejectUnknownFields_loopFrom (bz : bytes) (desc : MessageDescriptor)
    (allow : bool) (resolver : Resolver) :
  RejectUnknownFields bz desc allow resolver
  = loopFrom bz desc allow resolver false.
Proof.
  unfold RejectUnknownFields.
  destruct (len bz =? 0) eqn:E; [|reflexivity].
  destruct bz; [reflexivity|]. unfold len in E; simpl in E; lia.
Qed.

(** *** The flag is accumulated by disjunction *)

Lemma orFlag_orFlag (a b : bool) (r : result) :
  orFlag a (orFlag b r) = orFlag (a || b) r.
Proof.
  destruct r as [[[c e]|]|]; simpl; try reflexivity.
  rewrite orb_assoc; reflexivity.
Qed.

Lemma afterCall_orFlag (r : result) (h : bool) (k : bool -> result) :
  (forall x, k x = orFlag x (k false)) ->
  afterCall r h k = orFlag h (afterCall r false k).
Proof.
  intros Hk. destruct r as [[[c [e|]]|]|]; simpl; try reflexivity.
  rewrite (Hk (h || c)), (Hk c), orFlag_orFlag. reflexivity.
Qed.

Lemma iteration_orFlag (call : bytes -> MessageDescriptor -> result)
    (next : bytes -> bool -> result)
    (bz : bytes) (desc : MessageDescriptor) (allow : bool)
    (resolver : Resolver) (h : bool) :
  (forall bz' x, len bz' < len bz -> next bz' x = orFlag x (next bz' false)) ->
  iteration call next bz desc allow resolver h
  = orFlag h (iteration call next bz desc allow resolver false).
Proof.
  intros Hk. unfold iteration.
  destruct (negb (0 <? len bz));
    [simpl; rewrite orb_false_r; reflexivity|].
  destruct (protowire.ConsumeTag bz) as [[tagNum wireType] m] eqn:Ht.
  destruct (m <? 0) eqn:Hm; [simpl; rewrite orb_false_r; reflexivity|].
  assert (Hnext : forall x y,
    (protowire.ConsumeFieldValue tagNum wireType (from m bz) <? 0) = false ->
    next (from (protowire.ConsumeFieldValue tagNum wireType (from m bz))
               (from m bz)) (x || y)
    = orFlag x (next (from (protowire.ConsumeFieldValue tagNum wireType
                              (from m bz)) (from m bz)) y)).
  { intros x y Hn.
    destruct (slices_shorter bz tagNum wireType m Ht ltac:(lia) ltac:(lia))
      as (Hrest & _ & _).
    rewrite (Hk _ (x || y)), (Hk _ y) by assumption.
    rewrite orFlag_orFlag; reflexivity. }
  destruct (md_ByNumber desc tagNum) as [fd|]; simpl.
  - destruct (protowire.ConsumeFieldValue tagNum wireType (from m bz) <? 0)
      eqn:Hn; [simpl; rewrite orb_false_r; reflexivity|].
    specialize (Hnext h false eq_refl). rewrite orb_false_r in Hnext.
    destruct (negb (isWireTypeAssignable wireType (fd_Kind fd)));
      [simpl; rewrite orb_false_r; reflexivity|].
    destruct (fd_Message fd) as [fm|]; [|exact Hnext].
    destruct (slices_shorter bz tagNum wireType m Ht ltac:(lia) ltac:(lia))
      as (Hrest & _ & _).
    destruct (protowire.ConsumeVarint _) as [v o].
    destruct (o <? 0); [reflexivity|].
    destruct (String.eqb (md_FullName fm) anyFullName).
    + apply afterCall_orFlag. intros x.
      destruct (Unmarshal _) as [a|];
        [|simpl; rewrite orb_false_r; reflexivity].
      destruct (resolver _) as [d|];
        [|simpl; rewrite orb_false_r; reflexivity].
      destruct (asMessageDescriptor d); [|reflexivity].
      apply afterCall_orFlag. intros y. apply Hk; assumption.
    + apply afterCall_orFlag. intros y. apply Hk; assumption.
  - destruct (Z.land tagNum bit11NonCritical =? 0); simpl.
    + rewrite orb_false_r; reflexivity.
    + destruct allow; simpl; [|rewrite orb_true_r; reflexivity].
      destruct (protowire.ConsumeFieldValue tagNum wireType (from m bz) <? 0)
        eqn:Hn; [simpl; rewrite orb_true_r; reflexivity|].
      specialize (Hnext h true eq_refl). rewrite orb_true_r in Hnext.
      exact Hnext.
Qed.

(** The loop started with the flag [h] ends as the loop started with the
    flag unset does, with [h] joined to the flag it returns. *)
Lemma loopFrom_orFlag (bz : bytes) : forall desc allow resolver h,
  loopFrom bz desc allow resolver h
  = orFlag h (loopFrom bz desc allow resolver false).
Proof.
  remember (length bz) as k eqn:Hk. revert bz Hk.
  induction k as [k IH] using lt_wf_ind. intros bz Hk desc allow resolver h.
  rewrite (loopFrom_unfold bz desc allow resolver h).
  rewrite (loopFrom_unfold bz desc allow resolver false).
  apply iteration_orFlag. intros bz' x Hl.
  apply (IH (length bz')); [unfold len in Hl; lia|reflexivity].
Qed.

(** *** Unknown fields *)

Lemma bit11NonCritical_value : bit11NonCritical = 1024.
Proof. reflexivity. Qed.

(** A buffer whose tag parses is not empty. *)
Lemma ConsumeTag_nonempty (bz : bytes) (tagNum wireType m : Z) :
  protowire.ConsumeTag bz = (tagNum, wireType, m) -> 0 <= m ->
  negb (0 <? len bz) = false.
Proof.
  intros Ht Hm. pose proof (protowire.ConsumeTag_length _ _ _ _ Ht).
  destruct (0 <? len bz) eqn:E; [reflexivity|lia].
Qed.

(** The pass of the loop at a field whose number is not in the
    descriptor. *)
Lemma loopFrom_unknown (bz : bytes) (desc : MessageDescriptor)
    (allow : bool) (resolver : Resolver) (h : bool) (tagNum wireType m : Z) :
  protowire.ConsumeTag bz = (tagNum, wireType, m) -> 0 <= m ->
  md_ByNumber desc tagNum = None ->
  loopFrom bz desc allow resolver h =
  let n := protowire.ConsumeFieldValue tagNum wireType (from m bz) in
  let unknownField :=
    ErrUnknownField (md_FullName desc) tagNum (WireTypeToString wireType) in
  if Z.land tagNum bit11NonCritical =? 0 then
    Some (Returns (h, Some unknownField))
  else if negb allow then Some (Returns (true, Some unknownField))
  else if n <? 0 then
    Some (Returns (true, Some (ErrConsumeFieldValue tagNum
                                 (WireTypeToString wireType) n)))
  else loopFrom (from n (from m bz)) desc allow resolver true.
Proof.
  intros Ht Hm Hfd. rewrite loopFrom_unfold. unfold iteration.
  rewrite (ConsumeTag_nonempty _ _ _ _ Ht Hm), Ht, Hfd.
  replace (m <? 0) with false by lia. simpl.
  destruct (Z.land tagNum bit11NonCritical =? 0); simpl; [reflexivity|].
  destruct allow; reflexivity.
Qed.

Lemma headField_tag (bz : bytes) (tagNum wireType : Z)
    (fieldBytes bz' : bytes) :
  headField bz = Some (tagNum, wireType, fieldBytes, bz') ->
  exists m,
    protowire.ConsumeTag bz = (tagNum, wireType, m) /\ 0 <= m /\
    0 <= protowire.ConsumeFieldValue tagNum wireType (from m bz) /\
    fieldBytes = upto (protowire.ConsumeFieldValue tagNum wireType (from m bz))
                      (from m bz) /\
    bz' = from (protowire.ConsumeFieldValue tagNum wireType (from m bz))
               (from m bz).
Proof.
  unfold headField.
  destruct (protowire.ConsumeTag bz) as [[t w] m].
  destruct (m <? 0) eqn:Hm; [discriminate|].
  destruct (protowire.ConsumeFieldValue t w (from m bz) <? 0) eqn:Hn;
    [discriminate|].
  intros E; inversion E; subst. exists m. repeat split; lia.
Qed.

(** The value of the head field and the bytes after the field are strictly
    shorter than the buffer, and the content of a value is strictly shorter
    than the value. *)
Lemma headField_shorter (bz : bytes) (tagNum wireType : Z)
    (fieldBytes bz' : bytes) :
  headField bz = Some (tagNum, wireType, fieldBytes, bz') ->
  len fieldBytes < len bz /\ len bz' < len bz.
Proof.
  intros Hh. apply headField_tag in Hh.
  destruct Hh as (m & Ht & Hm & Hn & -> & ->).
  destruct (slices_shorter bz tagNum wireType m Ht Hm Hn) as (H1 & H2 & _).
  split; assumption.
Qed.

Lemma content_shorter (fieldBytes inner : bytes) :
  content fieldBytes = Some inner -> len inner < len fieldBytes.
Proof.
  unfold content.
  destruct (protowire.ConsumeVarint fieldBytes) as [v o] eqn:Hv.
  destruct (o <? 0) eqn:Ho; [discriminate|].
  intros E; inversion E; subst inner.
  pose proof (protowire.ConsumeVarint_length _ _ _ Hv).
  rewrite len_from by lia. lia.
Qed.

(** The pass of the loop at a field whose tag and value parse. *)
Lemma loopFrom_headField (bz : bytes) (desc : MessageDescriptor)
    (allow : bool) (resolver : Resolver) (h : bool) (tagNum wireType : Z)
    (fieldBytes bz' : bytes) :
  headField bz = Some (tagNum, wireType, fieldBytes, bz') ->
  loopFrom bz desc allow resolver h =
  let next := loopFrom bz' desc allow resolver in
  match md_ByNumber desc tagNum with
  | None =>
      let unknownField :=
        ErrUnknownField (md_FullName desc) tagNum (WireTypeToString wireType)
      in
      if Z.land tagNum bit11NonCritical =? 0 then
        Some (Returns (h, Some unknownField))
      else if negb allow then Some (Returns (true, Some unknownField))
      else next true
  | Some fd =>
      if negb (isWireTypeAssignable wireType (fd_Kind fd)) then
        Some (Returns (h, Some (ErrInvalidWireType (WireTypeToString wireType)
                                                   (fd_FullName fd))))
      else
      match fd_Message fd with
      | None => next h
      | Some fm =>
        match content fieldBytes with
        | None => Some Panics
        | Some inner =>
          if String.eqb (md_FullName fm) anyFullName then
            afterCall (RejectUnknownFields inner anyDesc allow resolver) h
              (fun h =>
            match Unmarshal inner with
            | None => Some (Returns (h, Some ErrUnmarshal))
            | Some a =>
              match resolver (MessageNameFromTypeURL (TypeUrl a)) with
              | None =>
                  Some (Returns (h, Some (ErrNotFound
                          (MessageNameFromTypeURL (TypeUrl a)))))
              | Some d =>
                match asMessageDescriptor d with
                | None => Some Panics
                | Some fm' =>
                    afterCall (RejectUnknownFields (Value a) fm' allow resolver)
                      h next
                end
              end
            end)
          else afterCall (RejectUnknownFields inner fm allow resolver) h next
        end
      end
  end.
Proof.
  intros Hh. apply headField_tag in Hh.
  destruct Hh as (m & Ht & Hm & Hn & -> & ->).
  rewrite loopFrom_unfold. unfold iteration, content.
  rewrite (ConsumeTag_nonempty _ _ _ _ Ht Hm), Ht.
  replace (m <? 0) with false by lia.
  replace (_ <? 0) with false by lia.
  destruct (md_ByNumber desc tagNum) as [fd|]; simpl.
  - destruct (negb (isWireTypeAssignable wireType (fd_Kind fd)));
      [reflexivity|].
    destruct (fd_Message fd) as [fm|]; [|reflexivity].
    destruct (protowire.ConsumeVarint _) as [v o].
    destruct (o <? 0); reflexivity.
  - destruct (Z.land tagNum bit11NonCritical =? 0); simpl; [reflexivity|].
    destruct allow; reflexivity.
Qed.

(** C1. A field whose number is not in the descriptor is classified by bit
    1024 of the number alone. When the bit is set (non-critical) and
    non-critical unknown fields are allowed, the pass sets the flag, cuts
    the field's value off the buffer by the length the wire scanner
    reports, and goes on with the rest of the buffer; the value's bytes
    reach nothing else. When the bit is clear (critical) the pass ends the
    call at once with the unknown-field error, whether or not non-critical
    fields are allowed, and leaves the flag as it was. *)
Theorem unknown_field_by_bit11 (bz : bytes) (desc : MessageDescriptor)
    (resolver : Resolver) (h : bool) (tagNum wireType m : Z) :
  protowire.ConsumeTag bz = (tagNum, wireType, m) -> 0 <= m ->
  md_ByNumber desc tagNum = None ->
  (Z.land tagNum 1024 <> 0 ->
   let n := protowire.ConsumeFieldValue tagNum wireType (from m bz) in
   0 <= n ->
   loopFrom bz desc true resolver h
   = loopFrom (from n (from m bz)) desc true resolver true) /\
  (Z.land tagNum 1024 = 0 ->
   forall allow,
   loopFrom bz desc allow resolver h
   = Some (Returns (h, Some (ErrUnknownField (md_FullName desc) tagNum
                               (WireTypeToString wireType))))).
Proof.
  intros Ht Hm Hfd. split.
  - intros Hbit n Hn.
    rewrite (loopFrom_unknown _ _ _ _ _ _ _ _ Ht Hm Hfd).
    rewrite bit11NonCritical_value. simpl.
    replace (Z.land tagNum 1024 =? 0) with false by lia.
    fold n. replace (n <? 0) with false by lia. reflexivity.
  - intros Hbit allow.
    rewrite (loopFrom_unknown _ _ _ _ _ _ _ _ Ht Hm Hfd).
    rewrite bit11NonCritical_value. simpl.
    replace (Z.land tagNum 1024 =? 0) with true by lia. reflexivity.
Qed.

(** An unknown-field error for a number with bit 1024 set comes with the
    flag set: one pass. *)
Lemma iteration_unknown_flag (call : bytes -> MessageDescriptor -> result)
    (next : bytes -> bool -> result)
    (bz : bytes) (desc : MessageDescriptor) (allow : bool)
    (resolver : Resolver) (h flag : bool) (name : string) (tagNum : Z)
    (wt : string) :
  (forall fb d c nm, len fb < len bz ->
     call fb d = Some (Returns (c, Some (ErrUnknownField nm tagNum wt))) ->
     c = true) ->
  (forall bz' h' c nm, len bz' < len bz ->
     next bz' h' = Some (Returns (c, Some (ErrUnknownField nm tagNum wt))) ->
     c = true) ->
  Z.land tagNum bit11NonCritical <> 0 ->
  iteration call next bz desc allow resolver h
  = Some (Returns (flag, Some (ErrUnknownField name tagNum wt))) ->
  flag = true.
Proof.
  intros Hc Hk Hbit. unfold iteration.
  destruct (negb (0 <? len bz)); [discriminate|].
  destruct (protowire.ConsumeTag bz) as [[tagNum' wireType] m] eqn:Ht.
  destruct (m <? 0) eqn:Hm; [discriminate|].
  destruct (md_ByNumber desc tagNum') as [fd|]; simpl.
  - destruct (protowire.ConsumeFieldValue tagNum' wireType (from m bz) <? 0)
      eqn:Hn; [discriminate|].
    destruct (slices_shorter bz tagNum' wireType m Ht ltac:(lia) ltac:(lia))
      as (Hrest & Hfb & Hstrip).
    destruct (negb (isWireTypeAssignable wireType (fd_Kind fd)));
      [discriminate|].
    destruct (fd_Message fd) as [fm|]; [|apply Hk; assumption].
    destruct (protowire.ConsumeVarint _) as [v o] eqn:Ho.
    destruct (o <? 0) eqn:Hneg; [discriminate|].
    specialize (Hstrip _ _ eq_refl ltac:(lia)).
    destruct (String.eqb (md_FullName fm) anyFullName).
    + destruct (call _ anyDesc) as [[[c [e|]]|]|] eqn:Hc1; simpl;
        try discriminate.
      * intros E; inversion E; subst.
        apply Hc in Hc1; [|lia]. subst; apply orb_true_r.
      * destruct (Unmarshal _) as [a|] eqn:Hu; [|discriminate].
        apply Unmarshal_Value in Hu.
        destruct (resolver _) as [d|]; [|discriminate].
        destruct (asMessageDescriptor d) as [fm'|]; [|discriminate].
        destruct (call (Value a) fm') as [[[c' [e|]]|]|] eqn:Hc2; simpl;
          try discriminate.
        -- intros E; inversion E; subst.
           apply Hc in Hc2; [|lia]. subst; apply orb_true_r.
        -- apply Hk; assumption.
    + destruct (call _ fm) as [[[c [e|]]|]|] eqn:Hc1; simpl;
        try discriminate.
      * intros E; inversion E; subst.
        apply Hc in Hc1; [|lia]. subst; apply orb_true_r.
      * apply Hk; assumption.
  - destruct (Z.land tagNum' bit11NonCritical =? 0) eqn:Hb; simpl.
    + intros E; inversion E; subst. lia.
    + destruct allow; simpl; [|intros E; inversion E; reflexivity].
      destruct (protowire.ConsumeFieldValue tagNum' wireType (from m bz) <? 0)
        eqn:Hn; [discriminate|].
      destruct (slices_shorter bz tagNum' wireType m Ht ltac:(lia) ltac:(lia))
        as (Hrest & _ & _).
      apply Hk; assumption.
Qed.

Lemma loopFrom_unknown_flag (bz : bytes) :
  forall desc allow resolver h flag name tagNum wt,
  Z.land tagNum bit11NonCritical <> 0 ->
  loopFrom bz desc allow resolver h
  = Some (Returns (flag, Some (ErrUnknownField name tagNum wt))) ->
  flag = true.
Proof.
  remember (length bz) as k eqn:Hk. revert bz Hk.
  induction k as [k IH] using lt_wf_ind.
  intros bz Hk desc allow resolver h flag name tagNum wt Hbit.
  rewrite loopFrom_unfold. apply iteration_unknown_flag; [| |assumption].
  - intros fb d c nm Hl. rewrite RejectUnknownFields_loopFrom.
    apply (IH (length fb)); [unfold len in Hl; lia|reflexivity|assumption].
  - intros bz' h' c nm Hl.
    apply (IH (length bz')); [unfold len in Hl; lia|reflexivity|assumption].
Qed.

(** C10. When the call with non-critical unknown fields disallowed returns
    the unknown-field error for a field number with bit 1024 set, the flag
    it returns with the error is set, wherever in the buffer and however
    deep in nested messages the field was met. *)
Theorem rejected_non_critical_sets_flag (bz : bytes)
    (desc : MessageDescriptor) (resolver : Resolver) (flag : bool)
    (name : string) (tagNum : Z) (wt : string) :
  Z.land tagNum 1024 <> 0 ->
  RejectUnknownFields bz desc false resolver
  = Some (Returns (flag, Some (ErrUnknownField name tagNum wt))) ->
  flag = true.
Proof.
  intros Hbit. rewrite RejectUnknownFields_loopFrom.
  apply loopFrom_unknown_flag. rewrite bit11NonCritical_value. exact Hbit.
Qed.

(** *** Fields that follow an accepted prefix *)

Lemma afterCall_accepted (r : result) (h h1 : bool) (k : bool -> result) :
  afterCall r h k = Some (Returns (h1, None)) ->
  exists c, r = Some (Returns (c, None))
            /\ k (h || c) = Some (Returns (h1, None)).
Proof.
  destruct r as [[[c [e|]]|]|]; simpl; try discriminate.
  intros E; exists c; split; [reflexivity|exact E].
Qed.

(** What the scanner finds at the head of [pre] it finds at the head of
    [pre ++ rest]. *)
Lemma scan_app (pre rest : bytes) (tagNum wireType m : Z) :
  protowire.ConsumeTag pre = (tagNum, wireType, m) -> 0 <= m ->
  let n := protowire.ConsumeFieldValue tagNum wireType (from m pre) in
  0 <= n ->
  protowire.ConsumeTag (pre ++ rest) = (tagNum, wireType, m) /\
  protowire.ConsumeFieldValue tagNum wireType (from m (pre ++ rest)) = n /\
  upto n (from m (pre ++ rest)) = upto n (from m pre) /\
  from n (from m (pre ++ rest)) = from n (from m pre) ++ rest.
Proof.
  intros Ht Hm n Hn.
  pose proof (protowire.ConsumeTag_length _ _ _ _ Ht) as Hl.
  pose proof (protowire.ConsumeFieldValue_length tagNum wireType (from m pre))
    as Hv. fold n in Hv.
  assert (Hf : len (from m pre) = len pre - m)
    by (apply len_from; lia).
  rewrite from_app by lia.
  rewrite protowire.ConsumeFieldValue_app by (fold n; lia). fold n.
  rewrite upto_app, from_app by lia.
  repeat split. apply protowire.ConsumeTag_app; assumption.
Qed.

Lemma iteration_app (call : bytes -> MessageDescriptor -> result)
    (next next' : bytes -> bool -> result) (R : bool -> result)
    (pre rest : bytes) (desc : MessageDescriptor) (allow : bool)
    (resolver : Resolver) (h h1 : bool) :
  0 < len pre ->
  (forall x y z, len x < len pre ->
     next x y = Some (Returns (z, None)) -> next' (x ++ rest) y = R z) ->
  iteration call next pre desc allow resolver h = Some (Returns (h1, None)) ->
  iteration call next' (pre ++ rest) desc allow resolver h = R h1.
Proof.
  intros Hpos Hk. unfold iteration.
  pose proof (len_nonneg rest) as Hrest0.
  replace (negb (0 <? len pre)) with false by lia.
  replace (negb (0 <? len (pre ++ rest))) with false
    by (rewrite len_app; lia).
  destruct (protowire.ConsumeTag pre) as [[tagNum wireType] m] eqn:Ht.
  destruct (m <? 0) eqn:Hm; [discriminate|].
  destruct (protowire.ConsumeFieldValue tagNum wireType (from m pre) <? 0)
    eqn:Hn.
  { destruct (md_ByNumber desc tagNum); simpl;
      [discriminate|].
    destruct (Z.land tagNum bit11NonCritical =? 0); simpl; [discriminate|].
    destruct allow; discriminate. }
  destruct (scan_app pre rest _ _ _ Ht ltac:(lia) ltac:(lia))
    as (Ht' & Hn' & Hu' & Hf').
  destruct (slices_shorter pre tagNum wireType m Ht ltac:(lia) ltac:(lia))
    as (Hshort & _ & _).
  rewrite Ht', Hm, Hn', Hn, Hu', Hf'.
  destruct (md_ByNumber desc tagNum) as [fd|]; simpl.
  - destruct (negb (isWireTypeAssignable wireType (fd_Kind fd)));
      [discriminate|].
    destruct (fd_Message fd) as [fm|]; [|apply Hk; assumption].
    destruct (protowire.ConsumeVarint _) as [v o].
    destruct (o <? 0); [discriminate|].
    destruct (String.eqb (md_FullName fm) anyFullName).
    + intros E. apply afterCall_accepted in E. destruct E as (c & -> & E).
      simpl. destruct (Unmarshal _) as [a|]; [|discriminate].
      destruct (resolver _) as [d|]; [|discriminate].
      destruct (asMessageDescriptor d); [|discriminate].
      apply afterCall_accepted in E. destruct E as (c' & -> & E).
      simpl. apply Hk; assumption.
    + intros E. apply afterCall_accepted in E. destruct E as (c & -> & E).
      simpl. apply Hk; assumption.
  - destruct (Z.land tagNum bit11NonCritical =? 0); simpl; [discriminate|].
    destruct allow; simpl; [|discriminate].
    apply Hk; assumption.
Qed.

Lemma loopFrom_nil (desc : MessageDescriptor) (allow : bool)
    (resolver : Resolver) (h : bool) :
  loopFrom [] desc allow resolver h = Some (Returns (h, None)).
Proof. reflexivity. Qed.

(** When the loop accepts [pre], with the flag [h1], the loop on
    [pre ++ rest] arrives at [rest] with that flag. *)
Lemma loopFrom_app (pre : bytes) : forall rest desc allow resolver h h1,
  loopFrom pre desc allow resolver h = Some (Returns (h1, None)) ->
  loopFrom (pre ++ rest) desc allow resolver h
  = loopFrom rest desc allow resolver h1.
Proof.
  remember (length pre) as k eqn:Hk. revert pre Hk.
  induction k as [k IH] using lt_wf_ind.
  intros pre Hk rest desc allow resolver h h1.
  destruct pre as [|x pre].
  { rewrite loopFrom_nil. intros E; inversion E; reflexivity. }
  rewrite (loopFrom_unfold (x :: pre)).
  rewrite (loopFrom_unfold ((x :: pre) ++ rest)).
  apply iteration_app with (R := loopFrom rest desc allow resolver).
  - unfold len; simpl length; lia.
  - intros y z w Hl. apply (IH (length y)); [unfold len in Hl; lia|].
    reflexivity.
Qed.

(** *** The strict validator on what the permissive one accepts *)

Lemma iteration_strict (callP callS : bytes -> MessageDescriptor -> result)
    (nextP nextS : bytes -> bool -> result) (R : result)
    (pre rest : bytes) (desc : MessageDescriptor)
    (resolver : Resolver) (h1 : bool) :
  0 < len pre ->
  (forall fb d c, len fb < len pre ->
     callP fb d = Some (Returns (c, None)) ->
     if c then exists e, callS fb d = Some (Returns (true, Some e))
     else callS fb d = Some (Returns (false, None))) ->
  (forall x z, len x < len pre ->
     nextP x true = Some (Returns (z, None)) -> z = true) ->
  (forall x z, len x < len pre ->
     nextP x false = Some (Returns (z, None)) ->
     if z then exists e, nextS (x ++ rest) false = Some (Returns (true, Some e))
     else nextS (x ++ rest) false = R) ->
  iteration callP nextP pre desc true resolver false
  = Some (Returns (h1, None)) ->
  if h1 then
    exists e, iteration callS nextS (pre ++ rest) desc false resolver false
              = Some (Returns (true, Some e))
  else iteration callS nextS (pre ++ rest) desc false resolver false = R.
Proof.
  intros Hpos Hc Hk1 Hk. unfold iteration.
  pose proof (len_nonneg rest) as Hrest0.
  replace (negb (0 <? len pre)) with false by lia.
  replace (negb (0 <? len (pre ++ rest))) with false
    by (rewrite len_app; lia).
  destruct (protowire.ConsumeTag pre) as [[tagNum wireType] m] eqn:Ht.
  destruct (m <? 0) eqn:Hm; [discriminate|].
  destruct (protowire.ConsumeFieldValue tagNum wireType (from m pre) <? 0)
    eqn:Hn.
  { destruct (md_ByNumber desc tagNum); simpl;
      [discriminate|].
    destruct (Z.land tagNum bit11NonCritical =? 0); discriminate. }
  destruct (scan_app pre rest _ _ _ Ht ltac:(lia) ltac:(lia))
    as (Ht' & Hn' & Hu' & Hf').
  destruct (slices_shorter pre tagNum wireType m Ht ltac:(lia) ltac:(lia))
    as (Hshort & Hfb & Hstrip).
  rewrite Ht', Hm, Hn', Hu', Hf'.
  destruct (md_ByNumber desc tagNum) as [fd|]; simpl.
  - rewrite Hn.
    destruct (negb (isWireTypeAssignable wireType (fd_Kind fd)));
      [discriminate|].
    destruct (fd_Message fd) as [fm|]; [|apply Hk; assumption].
    destruct (protowire.ConsumeVarint _) as [v o] eqn:Ho.
    destruct (o <? 0) eqn:Hneg; [discriminate|].
    specialize (Hstrip _ _ eq_refl ltac:(lia)).
    destruct (String.eqb (md_FullName fm) anyFullName).
    + intros E. apply afterCall_accepted in E. destruct E as (c & E1 & E).
      apply Hc in E1; [|lia]. simpl in E.
      destruct (Unmarshal _) as [a|] eqn:Hu; [|discriminate].
      apply Unmarshal_Value in Hu.
      destruct (resolver _) as [d|]; [|discriminate].
      destruct (asMessageDescriptor d) as [fm'|]; [|discriminate].
      apply afterCall_accepted in E. destruct E as (c' & E2 & E).
      apply Hc in E2; [|lia].
      destruct c.
      * apply Hk1 in E; [|assumption]. subst h1.
        destruct E1 as [e ->]. exists e; reflexivity.
      * rewrite E1. simpl. destruct c'.
        -- apply Hk1 in E; [|assumption]. subst h1.
           destruct E2 as [e ->]. exists e; reflexivity.
        -- rewrite E2. simpl. apply Hk; assumption.
    + intros E. apply afterCall_accepted in E. destruct E as (c & E1 & E).
      apply Hc in E1; [|lia]. destruct c.
      * apply Hk1 in E; [|assumption]. subst h1.
        destruct E1 as [e ->]. exists e; reflexivity.
      * rewrite E1. simpl. apply Hk; assumption.
  - destruct (Z.land tagNum bit11NonCritical =? 0); simpl; [discriminate|].
    intros E. apply Hk1 in E; [|assumption]. subst h1.
    eexists; reflexivity.
Qed.

(** When the permissive loop accepts [pre] from an unset flag, the strict
    loop on [pre ++ rest] arrives at [rest] with the flag unset if the
    permissive one saw no non-critical field, and otherwise returns an
    error with the flag set. *)
Lemma loopFrom_strict (pre : bytes) : forall rest desc resolver h1,
  loopFrom pre desc true resolver false = Some (Returns (h1, None)) ->
  if h1 then
    exists e, loopFrom (pre ++ rest) desc false resolver false
              = Some (Returns (true, Some e))
  else loopFrom (pre ++ rest) desc false resolver false
       = loopFrom rest desc false resolver false.
Proof.
  remember (length pre) as k eqn:Hk. revert pre Hk.
  induction k as [k IH] using lt_wf_ind.
  intros pre Hk rest desc resolver h1.
  destruct pre as [|x pre].
  { rewrite loopFrom_nil. intros E; inversion E; reflexivity. }
  rewrite (loopFrom_unfold (x :: pre)).
  rewrite (loopFrom_unfold ((x :: pre) ++ rest)).
  apply iteration_strict.
  - unfold len; simpl length; lia.
  - intros fb d c Hl. rewrite !RejectUnknownFields_loopFrom. intros E.
    apply (IH (length fb)) with (rest := []) in E;
      [|unfold len in Hl; lia|reflexivity].
    rewrite app_nil_r in E. exact E.
  - intros y z Hl. rewrite loopFrom_orFlag.
    destruct (loopFrom y desc true resolver false) as [[[c e]|]|];
      simpl; try discriminate.
    intros E; inversion E; reflexivity.
  - intros y z Hl. apply (IH (length y)); [unfold len in Hl; lia|].
    reflexivity.
Qed.

(** *** Failures inside a buffer *)

Lemma RejectUnknownFields_returns (bz : bytes) (desc : MessageDescriptor)
    (allow : bool) (resolver : Resolver) :
  RejectUnknownFields bz desc allow resolver <> None.
Proof.
  rewrite RejectUnknownFields_loopFrom. apply loop_fuel. lia.
Qed.

Lemma fails_error (flag : bool) (e : Error) :
  fails (Some (Returns (flag, Some e))).
Proof. left; exists flag, e; reflexivity. Qed.

Lemma fails_afterCall_k (r : result) (h : bool) (k : bool -> result) :
  r <> None -> (forall x, fails (k x)) -> fails (afterCall r h k).
Proof.
  intros Hr Hk. destruct r as [[[c [e|]]|]|]; simpl.
  - apply fails_error.
  - apply Hk.
  - right; reflexivity.
  - congruence.
Qed.

Lemma fails_afterCall (r : result) (h : bool) (k : bool -> result) :
  fails r -> fails (afterCall r h k).
Proof.
  intros [(flag & e & ->)| ->]; simpl;
    [apply fails_error|right; reflexivity].
Qed.

(** A failure at a field boundary that occurs in a buffer is a failure of
    the call on the buffer. *)
Lemma Occurs_fails (resolver : Resolver) (allow : bool)
    (desc : MessageDescriptor) (bz : bytes) (desc' : MessageDescriptor)
    (rest : bytes) :
  Occurs resolver desc bz desc' rest ->
  (forall h, fails (loopFrom rest desc' allow resolver h)) ->
  forall h, fails (loopFrom bz desc allow resolver h).
Proof.
  intros Ho Hrest.
  induction Ho as
    [ desc bz
    | desc bz tagNum wireType fieldBytes bz' desc' rest Hh _ IH
    | desc bz tagNum wireType fieldBytes bz' fd fm inner desc' rest
        Hh Hfd Hfm Hany Hc _ IH
    | desc bz tagNum wireType fieldBytes bz' fd fm inner desc' rest
        Hh Hfd Hfm Hany Hc _ IH
    | desc bz tagNum wireType fieldBytes bz' fd fm inner a d fm' desc' rest
        Hh Hfd Hfm Hany Hc Hu Hd Hfm' _ IH ];
    intros h; try (apply Hrest); specialize (IH Hrest);
    rewrite (loopFrom_headField _ _ _ _ _ _ _ _ _ Hh); cbv zeta.
  - (* a field is passed over *)
    destruct (md_ByNumber desc tagNum) as [fd|].
    + destruct (negb (isWireTypeAssignable wireType (fd_Kind fd)));
        [apply fails_error|].
      destruct (fd_Message fd) as [fm|]; [|apply IH].
      destruct (content fieldBytes) as [inner|]; [|right; reflexivity].
      destruct (String.eqb (md_FullName fm) anyFullName).
      * apply fails_afterCall_k; [apply RejectUnknownFields_returns|].
        intros x. destruct (Unmarshal _) as [a|]; [|apply fails_error].
        destruct (resolver _) as [d|]; [|apply fails_error].
        destruct (asMessageDescriptor d); [|right; reflexivity].
        apply fails_afterCall_k; [apply RejectUnknownFields_returns|].
        intros y; apply IH.
      * apply fails_afterCall_k; [apply RejectUnknownFields_returns|].
        intros y; apply IH.
    + destruct (Z.land tagNum bit11NonCritical =? 0); [apply fails_error|].
      destruct allow; simpl; [apply IH|apply fails_error].
  - (* a nested message *)
    rewrite Hfd.
    destruct (negb (isWireTypeAssignable wireType (fd_Kind fd)));
      [apply fails_error|].
    rewrite Hfm, Hc, Hany. apply fails_afterCall.
    rewrite RejectUnknownFields_loopFrom. apply IH.
  - (* the envelope of an Any *)
    rewrite Hfd.
    destruct (negb (isWireTypeAssignable wireType (fd_Kind fd)));
      [apply fails_error|].
    rewrite Hfm, Hc, Hany. apply fails_afterCall.
    rewrite RejectUnknownFields_loopFrom. apply IH.
  - (* the payload of an Any *)
    rewrite Hfd.
    destruct (negb (isWireTypeAssignable wireType (fd_Kind fd)));
      [apply fails_error|].
    rewrite Hfm, Hc, Hany.
    apply fails_afterCall_k; [apply RejectUnknownFields_returns|].
    intros x. rewrite Hu, Hd, Hfm'. apply fails_afterCall.
    rewrite RejectUnknownFields_loopFrom. apply IH.
Qed.

(** C4. A field whose number is in the descriptor of the message it occurs
    in, encoded with a wire type that is not assignable to the field's
    declared kind, makes validation fail, with non-critical unknown fields
    allowed or not and whatever bit 1024 of the number is. The field may
    occur anywhere the validator reads: after other fields, in a nested
    message, in an [Any] or in its payload. *)
Theorem wrong_wire_type_fails (resolver : Resolver)
    (desc : MessageDescriptor) (bz : bytes) (desc' : MessageDescriptor)
    (rest : bytes) (tagNum wireType m : Z) (fd : FieldDescriptor) :
  Occurs resolver desc bz desc' rest ->
  protowire.ConsumeTag rest = (tagNum, wireType, m) -> 0 <= m ->
  md_ByNumber desc' tagNum = Some fd ->
  isWireTypeAssignable wireType (fd_Kind fd) = false ->
  forall allow, fails (RejectUnknownFields bz desc allow resolver).
Proof.
  intros Ho Ht Hm Hfd Hw allow. rewrite RejectUnknownFields_loopFrom.
  apply (Occurs_fails _ _ _ _ _ _ Ho). intros h.
  rewrite loopFrom_unfold. unfold iteration.
  rewrite (ConsumeTag_nonempty _ _ _ _ Ht Hm), Ht, Hfd.
  replace (m <? 0) with false by lia. simpl.
  destruct (_ <? 0); [apply fails_error|].
  rewrite Hw. apply fails_error.
Qed.

(** C3, as amended. An unknown field whose number has bit 1024 clear
    (a critical field) makes validation fail, with non-critical unknown
    fields allowed or not, wherever the validator reads it: after other
    fields, in a nested message, in an [Any] or in its payload. *)
Theorem critical_unknown_fails (resolver : Resolver)
    (desc : MessageDescriptor) (bz : bytes) (desc' : MessageDescriptor)
    (rest : bytes) (tagNum wireType m : Z) :
  Occurs resolver desc bz desc' rest ->
  protowire.ConsumeTag rest = (tagNum, wireType, m) -> 0 <= m ->
  md_ByNumber desc' tagNum = None ->
  Z.land tagNum 1024 = 0 ->
  forall allow, fails (RejectUnknownFields bz desc allow resolver).
Proof.
  intros Ho Ht Hm Hfd Hbit allow. rewrite RejectUnknownFields_loopFrom.
  apply (Occurs_fails _ _ _ _ _ _ Ho). intros h.
  rewrite (loopFrom_unknown _ _ _ _ _ _ _ _ Ht Hm Hfd). simpl.
  rewrite bit11NonCritical_value.
  replace (Z.land tagNum 1024 =? 0) with true by lia.
  apply fails_error.
Qed.

(** The loop on a buffer that passes validation, from any flag. *)
Lemma loopFrom_accepted (bz : bytes) (desc : MessageDescriptor)
    (allow : bool) (resolver : Resolver) (h h2 : bool) :
  RejectUnknownFields bz desc allow resolver = Some (Returns (h2, None)) ->
  loopFrom bz desc allow resolver h = Some (Returns (h || h2, None)).
Proof.
  rewrite RejectUnknownFields_loopFrom, (loopFrom_orFlag bz _ _ _ h).
  intros ->. reflexivity.
Qed.

(** C2, as amended. Take a buffer [pre ++ rest] in which [pre] passes the
    permissive validator, [rest] begins with a field whose number is not in
    the descriptor and has bit 1024 set (a non-critical field) and whose
    value parses, and the bytes [post] after that field pass the permissive
    validator. Then the strict validator returns an error, and the
    permissive one returns no error and the flag set. *)
Theorem non_critical_unknown_strict_and_permissive (resolver : Resolver)
    (desc : MessageDescriptor) (pre rest : bytes) (tagNum wireType : Z)
    (fieldBytes post : bytes) (h1 h2 : bool) :
  RejectUnknownFields pre desc true resolver = Some (Returns (h1, None)) ->
  headField rest = Some (tagNum, wireType, fieldBytes, post) ->
  md_ByNumber desc tagNum = None ->
  Z.land tagNum 1024 <> 0 ->
  RejectUnknownFields post desc true resolver = Some (Returns (h2, None)) ->
  (exists e, RejectUnknownFieldsStrict (pre ++ rest) desc resolver
             = Some (Returns (Some e))) /\
  RejectUnknownFields (pre ++ rest) desc true resolver
  = Some (Returns (true, None)).
Proof.
  intros Hpre Hh Hfd Hbit Hpost.
  rewrite RejectUnknownFields_loopFrom in Hpre.
  assert (Hb : (Z.land tagNum bit11NonCritical =? 0) = false)
    by (rewrite bit11NonCritical_value; lia).
  split.
  - unfold RejectUnknownFieldsStrict. rewrite RejectUnknownFields_loopFrom.
    pose proof (loopFrom_strict pre rest desc resolver h1 Hpre) as Hs.
    destruct h1.
    + destruct Hs as [e ->]. exists e; reflexivity.
    + rewrite Hs, (loopFrom_headField _ _ _ _ _ _ _ _ _ Hh), Hfd. cbv zeta.
      rewrite Hb. eexists; reflexivity.
  - rewrite RejectUnknownFields_loopFrom.
    rewrite (loopFrom_app pre rest _ _ _ _ _ Hpre).
    rewrite (loopFrom_headField _ _ _ _ _ _ _ _ _ Hh), Hfd. cbv zeta.
    rewrite Hb. simpl.
    rewrite (loopFrom_accepted _ _ _ _ true h2 Hpost). reflexivity.
Qed.


(** C9. Every call ends: it returns its results or panics. The fuel the
    model gives the loop, one unit more than the buffer has bytes, is never
    used up, and any larger amount gives the same result. The reason is
    that each pass of the loop goes on with strictly fewer bytes than it
    started with, and that each recursive call (on the stripped bytes of a
    field, or on the payload of an [Any] decoded from them) gets strictly
    fewer bytes than the buffer of the pass that makes it. *)
Theorem RejectUnknownFields_terminates (bz : bytes)
    (desc : MessageDescriptor) (allow : bool) (resolver : Resolver) :
  (exists r, RejectUnknownFields bz desc allow resolver = Some r) /\
  (forall fuel, (length bz < fuel)%nat ->
     loop fuel bz desc allow resolver false
     = RejectUnknownFields bz desc allow resolver) /\
  (forall tagNum wireType fieldBytes bz',
     headField bz = Some (tagNum, wireType, fieldBytes, bz') ->
     len bz' < len bz /\
     (forall inner, content fieldBytes = Some inner ->
        len inner < len bz /\
        (forall a, Unmarshal inner = Some a -> len (Value a) < len bz))).
Proof.
  split; [|split].
  - destruct (RejectUnknownFields bz desc allow resolver) as [r|] eqn:E.
    + exists r; reflexivity.
    + exfalso; revert E; apply RejectUnknownFields_returns.
  - intros fuel Hf. rewrite RejectUnknownFields_loopFrom.
    unfold loopFrom. apply loop_enough; lia.
  - intros tagNum wireType fieldBytes bz' Hh.
    apply headField_shorter in Hh. destruct Hh as [Hfb Hrest].
    split; [exact Hrest|]. intros inner Hc.
    apply content_shorter in Hc.
    split; [lia|]. intros a Hu. apply Unmarshal_Value in Hu. lia.
Qed.

End ValidatorFacts.

(** *** Buffers put together, and the two modes side by side *)

Section ValidatorModes.
Context `{Reflect}.

Local Abbreviation result := (option (Run (bool * option Error))).

(** The pass of the loop at a buffer that is not empty and has no complete
    field at its head: the tag does not parse, or the value does not. *)
Lemma loopFrom_stuck (bz : bytes) (desc : MessageDescriptor) (allow : bool)
    (resolver : Resolver) (h : bool) :
  bz <> [] -> headField bz = None ->
  loopFrom bz desc allow resolver h =
  let '(tagNum, wireType, m) := protowire.ConsumeTag bz in
  if m <? 0 then Some (Returns (h, Some ErrInvalidLength))
  else
    let unknownField :=
      ErrUnknownField (md_FullName desc) tagNum (WireTypeToString wireType) in
    let consumeFieldValue :=
      ErrConsumeFieldValue tagNum (WireTypeToString wireType)
        (protowire.ConsumeFieldValue tagNum wireType (from m bz)) in
    match md_ByNumber desc tagNum with
    | None =>
        if Z.land tagNum bit11NonCritical =? 0 then
          Some (Returns (h, Some unknownField))
        else if negb allow then Some (Returns (true, Some unknownField))
        else Some (Returns (true, Some consumeFieldValue))
    | Some _ => Some (Returns (h, Some consumeFieldValue))
    end.
Proof.
  intros Hne Hh. rewrite loopFrom_unfold. unfold iteration.
  assert (Hl : negb (0 <? len bz) = false).
  { destruct bz as [|x bz0]; [congruence|].
    replace (0 <? len (x :: bz0)) with true; [reflexivity|].
    symmetry; apply Z.ltb_lt. unfold len; simpl length; lia. }
  rewrite Hl. unfold headField in Hh.
  destruct (protowire.ConsumeTag bz) as [[tagNum wireType] m].
  destruct (m <? 0); [reflexivity|].
  destruct (protowire.ConsumeFieldValue tagNum wireType (from m bz) <? 0)
    eqn:Hn; [|discriminate].
  destruct (md_ByNumber desc tagNum) as [fd|]; simpl; [reflexivity|].
  destruct (Z.land tagNum bit11NonCritical =? 0); simpl; [reflexivity|].
  destruct allow; reflexivity.
Qed.

(** X1. Two buffers put end to end. When the call accepts [pre], with the
    flag [h1], the call on [pre ++ rest] ends as the call on [rest] does,
    with [h1] joined to the flag returned: the same error or panic when
    [rest] is rejected, and no error, with the disjunction of the two
    flags, when [rest] is accepted. *)
Theorem RejectUnknownFields_concat (pre rest : bytes)
    (desc : MessageDescriptor) (allow : bool) (resolver : Resolver)
    (h1 : bool) :
  RejectUnknownFields pre desc allow resolver = Some (Returns (h1, None)) ->
  RejectUnknownFields (pre ++ rest) desc allow resolver
  = orFlag h1 (RejectUnknownFields rest desc allow resolver).
Proof.
  rewrite !RejectUnknownFields_loopFrom. intros Hpre.
  rewrite (loopFrom_app pre rest _ _ _ _ _ Hpre). apply loopFrom_orFlag.
Qed.

(** [strictOf rP rS]: what the call with non-critical unknown fields
    disallowed returns, [rS], when the call on the same arguments with them
    allowed returns [rP]. *)
Definition strictOf (rP rS : result) : Prop :=
  match rP with
  | Some (Returns (false, e)) => rS = Some (Returns (false, e))
  | Some (Returns (true, _)) => exists e', rS = Some (Returns (true, Some e'))
  | Some Panics =>
      rS = Some Panics \/ exists e', rS = Some (Returns (true, Some e'))
  | None => True
  end.

Lemma strictOf_seen (r : result) (e' : Error) :
  strictOf (orFlag true r) (Some (Returns (true, Some e'))).
Proof. destruct r as [[[c e]|]|]; simpl; eauto. Qed.

Lemma strictOf_afterCall (rP rS : result) (kP kS : bool -> result) :
  strictOf rP rS ->
  (forall x, kP x = orFlag x (kP false)) ->
  strictOf (kP false) (kS false) ->
  strictOf (afterCall rP false kP) (afterCall rS false kS).
Proof.
  intros Hr Hk Hn. destruct rP as [[[[|] [e|]]|]|]; simpl in Hr |- *.
  - destruct Hr as [e' ->]. simpl. eauto.
  - destruct Hr as [e' ->]. simpl. rewrite Hk. apply strictOf_seen.
  - rewrite Hr. reflexivity.
  - rewrite Hr. exact Hn.
  - destruct Hr as [->|[e' ->]]; simpl; eauto.
  - exact I.
Qed.

Lemma modes_side_by_side (bz : bytes) : forall desc resolver,
  strictOf (loopFrom bz desc true resolver false)
           (loopFrom bz desc false resolver false).
Proof.
  remember (length bz) as k eqn:Hk. revert bz Hk.
  induction k as [k IH] using lt_wf_ind. intros bz Hk desc resolver.
  assert (IHl : forall fb d, len fb < len bz ->
            strictOf (RejectUnknownFields fb d true resolver)
                     (RejectUnknownFields fb d false resolver)).
  { intros fb d Hl. rewrite !RejectUnknownFields_loopFrom.
    apply (IH (length fb)); [unfold len in Hl; lia|reflexivity]. }
  assert (IHn : forall bz', len bz' < len bz ->
            strictOf (loopFrom bz' desc true resolver false)
                     (loopFrom bz' desc false resolver false)).
  { intros bz' Hl.
    apply (IH (length bz')); [unfold len in Hl; lia|reflexivity]. }
  clear IH.
  destruct bz as [|x bz0]; [reflexivity|].
  remember (x :: bz0) as b eqn:Hb.
  destruct (headField b) as [[[[tagNum wireType] fieldBytes] bz']|] eqn:Hh.
  - rewrite !(loopFrom_headField _ _ _ _ _ _ _ _ _ Hh). cbv zeta.
    destruct (headField_shorter _ _ _ _ _ Hh) as [Hfb Hrest].
    destruct (md_ByNumber desc tagNum) as [fd|].
    + destruct (negb (isWireTypeAssignable wireType (fd_Kind fd)));
        [reflexivity|].
      destruct (fd_Message fd) as [fm|]; [|apply IHn; assumption].
      destruct (content fieldBytes) as [inner|] eqn:Hc; [|left; reflexivity].
      apply content_shorter in Hc.
      destruct (String.eqb (md_FullName fm) anyFullName).
      * apply strictOf_afterCall; [apply IHl; lia| |].
        -- intros y. destruct (Unmarshal inner) as [a|];
             [|simpl; rewrite orb_false_r; reflexivity].
           destruct (resolver _) as [d|];
             [|simpl; rewrite orb_false_r; reflexivity].
           destruct (asMessageDescriptor d); [|reflexivity].
           apply afterCall_orFlag. intros z. apply loopFrom_orFlag.
        -- destruct (Unmarshal inner) as [a|] eqn:Hu; [|reflexivity].
           apply Unmarshal_Value in Hu.
           destruct (resolver _) as [d|]; [|reflexivity].
           destruct (asMessageDescriptor d); [|left; reflexivity].
           apply strictOf_afterCall; [apply IHl; lia| |apply IHn; assumption].
           intros z. apply loopFrom_orFlag.
      * apply strictOf_afterCall; [apply IHl; lia| |apply IHn; assumption].
        intros z. apply loopFrom_orFlag.
    + destruct (Z.land tagNum bit11NonCritical =? 0); [reflexivity|].
      simpl. rewrite loopFrom_orFlag. apply strictOf_seen.
  - assert (Hne : b <> []) by (subst b; discriminate).
    rewrite !(loopFrom_stuck _ _ _ _ _ Hne Hh).
    destruct (protowire.ConsumeTag b) as [[tagNum wireType] m].
    destruct (m <? 0); [reflexivity|]. cbv zeta.
    destruct (md_ByNumber desc tagNum); [reflexivity|].
    destruct (Z.land tagNum bit11NonCritical =? 0); [reflexivity|].
    simpl. eauto.
Qed.

(** X2. [RejectUnknownFieldsStrict] returns no error exactly when
    [RejectUnknownFields] with non-critical unknown fields allowed returns
    no error and the flag unset: the strict validator accepts the buffers
    the permissive one accepts without having seen a non-critical unknown
    field, and no others. *)
Theorem strict_accepts_iff_permissive_sees_nothing (bz : bytes)
    (msg : MessageDescriptor) (resolver : Resolver) :
  RejectUnknownFieldsStrict bz msg resolver = Some (Returns None) <->
  RejectUnknownFields bz msg true resolver = Some (Returns (false, None)).
Proof.
  unfold RejectUnknownFieldsStrict.
  pose proof (modes_side_by_side bz msg resolver) as Hs.
  rewrite <- !RejectUnknownFields_loopFrom in Hs.
  pose proof (RejectUnknownFields_returns bz msg true resolver) as Hr.
  split.
  - intros E.
    destruct (RejectUnknownFields bz msg true resolver)
      as [[[[|] e]|]|]; simpl in Hs; try congruence.
    + destruct Hs as [e' Hs]. rewrite Hs in E. discriminate.
    + rewrite Hs in E. inversion E; reflexivity.
    + destruct Hs as [Hs|[e' Hs]]; rewrite Hs in E; discriminate.
  - intros E. rewrite E in Hs. simpl in Hs. rewrite Hs. reflexivity.
Qed.

(** X3. The two modes differ only where a non-critical unknown field is
    seen. A result with the flag unset, with an error or without, is what
    the call returns with non-critical unknown fields disallowed exactly
    when it is what the call returns with them allowed. *)
Theorem modes_agree_when_flag_unset (bz : bytes) (desc : MessageDescriptor)
    (resolver : Resolver) (e : option Error) :
  RejectUnknownFields bz desc false resolver = Some (Returns (false, e)) <->
  RejectUnknownFields bz desc true resolver = Some (Returns (false, e)).
Proof.
  pose proof (modes_side_by_side bz desc resolver) as Hs.
  rewrite <- !RejectUnknownFields_loopFrom in Hs.
  pose proof (RejectUnknownFields_returns bz desc true resolver) as Hr.
  split.
  - intros E.
    destruct (RejectUnknownFields bz desc true resolver)
      as [[[[|] e0]|]|]; simpl in Hs; try congruence.
    + destruct Hs as [e' Hs]. rewrite Hs in E. discriminate.
    + destruct Hs as [Hs|[e' Hs]]; rewrite Hs in E; discriminate.
  - intros E. rewrite E in Hs. exact Hs.
Qed.

End ValidatorModes.

(** *** What a result says about the buffer *)

Section ValidatorPlaces.
Context `{Reflect}.

Local Abbreviation result := (option (Run (bool * option Error))).

(** [Somewhere resolver Q desc bz]: reading [bz] as a [desc] the validator
    comes to a field boundary, inside a message of some type [desc'] and
    with [rest] the bytes from there on, at which [Q desc' rest] holds. *)
Definition Somewhere (resolver : Resolver)
    (Q : MessageDescriptor -> bytes -> Prop)
    (desc : MessageDescriptor) (bz : bytes) : Prop :=
  exists desc' rest, Occurs resolver desc bz desc' rest /\ Q desc' rest.

Lemma Somewhere_here (resolver : Resolver)
    (Q : MessageDescriptor -> bytes -> Prop) desc bz :
  Q desc bz -> Somewhere resolver Q desc bz.
Proof. intros HQ. exists desc, bz. split; [apply Occurs_here|exact HQ]. Qed.

Lemma Somewhere_after (resolver : Resolver)
    (Q : MessageDescriptor -> bytes -> Prop) desc bz tagNum wireType
    fieldBytes bz' :
  headField bz = Some (tagNum, wireType, fieldBytes, bz') ->
  Somewhere resolver Q desc bz' -> Somewhere resolver Q desc bz.
Proof.
  intros Hh (desc' & rest & Ho & HQ). exists desc', rest.
  split; [eapply Occurs_after; eassumption|exact HQ].
Qed.

Lemma Somewhere_message (resolver : Resolver)
    (Q : MessageDescriptor -> bytes -> Prop) desc bz tagNum wireType
    fieldBytes bz' fd fm inner :
  headField bz = Some (tagNum, wireType, fieldBytes, bz') ->
  md_ByNumber desc tagNum = Some fd -> fd_Message fd = Some fm ->
  String.eqb (md_FullName fm) anyFullName = false ->
  content fieldBytes = Some inner ->
  Somewhere resolver Q fm inner -> Somewhere resolver Q desc bz.
Proof.
  intros Hh Hfd Hfm Hany Hc (desc' & rest & Ho & HQ). exists desc', rest.
  split; [eapply Occurs_message; eassumption|exact HQ].
Qed.

Lemma Somewhere_envelope (resolver : Resolver)
    (Q : MessageDescriptor -> bytes -> Prop) desc bz tagNum wireType
    fieldBytes bz' fd fm inner :
  headField bz = Some (tagNum, wireType, fieldBytes, bz') ->
  md_ByNumber desc tagNum = Some fd -> fd_Message fd = Some fm ->
  String.eqb (md_FullName fm) anyFullName = true ->
  content fieldBytes = Some inner ->
  Somewhere resolver Q anyDesc inner -> Somewhere resolver Q desc bz.
Proof.
  intros Hh Hfd Hfm Hany Hc (desc' & rest & Ho & HQ). exists desc', rest.
  split; [eapply Occurs_envelope; eassumption|exact HQ].
Qed.

Lemma Somewhere_payload (resolver : Resolver)
    (Q : MessageDescriptor -> bytes -> Prop) desc bz tagNum wireType
    fieldBytes bz' fd fm inner a d fm' :
  headField bz = Some (tagNum, wireType, fieldBytes, bz') ->
  md_ByNumber desc tagNum = Some fd -> fd_Message fd = Some fm ->
  String.eqb (md_FullName fm) anyFullName = true ->
  content fieldBytes = Some inner ->
  Unmarshal inner = Some a ->
  resolver (MessageNameFromTypeURL (TypeUrl a)) = Some d ->
  asMessageDescriptor d = Some fm' ->
  Somewhere resolver Q fm' (Value a) -> Somewhere resolver Q desc bz.
Proof.
  intros Hh Hfd Hfm Hany Hc Hu Hd Hfm' (desc' & rest & Ho & HQ).
  exists desc', rest.
  split; [eapply Occurs_payload; eassumption|exact HQ].
Qed.

(** **** The flag *)

(** A field boundary at which an unknown field with bit 1024 set begins. *)
Definition nonCriticalUnknown (desc' : MessageDescriptor) (rest : bytes)
  : Prop :=
  exists tagNum wireType m,
    protowire.ConsumeTag rest = (tagNum, wireType, m) /\ 0 <= m /\
    md_ByNumber desc' tagNum = None /\
    Z.land tagNum bit11NonCritical <> 0.

Lemma afterCall_true (r : result) (k : bool -> result) (e : option Error) :
  afterCall r false k = Some (Returns (true, e)) ->
  (exists e', r = Some (Returns (true, e'))) \/
  (r = Some (Returns (false, None)) /\ k false = Some (Returns (true, e))).
Proof.
  destruct r as [[[[|] [err|]]|]|]; simpl; try discriminate; eauto.
Qed.

Lemma loopFrom_flag_cause (bz : bytes) : forall desc allow resolver e,
  loopFrom bz desc allow resolver false = Some (Returns (true, e)) ->
  Somewhere resolver nonCriticalUnknown desc bz.
Proof.
  remember (length bz) as k eqn:Hk. revert bz Hk.
  induction k as [k IH] using lt_wf_ind. intros bz Hk desc allow resolver e.
  assert (IHl : forall fb d e', len fb < len bz ->
            RejectUnknownFields fb d allow resolver
            = Some (Returns (true, e')) ->
            Somewhere resolver nonCriticalUnknown d fb).
  { intros fb d e' Hl. rewrite RejectUnknownFields_loopFrom.
    apply (IH (length fb)); [unfold len in Hl; lia|reflexivity]. }
  assert (IHn : forall bz' e', len bz' < len bz ->
            loopFrom bz' desc allow resolver false
            = Some (Returns (true, e')) ->
            Somewhere resolver nonCriticalUnknown desc bz').
  { intros bz' e' Hl.
    apply (IH (length bz')); [unfold len in Hl; lia|reflexivity]. }
  clear IH.
  destruct bz as [|x bz0]; [discriminate|].
  remember (x :: bz0) as b eqn:Hb.
  destruct (headField b) as [[[[tagNum wireType] fieldBytes] bz']|] eqn:Hh.
  - rewrite (loopFrom_headField _ _ _ _ _ _ _ _ _ Hh). cbv zeta.
    destruct (headField_shorter _ _ _ _ _ Hh) as [Hfb Hrest].
    destruct (md_ByNumber desc tagNum) as [fd|] eqn:Hfd.
    + destruct (negb (isWireTypeAssignable wireType (fd_Kind fd)));
        [discriminate|].
      destruct (fd_Message fd) as [fm|] eqn:Hfm.
      2:{ intros E. eapply Somewhere_after; [eassumption|].
          eapply IHn; eassumption. }
      destruct (content fieldBytes) as [inner|] eqn:Hc; [|discriminate].
      pose proof (content_shorter _ _ Hc) as Hin.
      destruct (String.eqb (md_FullName fm) anyFullName) eqn:Hany.
      * intros E. apply afterCall_true in E.
        destruct E as [[e' E]|[_ E]].
        { eapply Somewhere_envelope; try eassumption.
          eapply IHl; [lia|eassumption]. }
        destruct (Unmarshal inner) as [a|] eqn:Hu; [|discriminate].
        pose proof (Unmarshal_Value _ _ Hu) as Hv.
        destruct (resolver _) as [d|] eqn:Hd; [|discriminate].
        destruct (asMessageDescriptor d) as [fm'|] eqn:Hfm'; [|discriminate].
        apply afterCall_true in E.
        destruct E as [[e' E]|[_ E]].
        { eapply Somewhere_payload; try eassumption.
          eapply IHl; [lia|eassumption]. }
        eapply Somewhere_after; [eassumption|]. eapply IHn; eassumption.
      * intros E. apply afterCall_true in E.
        destruct E as [[e' E]|[_ E]].
        { eapply Somewhere_message; try eassumption.
          eapply IHl; [lia|eassumption]. }
        eapply Somewhere_after; [eassumption|]. eapply IHn; eassumption.
    + destruct (Z.land tagNum bit11NonCritical =? 0) eqn:Hbit;
        [discriminate|].
      intros _. apply Somewhere_here.
      apply headField_tag in Hh. destruct Hh as (m & Ht & Hm & _).
      exists tagNum, wireType, m. repeat split; try assumption. lia.
  - assert (Hne : b <> []) by (subst b; discriminate).
    rewrite (loopFrom_stuck _ _ _ _ _ Hne Hh).
    destruct (protowire.ConsumeTag b) as [[tagNum wireType] m] eqn:Ht.
    destruct (m <? 0) eqn:Hm; [discriminate|]. cbv zeta.
    destruct (md_ByNumber desc tagNum) eqn:Hfd; [discriminate|].
    destruct (Z.land tagNum bit11NonCritical =? 0) eqn:Hbit; [discriminate|].
    intros _. apply Somewhere_here.
    exists tagNum, wireType, m. repeat split; try assumption; lia.
Qed.

(** X4. The flag is not set without a cause. When the call returns the flag
    set, with an error or without and in either mode, then somewhere the
    validator reads (after other fields, in a nested message, in an [Any]
    or in its payload) a field begins whose number is not in the descriptor
    of the message around it and has bit 1024 set. *)
Theorem flag_has_a_cause (bz : bytes) (desc : MessageDescriptor)
    (allow : bool) (resolver : Resolver) (e : option Error) :
  RejectUnknownFields bz desc allow resolver = Some (Returns (true, e)) ->
  exists desc' rest tagNum wireType m,
    Occurs resolver desc bz desc' rest /\
    protowire.ConsumeTag rest = (tagNum, wireType, m) /\ 0 <= m /\
    md_ByNumber desc' tagNum = None /\ Z.land tagNum 1024 <> 0.
Proof.
  rewrite RejectUnknownFields_loopFrom. intros E.
  apply loopFrom_flag_cause in E.
  destruct E as (desc' & rest & Ho & tagNum & wireType & m & Ht & Hm & Hfd & Hb).
  exists desc', rest, tagNum, wireType, m. repeat split; assumption.
Qed.

Lemma loopFrom_from_true (bz : bytes) (desc : MessageDescriptor)
    (allow : bool) (resolver : Resolver) (flag : bool) (e : option Error) :
  loopFrom bz desc allow resolver true = Some (Returns (flag, e)) ->
  flag = true.
Proof.
  rewrite loopFrom_orFlag.
  destruct (loopFrom bz desc allow resolver false) as [[[c e']|]|];
    simpl; try discriminate.
  intros E; inversion E; reflexivity.
Qed.

Lemma Occurs_flag (resolver : Resolver) (allow : bool)
    (desc : MessageDescriptor) (bz : bytes) (desc' : MessageDescriptor)
    (rest : bytes) :
  Occurs resolver desc bz desc' rest ->
  (forall h flag, loopFrom rest desc' allow resolver h
                  = Some (Returns (flag, None)) -> flag = true) ->
  forall h flag, loopFrom bz desc allow resolver h
                 = Some (Returns (flag, None)) -> flag = true.
Proof.
  intros Ho Hrest.
  induction Ho as
    [ desc bz
    | desc bz tagNum wireType fieldBytes bz' desc' rest Hh _ IH
    | desc bz tagNum wireType fieldBytes bz' fd fm inner desc' rest
        Hh Hfd Hfm Hany Hc _ IH
    | desc bz tagNum wireType fieldBytes bz' fd fm inner desc' rest
        Hh Hfd Hfm Hany Hc _ IH
    | desc bz tagNum wireType fieldBytes bz' fd fm inner a d fm' desc' rest
        Hh Hfd Hfm Hany Hc Hu Hd Hfm' _ IH ];
    intros h flag; try (apply Hrest); specialize (IH Hrest);
    rewrite (loopFrom_headField _ _ _ _ _ _ _ _ _ Hh); cbv zeta.
  - (* a field is passed over *)
    destruct (md_ByNumber desc tagNum) as [fd|].
    + destruct (negb (isWireTypeAssignable wireType (fd_Kind fd)));
        [discriminate|].
      destruct (fd_Message fd) as [fm|]; [|apply IH].
      destruct (content fieldBytes) as [inner|]; [|discriminate].
      destruct (String.eqb (md_FullName fm) anyFullName).
      * intros E. apply afterCall_accepted in E. destruct E as (c & _ & E).
        destruct (Unmarshal _) as [a|]; [|discriminate].
        destruct (resolver _) as [d|]; [|discriminate].
        destruct (asMessageDescriptor d); [|discriminate].
        apply afterCall_accepted in E. destruct E as (c' & _ & E).
        eapply IH; eassumption.
      * intros E. apply afterCall_accepted in E. destruct E as (c & _ & E).
        eapply IH; eassumption.
    + destruct (Z.land tagNum bit11NonCritical =? 0); [discriminate|].
      destruct (negb allow); [discriminate|apply IH].
  - (* a nested message *)
    rewrite Hfd.
    destruct (negb (isWireTypeAssignable wireType (fd_Kind fd)));
      [discriminate|].
    rewrite Hfm, Hc, Hany. intros E.
    apply afterCall_accepted in E. destruct E as (c & E1 & E).
    rewrite RejectUnknownFields_loopFrom in E1. apply IH in E1. subst c.
    rewrite orb_true_r in E. eapply loopFrom_from_true; eassumption.
  - (* the envelope of an Any *)
    rewrite Hfd.
    destruct (negb (isWireTypeAssignable wireType (fd_Kind fd)));
      [discriminate|].
    rewrite Hfm, Hc, Hany. intros E.
    apply afterCall_accepted in E. destruct E as (c & E1 & E).
    rewrite RejectUnknownFields_loopFrom in E1. apply IH in E1. subst c.
    rewrite orb_true_r in E.
    destruct (Unmarshal _) as [a|]; [|discriminate].
    destruct (resolver _) as [d|]; [|discriminate].
    destruct (asMessageDescriptor d); [|discriminate].
    apply afterCall_accepted in E. destruct E as (c' & _ & E).
    simpl in E. eapply loopFrom_from_true; eassumption.
  - (* the payload of an Any *)
    rewrite Hfd.
    destruct (negb (isWireTypeAssignable wireType (fd_Kind fd)));
      [discriminate|].
    rewrite Hfm, Hc, Hany. intros E.
    apply afterCall_accepted in E. destruct E as (c & _ & E).
    rewrite Hu, Hd, Hfm' in E.
    apply afterCall_accepted in E. destruct E as (c' & E1 & E).
    rewrite RejectUnknownFields_loopFrom in E1. apply IH in E1. subst c'.
    rewrite orb_true_r in E. eapply loopFrom_from_true; eassumption.
Qed.

(** X5. A buffer that the call accepts and that holds, anywhere the
    validator reads, a field whose number is not in the descriptor of the
    message around it and has bit 1024 set, is accepted with the flag
    set. *)
Theorem accepted_non_critical_sets_flag (resolver : Resolver)
    (desc : MessageDescriptor) (bz : bytes) (desc' : MessageDescriptor)
    (rest : bytes) (tagNum wireType m : Z) (allow flag : bool) :
  Occurs resolver desc bz desc' rest ->
  protowire.ConsumeTag rest = (tagNum, wireType, m) -> 0 <= m ->
  md_ByNumber desc' tagNum = None ->
  Z.land tagNum 1024 <> 0 ->
  RejectUnknownFields bz desc allow resolver = Some (Returns (flag, None)) ->
  flag = true.
Proof.
  intros Ho Ht Hm Hfd Hbit. rewrite RejectUnknownFields_loopFrom.
  apply (Occurs_flag _ _ _ _ _ _ Ho). intros h flag'.
  rewrite (loopFrom_unknown _ _ _ _ _ _ _ _ Ht Hm Hfd). cbv zeta.
  rewrite bit11NonCritical_value.
  replace (Z.land tagNum 1024 =? 0) with false by lia.
  destruct (negb allow); [discriminate|].
  destruct (_ <? 0); [discriminate|]. apply loopFrom_from_true.
Qed.

(** X6. What acceptance guarantees. In a buffer that the call accepts, at
    every field boundary the validator comes to, at any depth, either no
    bytes are left or a complete field follows (its tag and its value
    parse) whose number is in the descriptor of the message around it with
    a wire type assignable to the field's kind, or is not in the
    descriptor, has bit 1024 set and non-critical unknown fields are
    allowed. *)
Theorem accepted_buffer_is_well_formed (resolver : Resolver)
    (desc : MessageDescriptor) (bz : bytes) (allow flag : bool)
    (desc' : MessageDescriptor) (rest : bytes) :
  RejectUnknownFields bz desc allow resolver = Some (Returns (flag, None)) ->
  Occurs resolver desc bz desc' rest ->
  rest = [] \/
  exists tagNum wireType fieldBytes rest',
    headField rest = Some (tagNum, wireType, fieldBytes, rest') /\
    match md_ByNumber desc' tagNum with
    | Some fd => isWireTypeAssignable wireType (fd_Kind fd) = true
    | None => allow = true /\ Z.land tagNum 1024 <> 0
    end.
Proof.
  intros Hacc Ho. rewrite RejectUnknownFields_loopFrom in Hacc.
  assert (Hnot : ~ forall h, fails (loopFrom rest desc' allow resolver h)).
  { intros Hf. pose proof (Occurs_fails _ _ _ _ _ _ Ho Hf false) as Hb.
    rewrite Hacc in Hb. destruct Hb as [(f & e & Hb)|Hb]; discriminate. }
  destruct rest as [|x rest0]; [left; reflexivity|]. right.
  remember (x :: rest0) as b eqn:Hb.
  destruct (headField b) as [[[[tagNum wireType] fieldBytes] rest']|] eqn:Hh.
  - exists tagNum, wireType, fieldBytes, rest'. split; [reflexivity|].
    destruct (md_ByNumber desc' tagNum) as [fd|] eqn:Hfd.
    + destruct (isWireTypeAssignable wireType (fd_Kind fd)) eqn:Hw;
        [reflexivity|].
      exfalso; apply Hnot; intros h.
      rewrite (loopFrom_headField _ _ _ _ _ _ _ _ _ Hh), Hfd. cbv zeta.
      rewrite Hw. apply fails_error.
    + rewrite <- bit11NonCritical_value.
      destruct (Z.land tagNum bit11NonCritical =? 0) eqn:Hbit.
      * exfalso; apply Hnot; intros h.
        rewrite (loopFrom_headField _ _ _ _ _ _ _ _ _ Hh), Hfd. cbv zeta.
        rewrite Hbit. apply fails_error.
      * destruct allow; [split; [reflexivity|lia]|].
        exfalso; apply Hnot; intros h.
        rewrite (loopFrom_headField _ _ _ _ _ _ _ _ _ Hh), Hfd. cbv zeta.
        rewrite Hbit. apply fails_error.
  - exfalso; apply Hnot; intros h.
    assert (Hne : b <> []) by (subst b; discriminate).
    rewrite (loopFrom_stuck _ _ _ _ _ Hne Hh).
    destruct (protowire.ConsumeTag b) as [[tagNum wireType] m].
    destruct (m <? 0); [apply fails_error|]. cbv zeta.
    destruct (md_ByNumber desc' tagNum); [apply fails_error|].
    destruct (Z.land tagNum bit11NonCritical =? 0); [apply fails_error|].
    destruct (negb allow); apply fails_error.
Qed.

End ValidatorPlaces.

(** **** Where a failure comes from *)

Section ValidatorFailures.
Context `{Reflect}.

Local Abbreviation result := (option (Run (bool * option Error))).

(** [Stops allow resolver desc rest o]: the pass of the loop that starts at
    the bytes [rest] of a message of type [desc] ends the call by itself,
    with the error or the panic [o], and not through a recursive call.
    There is one rule for each [return] with an error and each panic of
    the loop body, with the tests that lead to it. *)
Inductive Stops (allow : bool) (resolver : Resolver)
  : MessageDescriptor -> bytes -> Run Error -> Prop :=
| Stops_tag desc rest tagNum wireType m :
    rest <> [] ->
    protowire.ConsumeTag rest = (tagNum, wireType, m) -> m < 0 ->
    Stops allow resolver desc rest (Returns ErrInvalidLength)
| Stops_unknown desc rest tagNum wireType m :
    protowire.ConsumeTag rest = (tagNum, wireType, m) -> 0 <= m ->
    md_ByNumber desc tagNum = None ->
    Z.land tagNum bit11NonCritical = 0 \/ allow = false ->
    Stops allow resolver desc rest
      (Returns (ErrUnknownField (md_FullName desc) tagNum
                                (WireTypeToString wireType)))
| Stops_value desc rest tagNum wireType m :
    protowire.ConsumeTag rest = (tagNum, wireType, m) -> 0 <= m ->
    md_ByNumber desc tagNum <> None \/
    (Z.land tagNum bit11NonCritical <> 0 /\ allow = true) ->
    protowire.ConsumeFieldValue tagNum wireType (from m rest) < 0 ->
    Stops allow resolver desc rest
      (Returns (ErrConsumeFieldValue tagNum (WireTypeToString wireType)
                  (protowire.ConsumeFieldValue tagNum wireType (from m rest))))
| Stops_wire desc rest tagNum wireType fieldBytes rest' fd :
    headField rest = Some (tagNum, wireType, fieldBytes, rest') ->
    md_ByNumber desc tagNum = Some fd ->
    isWireTypeAssignable wireType (fd_Kind fd) = false ->
    Stops allow resolver desc rest
      (Returns (ErrInvalidWireType (WireTypeToString wireType)
                                   (fd_FullName fd)))
| Stops_prefix desc rest tagNum wireType fieldBytes rest' fd fm :
    headField rest = Some (tagNum, wireType, fieldBytes, rest') ->
    md_ByNumber desc tagNum = Some fd ->
    isWireTypeAssignable wireType (fd_Kind fd) = true ->
    fd_Message fd = Some fm ->
    content fieldBytes = None ->
    Stops allow resolver desc rest Panics
| Stops_unmarshal desc rest tagNum wireType fieldBytes rest' fd fm inner c :
    headField rest = Some (tagNum, wireType, fieldBytes, rest') ->
    md_ByNumber desc tagNum = Some fd ->
    isWireTypeAssignable wireType (fd_Kind fd) = true ->
    fd_Message fd = Some fm ->
    String.eqb (md_FullName fm) anyFullName = true ->
    content fieldBytes = Some inner ->
    RejectUnknownFields inner anyDesc allow resolver
    = Some (Returns (c, None)) ->
    Unmarshal inner = None ->
    Stops allow resolver desc rest (Returns ErrUnmarshal)
| Stops_resolve desc rest tagNum wireType fieldBytes rest' fd fm inner c a :
    headField rest = Some (tagNum, wireType, fieldBytes, rest') ->
    md_ByNumber desc tagNum = Some fd ->
    isWireTypeAssignable wireType (fd_Kind fd) = true ->
    fd_Message fd = Some fm ->
    String.eqb (md_FullName fm) anyFullName = true ->
    content fieldBytes = Some inner ->
    RejectUnknownFields inner anyDesc allow resolver
    = Some (Returns (c, None)) ->
    Unmarshal inner = Some a ->
    resolver (MessageNameFromTypeURL (TypeUrl a)) = None ->
    Stops allow resolver desc rest
      (Returns (ErrNotFound (MessageNameFromTypeURL (TypeUrl a))))
| Stops_assertion desc rest tagNum wireType fieldBytes rest' fd fm inner c a
    d :
    headField rest = Some (tagNum, wireType, fieldBytes, rest') ->
    md_ByNumber desc tagNum = Some fd ->
    isWireTypeAssignable wireType (fd_Kind fd) = true ->
    fd_Message fd = Some fm ->
    String.eqb (md_FullName fm) anyFullName = true ->
    content fieldBytes = Some inner ->
    RejectUnknownFields inner anyDesc allow resolver
    = Some (Returns (c, None)) ->
    Unmarshal inner = Some a ->
    resolver (MessageNameFromTypeURL (TypeUrl a)) = Some d ->
    asMessageDescriptor d = None ->
    Stops allow resolver desc rest Panics.

(** [ends r o]: the call ends with the error or the panic [o]. *)
Definition ends (r : result) (o : Run Error) : Prop :=
  match r with
  | Some (Returns (_, Some e)) => o = Returns e
  | Some Panics => o = Panics
  | _ => False
  end.

Lemma afterCall_ends (r : result) (h : bool) (k : bool -> result)
    (o : Run Error) :
  ends (afterCall r h k) o ->
  ends r o \/ exists c, r = Some (Returns (c, None)) /\ ends (k (h || c)) o.
Proof.
  destruct r as [[[c [e|]]|]|]; simpl; eauto.
Qed.

(** A call that ends with an error or a panic does so at a pass that
    stops, somewhere in the buffer. *)
Lemma loopFrom_ends (bz : bytes) : forall desc allow resolver h o,
  ends (loopFrom bz desc allow resolver h) o ->
  Somewhere resolver (fun desc' rest => Stops allow resolver desc' rest o)
    desc bz.
Proof.
  remember (length bz) as k eqn:Hk. revert bz Hk.
  induction k as [k IH] using lt_wf_ind.
  intros bz Hk desc allow resolver h o.
  set (Q := fun desc' rest => Stops allow resolver desc' rest o).
  assert (IHl : forall fb d, len fb < len bz ->
            ends (RejectUnknownFields fb d allow resolver) o ->
            Somewhere resolver Q d fb).
  { intros fb d Hl. rewrite RejectUnknownFields_loopFrom.
    apply (IH (length fb)); [unfold len in Hl; lia|reflexivity]. }
  assert (IHn : forall bz' h', len bz' < len bz ->
            ends (loopFrom bz' desc allow resolver h') o ->
            Somewhere resolver Q desc bz').
  { intros bz' h' Hl.
    apply (IH (length bz')); [unfold len in Hl; lia|reflexivity]. }
  clear IH.
  destruct bz as [|x bz0]; [intros []|].
  remember (x :: bz0) as b eqn:Hb.
  assert (Hne : b <> []) by (subst b; discriminate).
  destruct (headField b) as [[[[tagNum wireType] fieldBytes] bz']|] eqn:Hh.
  - rewrite (loopFrom_headField _ _ _ _ _ _ _ _ _ Hh). cbv zeta.
    destruct (headField_shorter _ _ _ _ _ Hh) as [Hfb Hrest].
    destruct (headField_tag _ _ _ _ _ Hh) as (m & Ht & Hm & _).
    destruct (md_ByNumber desc tagNum) as [fd|] eqn:Hfd.
    + destruct (isWireTypeAssignable wireType (fd_Kind fd)) eqn:Hw; simpl.
      2:{ intros ->. apply Somewhere_here. eapply Stops_wire; eassumption. }
      destruct (fd_Message fd) as [fm|] eqn:Hfm.
      2:{ intros E. eapply Somewhere_after; [eassumption|].
          eapply IHn; eassumption. }
      destruct (content fieldBytes) as [inner|] eqn:Hc.
      2:{ intros ->. apply Somewhere_here. eapply Stops_prefix; eassumption. }
      pose proof (content_shorter _ _ Hc) as Hin.
      destruct (String.eqb (md_FullName fm) anyFullName) eqn:Hany.
      * intros E. apply afterCall_ends in E.
        destruct E as [E|(c & Henv & E)].
        { eapply Somewhere_envelope; try eassumption.
          eapply IHl; [lia|eassumption]. }
        destruct (Unmarshal inner) as [a|] eqn:Hu.
        2:{ simpl in E. subst o. apply Somewhere_here.
            eapply Stops_unmarshal; eassumption. }
        pose proof (Unmarshal_Value _ _ Hu) as Hv.
        destruct (resolver _) as [d|] eqn:Hd.
        2:{ simpl in E. subst o. apply Somewhere_here.
            eapply Stops_resolve; eassumption. }
        destruct (asMessageDescriptor d) as [fm'|] eqn:Hfm'.
        2:{ simpl in E. subst o. apply Somewhere_here.
            eapply Stops_assertion; eassumption. }
        apply afterCall_ends in E.
        destruct E as [E|(c' & _ & E)].
        { eapply Somewhere_payload; try eassumption.
          eapply IHl; [lia|eassumption]. }
        eapply Somewhere_after; [eassumption|]. eapply IHn; eassumption.
      * intros E. apply afterCall_ends in E.
        destruct E as [E|(c & _ & E)].
        { eapply Somewhere_message; try eassumption.
          eapply IHl; [lia|eassumption]. }
        eapply Somewhere_after; [eassumption|]. eapply IHn; eassumption.
    + destruct (Z.land tagNum bit11NonCritical =? 0) eqn:Hbit.
      { intros ->. apply Somewhere_here.
        eapply Stops_unknown; try eassumption. left; lia. }
      destruct allow; simpl.
      * intros E. eapply Somewhere_after; [eassumption|].
        eapply IHn; eassumption.
      * intros ->. apply Somewhere_here.
        eapply Stops_unknown; try eassumption. right; reflexivity.
  - rewrite (loopFrom_stuck _ _ _ _ _ Hne Hh).
    assert (Hv : forall tagNum wireType m,
              protowire.ConsumeTag b = (tagNum, wireType, m) -> 0 <= m ->
              protowire.ConsumeFieldValue tagNum wireType (from m b) < 0).
    { intros t w m Ht Hm. unfold headField in Hh. rewrite Ht in Hh.
      replace (m <? 0) with false in Hh by lia.
      destruct (_ <? 0) eqn:Hn in Hh; [lia|discriminate]. }
    destruct (protowire.ConsumeTag b) as [[tagNum wireType] m] eqn:Ht.
    destruct (m <? 0) eqn:Hm.
    { intros ->. apply Somewhere_here.
      eapply Stops_tag; [assumption|eassumption|lia]. }
    specialize (Hv _ _ _ eq_refl ltac:(lia)). cbv zeta.
    destruct (md_ByNumber desc tagNum) eqn:Hfd.
    { intros ->. apply Somewhere_here.
      eapply Stops_value; [eassumption|lia| |assumption].
      left; rewrite Hfd; discriminate. }
    destruct (Z.land tagNum bit11NonCritical =? 0) eqn:Hbit.
    { intros ->. apply Somewhere_here.
      eapply Stops_unknown; try eassumption; [lia|left; lia]. }
    destruct allow; simpl.
    * intros ->. apply Somewhere_here.
      eapply Stops_value; [eassumption|lia| |assumption].
      right; split; [lia|reflexivity].
    * intros ->. apply Somewhere_here.
      eapply Stops_unknown; try eassumption; [lia|right; reflexivity].
Qed.

(** At a pass that stops, the loop ends with what the pass stops with. *)
Lemma Stops_ends (allow : bool) (resolver : Resolver)
    (desc : MessageDescriptor) (rest : bytes) (o : Run Error) :
  Stops allow resolver desc rest o ->
  forall h, ends (loopFrom rest desc allow resolver h) o.
Proof.
  intros Hs h.
  destruct Hs as
    [ desc rest tagNum wireType m Hne Ht Hm
    | desc rest tagNum wireType m Ht Hm Hfd Hb
    | desc rest tagNum wireType m Ht Hm Hk Hv
    | desc rest tagNum wireType fieldBytes rest' fd Hh Hfd Hw
    | desc rest tagNum wireType fieldBytes rest' fd fm Hh Hfd Hw Hfm Hc
    | desc rest tagNum wireType fieldBytes rest' fd fm inner c
        Hh Hfd Hw Hfm Hany Hc Henv Hu
    | desc rest tagNum wireType fieldBytes rest' fd fm inner c a
        Hh Hfd Hw Hfm Hany Hc Henv Hu Hd
    | desc rest tagNum wireType fieldBytes rest' fd fm inner c a d
        Hh Hfd Hw Hfm Hany Hc Henv Hu Hd Hno ].
  - rewrite loopFrom_stuck; [|assumption|].
    + rewrite Ht. replace (m <? 0) with true by lia. reflexivity.
    + unfold headField. rewrite Ht. replace (m <? 0) with true by lia.
      reflexivity.
  - rewrite (loopFrom_unknown _ _ _ _ _ _ _ _ Ht Hm Hfd). cbv zeta.
    destruct (Z.land tagNum bit11NonCritical =? 0) eqn:Hbit; [reflexivity|].
    destruct Hb as [Hb| ->]; [lia|reflexivity].
  - assert (Hne : rest <> []).
    { intros ->. pose proof (protowire.ConsumeTag_length _ _ _ _ Ht) as Hl.
      unfold len in Hl; simpl in Hl. lia. }
    rewrite loopFrom_stuck; [|assumption|].
    + rewrite Ht. replace (m <? 0) with false by lia. cbv zeta.
      destruct (md_ByNumber desc tagNum) as [fd|]; [reflexivity|].
      destruct Hk as [Hk|[Hbit ->]]; [congruence|].
      replace (Z.land tagNum bit11NonCritical =? 0) with false by lia.
      reflexivity.
    + unfold headField. rewrite Ht. replace (m <? 0) with false by lia.
      replace (_ <? 0) with true by lia. reflexivity.
  - rewrite (loopFrom_headField _ _ _ _ _ _ _ _ _ Hh), Hfd. cbv zeta.
    rewrite Hw. reflexivity.
  - rewrite (loopFrom_headField _ _ _ _ _ _ _ _ _ Hh), Hfd. cbv zeta.
    rewrite Hw, Hfm, Hc. reflexivity.
  - rewrite (loopFrom_headField _ _ _ _ _ _ _ _ _ Hh), Hfd. cbv zeta.
    rewrite Hw, Hfm, Hc, Hany, Henv. simpl. rewrite Hu. reflexivity.
  - rewrite (loopFrom_headField _ _ _ _ _ _ _ _ _ Hh), Hfd. cbv zeta.
    rewrite Hw, Hfm, Hc, Hany, Henv. simpl. rewrite Hu, Hd. reflexivity.
  - rewrite (loopFrom_headField _ _ _ _ _ _ _ _ _ Hh), Hfd. cbv zeta.
    rewrite Hw, Hfm, Hc, Hany, Henv. simpl. rewrite Hu, Hd, Hno. reflexivity.
Qed.

(** X23. Every failure has a cause. When the call ends with an error or a
    panic [o], there is a field boundary the validator reads at which the
    pass of the loop stops with [o], for one of the reasons [Stops] lists
    ([return] by [return] and panic by panic), and the loop started at that
    boundary ends with [o] whatever the flag is. *)
Theorem failure_has_a_cause (bz : bytes) (desc : MessageDescriptor)
    (allow : bool) (resolver : Resolver) (o : Run Error) :
  ends (RejectUnknownFields bz desc allow resolver) o ->
  exists desc' rest,
    Occurs resolver desc bz desc' rest /\
    Stops allow resolver desc' rest o /\
    forall h, ends (loopFrom rest desc' allow resolver h) o.
Proof.
  rewrite RejectUnknownFields_loopFrom. intros E.
  apply loopFrom_ends in E. destruct E as (desc' & rest & Ho & Hs).
  exists desc', rest. split; [exact Ho|]. split; [exact Hs|].
  apply Stops_ends. exact Hs.
Qed.

(** X7. An unknown-field error is accurate. When the call returns the
    error for the message name [name], the field number [tagNum] and the
    wire type [wt], then somewhere the validator reads, inside a message
    whose descriptor has the full name [name], a field with number [tagNum]
    begins, that number is not in the descriptor, [wt] is the name of the
    field's wire type, and bit 1024 of the number is clear or non-critical
    unknown fields are disallowed. *)
Theorem unknown_field_error_names_an_unknown_field (bz : bytes)
    (desc : MessageDescriptor) (allow : bool) (resolver : Resolver)
    (flag : bool) (name : string) (tagNum : Z) (wt : string) :
  RejectUnknownFields bz desc allow resolver
  = Some (Returns (flag, Some (ErrUnknownField name tagNum wt))) ->
  exists desc' rest wireType m,
    Occurs resolver desc bz desc' rest /\
    protowire.ConsumeTag rest = (tagNum, wireType, m) /\ 0 <= m /\
    md_ByNumber desc' tagNum = None /\
    name = md_FullName desc' /\ wt = WireTypeToString wireType /\
    (Z.land tagNum 1024 = 0 \/ allow = false).
Proof.
  intros E.
  destruct (loopFrom_ends bz desc allow resolver false
              (Returns (ErrUnknownField name tagNum wt)))
    as (desc' & rest & Ho & Hs).
  { rewrite <- RejectUnknownFields_loopFrom, E. reflexivity. }
  inversion Hs; subst.
  exists desc', rest, wireType, m. repeat split; assumption.
Qed.

(** X8. A wire-type error is accurate. When the call returns the error for
    the wire type [wt] and the field name [fieldName], then somewhere the
    validator reads a complete field begins whose number is in the
    descriptor of the message around it, as a field with the full name
    [fieldName], and whose wire type, named [wt], is not assignable to that
    field's kind. *)
Theorem wire_type_error_names_a_mismatch (bz : bytes)
    (desc : MessageDescriptor) (allow : bool) (resolver : Resolver)
    (flag : bool) (wt fieldName : string) :
  RejectUnknownFields bz desc allow resolver
  = Some (Returns (flag, Some (ErrInvalidWireType wt fieldName))) ->
  exists desc' rest tagNum wireType fieldBytes rest' fd,
    Occurs resolver desc bz desc' rest /\
    headField rest = Some (tagNum, wireType, fieldBytes, rest') /\
    md_ByNumber desc' tagNum = Some fd /\
    isWireTypeAssignable wireType (fd_Kind fd) = false /\
    wt = WireTypeToString wireType /\ fieldName = fd_FullName fd.
Proof.
  intros E.
  destruct (loopFrom_ends bz desc allow resolver false
              (Returns (ErrInvalidWireType wt fieldName)))
    as (desc' & rest & Ho & Hs).
  { rewrite <- RejectUnknownFields_loopFrom, E. reflexivity. }
  inversion Hs; subst.
  exists desc', rest, tagNum, wireType, fieldBytes, rest', fd.
  repeat split; assumption.
Qed.

(** X9. The error of the resolver comes from an [Any] in the buffer. When
    the call returns that error, then somewhere the validator reads a
    complete field begins that the descriptor of the message around it
    declares with the type [Any], the bytes of the field decode as an
    [Any], and the resolver does not find the message name of its type
    URL. *)
Theorem not_found_error_comes_from_an_unresolved_any (bz : bytes)
    (desc : MessageDescriptor) (allow : bool) (resolver : Resolver)
    (flag : bool) (name : string) :
  RejectUnknownFields bz desc allow resolver
  = Some (Returns (flag, Some (ErrNotFound name))) ->
  exists desc' rest tagNum wireType fieldBytes rest' fd fm inner a,
    Occurs resolver desc bz desc' rest /\
    headField rest = Some (tagNum, wireType, fieldBytes, rest') /\
    md_ByNumber desc' tagNum = Some fd /\
    fd_Message fd = Some fm /\ md_FullName fm = anyFullName /\
    content fieldBytes = Some inner /\
    Unmarshal inner = Some a /\
    resolver (MessageNameFromTypeURL (TypeUrl a)) = None.
Proof.
  intros E.
  destruct (loopFrom_ends bz desc allow resolver false
              (Returns (ErrNotFound name)))
    as (desc' & rest & Ho & Hs).
  { rewrite <- RejectUnknownFields_loopFrom, E. reflexivity. }
  inversion Hs; subst.
  match goal with
  | Hany : String.eqb _ anyFullName = true |- _ => apply String.eqb_eq in Hany
  end.
  exists desc', rest, tagNum, wireType, fieldBytes, rest', fd, fm, inner, a.
  repeat split; assumption.
Qed.

(** The length prefix read again from a prefix of the slice that holds all
    of its bytes. *)
Lemma varintFrom_upto (k : nat) : forall i v b r n j,
  i + Z.of_nat k = 9 ->
  protowire.varintFrom k i v b = (r, n) -> 0 <= n -> n - i <= j ->
  protowire.varintFrom k i v (upto j b) = (r, n).
Proof.
  induction k as [|k IH]; intros i v b r n j Hi Hv Hn Hj;
    destruct b as [|x b]; simpl in Hv.
  - inversion Hv; subst. unfold protowire.errCodeTruncated in *. lia.
  - assert (Hj1 : 1 <= j).
    { destruct (byteZ x <? 2); inversion Hv; subst;
        unfold protowire.errCodeOverflow in *; lia. }
    unfold upto. replace (Z.to_nat j) with (S (Z.to_nat (j - 1))) by lia.
    simpl. exact Hv.
  - inversion Hv; subst. unfold protowire.errCodeTruncated in *. lia.
  - destruct (byteZ x <? 128) eqn:Hx.
    + assert (Hj1 : 1 <= j) by (inversion Hv; subst; lia).
      unfold upto. replace (Z.to_nat j) with (S (Z.to_nat (j - 1))) by lia.
      simpl. rewrite Hx. exact Hv.
    + pose proof (protowire.varintFrom_length k (i + 1) _ _ _ _
                    ltac:(lia) Hv) as Hl.
      assert (Hj1 : 1 <= j) by lia.
      unfold upto. replace (Z.to_nat j) with (S (Z.to_nat (j - 1))) by lia.
      simpl. rewrite Hx. apply IH; try assumption; lia.
Qed.

(** The value of a field with wire type [bytes] begins with its length
    prefix, so the validator can strip it. *)
Lemma content_of_bytes (bz : bytes) (tagNum : Z) (fieldBytes bz' : bytes) :
  headField bz = Some (tagNum, protowire.BytesType, fieldBytes, bz') ->
  content fieldBytes <> None.
Proof.
  intros Hh. apply headField_tag in Hh.
  destruct Hh as (m & Ht & Hm & Hn & -> & _).
  remember (from m bz) as b eqn:Hb.
  assert (Hcb : protowire.ConsumeFieldValue tagNum protowire.BytesType b
                = protowire.ConsumeBytes b) by reflexivity.
  rewrite Hcb in *. unfold protowire.ConsumeBytes in *.
  destruct (protowire.ConsumeVarint b) as [v o] eqn:Hv.
  pose proof (protowire.varintFrom_value _ _ _ _ _ _ Hv) as Hval.
  destruct (o <? 0) eqn:Ho; [lia|].
  destruct (len (from o b) <? v) eqn:Hlen;
    [unfold protowire.errCodeTruncated in Hn; lia|].
  unfold content, protowire.ConsumeVarint.
  rewrite (varintFrom_upto 9 0 0 b v o (o + v) eq_refl Hv) by lia.
  rewrite Ho. discriminate.
Qed.

Lemma assignable_message_kind (wireType : Z) (kind : Kind) :
  kind = MessageKind \/ kind = GroupKind ->
  isWireTypeAssignable wireType kind = true ->
  wireType = protowire.BytesType.
Proof.
  intros [->| ->]; simpl; intros E; apply Z.eqb_eq in E; exact E.
Qed.

(** X10. The call does not panic when the descriptors and the resolver are
    as [protoreflect] has them: a field has a message descriptor only if
    its kind is message or group, and what the resolver finds is a message
    descriptor. The length prefix of a field value of wire type [bytes]
    always parses again, so the slice [fieldBytes[o:]] is in range. *)
Theorem RejectUnknownFields_does_not_panic (bz : bytes)
    (desc : MessageDescriptor) (allow : bool) (resolver : Resolver) :
  (forall d tagNum fd fm,
     md_ByNumber d tagNum = Some fd -> fd_Message fd = Some fm ->
     fd_Kind fd = MessageKind \/ fd_Kind fd = GroupKind) ->
  (forall name d, resolver name = Some d -> asMessageDescriptor d <> None) ->
  RejectUnknownFields bz desc allow resolver <> Some Panics.
Proof.
  intros Hkind Hres E.
  destruct (loopFrom_ends bz desc allow resolver false Panics)
    as (desc' & rest & Ho & Hs).
  { rewrite <- RejectUnknownFields_loopFrom, E. reflexivity. }
  inversion Hs; subst.
  - match goal with
    | Hfd : md_ByNumber _ _ = Some ?fd, Hfm : fd_Message ?fd = Some _,
      Hw : isWireTypeAssignable _ _ = true, Hh : headField _ = Some _,
      Hc : content _ = None |- _ =>
        pose proof (assignable_message_kind _ _ (Hkind _ _ _ _ Hfd Hfm) Hw);
        subst; exact (content_of_bytes _ _ _ _ Hh Hc)
    end.
  - match goal with
    | Hd : resolver _ = Some ?d, Ha : asMessageDescriptor ?d = None |- _ =>
        exact (Hres _ _ Hd Ha)
    end.
Qed.

(** X11. An [Any] whose type URL the resolver maps to a descriptor that is
    not a message descriptor makes the call panic, in either mode: the type
    assertion [msgDesc.(protoreflect.MessageDescriptor)] has no second
    result. Here the [Any] is the field at the head of [rest], after a
    prefix [pre] that is accepted, and its envelope is accepted. *)
Theorem any_of_a_non_message_panics (pre rest : bytes)
    (desc : MessageDescriptor) (allow : bool) (resolver : Resolver)
    (tagNum wireType : Z) (fieldBytes post inner : bytes)
    (fd : FieldDescriptor) (fm : MessageDescriptor) (a : Any)
    (d : Descriptor) (h1 c : bool) :
  RejectUnknownFields pre desc allow resolver = Some (Returns (h1, None)) ->
  headField rest = Some (tagNum, wireType, fieldBytes, post) ->
  md_ByNumber desc tagNum = Some fd ->
  isWireTypeAssignable wireType (fd_Kind fd) = true ->
  fd_Message fd = Some fm ->
  md_FullName fm = anyFullName ->
  content fieldBytes = Some inner ->
  RejectUnknownFields inner anyDesc allow resolver
  = Some (Returns (c, None)) ->
  Unmarshal inner = Some a ->
  resolver (MessageNameFromTypeURL (TypeUrl a)) = Some d ->
  asMessageDescriptor d = None ->
  RejectUnknownFields (pre ++ rest) desc allow resolver = Some Panics.
Proof.
  intros Hpre Hh Hfd Hw Hfm Hany Hc Henv Hu Hd Hno.
  rewrite RejectUnknownFields_loopFrom in Hpre.
  rewrite RejectUnknownFields_loopFrom.
  rewrite (loopFrom_app pre rest _ _ _ _ _ Hpre).
  rewrite (loopFrom_headField _ _ _ _ _ _ _ _ _ Hh), Hfd. cbv zeta.
  rewrite Hw, Hfm, Hc, Hany, String.eqb_refl, Henv. simpl.
  rewrite Hu, Hd, Hno. reflexivity.
Qed.

End ValidatorFailures.

(** **** Rejections that more bytes do not undo *)

Section ValidatorFinal.
Context `{Reflect}.

Local Abbreviation result := (option (Run (bool * option Error))).

Lemma headField_app (pre rest : bytes) (tagNum wireType : Z)
    (fieldBytes pre' : bytes) :
  headField pre = Some (tagNum, wireType, fieldBytes, pre') ->
  headField (pre ++ rest) = Some (tagNum, wireType, fieldBytes, pre' ++ rest).
Proof.
  intros Hh. apply headField_tag in Hh.
  destruct Hh as (m & Ht & Hm & Hn & -> & ->).
  destruct (scan_app pre rest _ _ _ Ht Hm Hn) as (Ht' & Hn' & Hu' & Hf').
  unfold headField. rewrite Ht'. replace (m <? 0) with false by lia.
  rewrite Hn'. replace (_ <? 0) with false by lia.
  rewrite Hu', Hf'. reflexivity.
Qed.

(** The results that do not come from the end of the buffer being reached
    too early: a panic, and every error but the two of the wire scanner. *)
Definition final (r : result) : Prop :=
  match r with
  | Some (Returns (_, Some ErrInvalidLength)) => False
  | Some (Returns (_, Some (ErrConsumeFieldValue _ _ _))) => False
  | Some (Returns (_, Some _)) => True
  | Some Panics => True
  | _ => False
  end.

Lemma final_afterCall (r : result) (h : bool) (k k' : bool -> result) :
  final (afterCall r h k) ->
  (forall x, final (k x) -> k' x = k x) ->
  afterCall r h k' = afterCall r h k.
Proof.
  destruct r as [[[c [e|]]|]|]; simpl; auto.
Qed.

Lemma loopFrom_final (pre : bytes) : forall rest desc allow resolver h,
  final (loopFrom pre desc allow resolver h) ->
  loopFrom (pre ++ rest) desc allow resolver h
  = loopFrom pre desc allow resolver h.
Proof.
  remember (length pre) as k eqn:Hk. revert pre Hk.
  induction k as [k IH] using lt_wf_ind.
  intros pre Hk rest desc allow resolver h.
  assert (IHn : forall pre' h', len pre' < len pre ->
            final (loopFrom pre' desc allow resolver h') ->
            loopFrom (pre' ++ rest) desc allow resolver h'
            = loopFrom pre' desc allow resolver h').
  { intros pre' h' Hl.
    apply (IH (length pre')); [unfold len in Hl; lia|reflexivity]. }
  clear IH.
  destruct pre as [|x pre0]; [intros []|].
  remember (x :: pre0) as b eqn:Hb.
  assert (Hne : b <> []) by (subst b; discriminate).
  destruct (headField b) as [[[[tagNum wireType] fieldBytes] pre']|] eqn:Hh.
  - rewrite (loopFrom_headField _ _ _ _ _ _ _ _ _ (headField_app _ rest _ _ _ _ Hh)).
    rewrite (loopFrom_headField _ _ _ _ _ _ _ _ _ Hh). cbv zeta.
    destruct (headField_shorter _ _ _ _ _ Hh) as [_ Hrest].
    destruct (md_ByNumber desc tagNum) as [fd|].
    + destruct (negb (isWireTypeAssignable wireType (fd_Kind fd)));
        [reflexivity|].
      destruct (fd_Message fd) as [fm|]; [|apply IHn; assumption].
      destruct (content fieldBytes) as [inner|]; [|reflexivity].
      destruct (String.eqb (md_FullName fm) anyFullName).
      * intros Hf. apply final_afterCall; [assumption|]. intros y.
        destruct (Unmarshal inner) as [a|]; [|reflexivity].
        destruct (resolver _) as [d|]; [|reflexivity].
        destruct (asMessageDescriptor d); [|reflexivity].
        intros Hf'. apply final_afterCall; [assumption|].
        intros z. apply IHn; assumption.
      * intros Hf. apply final_afterCall; [assumption|].
        intros z. apply IHn; assumption.
    + destruct (Z.land tagNum bit11NonCritical =? 0); [reflexivity|].
      destruct (negb allow); [reflexivity|]. apply IHn; assumption.
  - rewrite (loopFrom_stuck _ _ _ _ _ Hne Hh).
    destruct (protowire.ConsumeTag b) as [[tagNum wireType] m] eqn:Ht.
    destruct (m <? 0) eqn:Hm; [intros []|]. cbv zeta.
    assert (Ht' : protowire.ConsumeTag (b ++ rest) = (tagNum, wireType, m))
      by (apply protowire.ConsumeTag_app; [assumption|lia]).
    destruct (md_ByNumber desc tagNum) eqn:Hfd; [intros []|].
    rewrite (loopFrom_unknown _ _ _ _ _ _ _ _ Ht' ltac:(lia) Hfd). cbv zeta.
    destruct (Z.land tagNum bit11NonCritical =? 0); [reflexivity|].
    destruct (negb allow); [reflexivity|intros []].
Qed.

(** X12. A rejection that does not come from the buffer ending too early
    is not undone by more bytes. When the call on [pre] returns an error
    other than the two of the wire scanner (invalid length, field value
    not consumed), or panics, the call on [pre ++ rest] ends the same way,
    with the same flag. *)
Theorem rejection_survives_appending (pre rest : bytes)
    (desc : MessageDescriptor) (allow : bool) (resolver : Resolver) :
  (forall flag e,
     RejectUnknownFields pre desc allow resolver
     = Some (Returns (flag, Some e)) ->
     e <> ErrInvalidLength ->
     (forall tagNum wireType code,
        e <> ErrConsumeFieldValue tagNum wireType code) ->
     RejectUnknownFields (pre ++ rest) desc allow resolver
     = Some (Returns (flag, Some e))) /\
  (RejectUnknownFields pre desc allow resolver = Some Panics ->
   RejectUnknownFields (pre ++ rest) desc allow resolver = Some Panics).
Proof.
  rewrite !RejectUnknownFields_loopFrom. split.
  - intros flag e E Hl Hv. rewrite loopFrom_final; [exact E|].
    rewrite E. simpl. destruct e; try exact I; [congruence|].
    exact (Hv _ _ _ eq_refl).
  - intros E. rewrite loopFrom_final; [exact E|]. rewrite E. exact I.
Qed.

End ValidatorFinal.

(** **** More fields in a descriptor, more types in a resolver *)

Section ValidatorGrowth.
Context `{Reflect}.

Local Abbreviation result := (option (Run (bool * option Error))).

(** [desc'] has every field of [desc], with the same descriptor. *)
Definition extendsFields (desc desc' : MessageDescriptor) : Prop :=
  forall tagNum fd,
    md_ByNumber desc tagNum = Some fd -> md_ByNumber desc' tagNum = Some fd.

(** [resolver'] finds what [resolver] finds. *)
Definition extendsResolver (resolver resolver' : Resolver) : Prop :=
  forall name d, resolver name = Some d -> resolver' name = Some d.

Lemma afterCall_grows (r r' : result) (h f : bool) (k k' : bool -> result) :
  (forall c, r = Some (Returns (c, None)) -> r' = Some (Returns (c, None))) ->
  (forall x, k x = Some (Returns (f, None)) ->
             k' x = Some (Returns (f, None))) ->
  afterCall r h k = Some (Returns (f, None)) ->
  afterCall r' h k' = Some (Returns (f, None)).
Proof.
  intros Hr Hk E. apply afterCall_accepted in E. destruct E as (c & E1 & E).
  rewrite (Hr c E1). simpl. apply Hk. exact E.
Qed.

Lemma loopFrom_grows (resolver resolver' : Resolver) :
  extendsResolver resolver resolver' ->
  forall bz desc desc' allow h f,
  desc = desc' \/ (allow = false /\ extendsFields desc desc') ->
  loopFrom bz desc allow resolver h = Some (Returns (f, None)) ->
  loopFrom bz desc' allow resolver' h = Some (Returns (f, None)).
Proof.
  intros Hres bz. remember (length bz) as k eqn:Hk. revert bz Hk.
  induction k as [k IH] using lt_wf_ind.
  intros bz Hk desc desc' allow h f Hd.
  assert (IHl : forall fb d c, len fb < len bz ->
            RejectUnknownFields fb d allow resolver
            = Some (Returns (c, None)) ->
            RejectUnknownFields fb d allow resolver'
            = Some (Returns (c, None))).
  { intros fb d c Hl. rewrite !RejectUnknownFields_loopFrom.
    apply (IH (length fb)); [unfold len in Hl; lia|reflexivity|].
    left; reflexivity. }
  assert (IHn : forall bz' h' f', len bz' < len bz ->
            loopFrom bz' desc allow resolver h' = Some (Returns (f', None)) ->
            loopFrom bz' desc' allow resolver' h'
            = Some (Returns (f', None))).
  { intros bz' h' f' Hl.
    apply (IH (length bz')); [unfold len in Hl; lia|reflexivity|exact Hd]. }
  clear IH.
  destruct bz as [|x bz0]; [intros E; exact E|].
  remember (x :: bz0) as b eqn:Hb.
  assert (Hne : b <> []) by (subst b; discriminate).
  destruct (headField b) as [[[[tagNum wireType] fieldBytes] bz']|] eqn:Hh.
  - rewrite !(loopFrom_headField _ _ _ _ _ _ _ _ _ Hh). cbv zeta.
    destruct (headField_shorter _ _ _ _ _ Hh) as [Hfb Hrest].
    destruct (md_ByNumber desc tagNum) as [fd|] eqn:Hfd.
    + assert (Hfd' : md_ByNumber desc' tagNum = Some fd).
      { destruct Hd as [<-|[_ Hd]]; [exact Hfd|apply Hd; exact Hfd]. }
      rewrite Hfd'.
      destruct (negb (isWireTypeAssignable wireType (fd_Kind fd)));
        [discriminate|].
      destruct (fd_Message fd) as [fm|]; [|apply IHn; assumption].
      destruct (content fieldBytes) as [inner|] eqn:Hc; [|discriminate].
      apply content_shorter in Hc.
      destruct (String.eqb (md_FullName fm) anyFullName).
      * apply afterCall_grows; [intros c; apply IHl; lia|]. intros y.
        destruct (Unmarshal inner) as [a|] eqn:Hu; [|discriminate].
        apply Unmarshal_Value in Hu.
        destruct (resolver _) as [d|] eqn:Hr; [|discriminate].
        rewrite (Hres _ _ Hr).
        destruct (asMessageDescriptor d); [|discriminate].
        apply afterCall_grows; [intros c; apply IHl; lia|].
        intros z. apply IHn; assumption.
      * apply afterCall_grows; [intros c; apply IHl; lia|].
        intros z. apply IHn; assumption.
    + destruct (Z.land tagNum bit11NonCritical =? 0); [discriminate|].
      destruct Hd as [<-|[-> _]]; [|discriminate].
      rewrite Hfd. destruct (negb allow); [discriminate|].
      apply IHn; assumption.
  - rewrite (loopFrom_stuck _ _ _ _ _ Hne Hh).
    destruct (protowire.ConsumeTag b) as [[tagNum wireType] m].
    destruct (m <? 0); [discriminate|]. cbv zeta.
    destruct (md_ByNumber desc tagNum); [discriminate|].
    destruct (Z.land tagNum bit11NonCritical =? 0); [discriminate|].
    destruct (negb allow); discriminate.
Qed.

(** X24. Adding fields to a message type keeps its strictly valid buffers
    valid. When [desc'] has every field of [desc], with the same field
    descriptor, a buffer that [RejectUnknownFieldsStrict] accepts for
    [desc] it accepts for [desc']. *)
Theorem new_fields_keep_strictly_valid_buffers_valid (bz : bytes)
    (desc desc' : MessageDescriptor) (resolver : Resolver) :
  (forall tagNum fd,
     md_ByNumber desc tagNum = Some fd ->
     md_ByNumber desc' tagNum = Some fd) ->
  RejectUnknownFieldsStrict bz desc resolver = Some (Returns None) ->
  RejectUnknownFieldsStrict bz desc' resolver = Some (Returns None).
Proof.
  intros Hext. unfold RejectUnknownFieldsStrict.
  rewrite !RejectUnknownFields_loopFrom.
  destruct (loopFrom bz desc false resolver false) as [[[f [e|]]|]|] eqn:E;
    try discriminate.
  intros _.
  rewrite (loopFrom_grows resolver resolver (fun _ _ Hd => Hd) bz desc desc'
             false false f); [reflexivity| |exact E].
  right. split; [reflexivity|exact Hext].
Qed.

(** X25. A resolver that finds more keeps accepted buffers accepted. When
    [resolver'] finds every name that [resolver] finds, with the same
    descriptor, a buffer accepted with [resolver] is accepted with
    [resolver'], in either mode and with the same flag. *)
Theorem new_types_keep_valid_buffers_valid (bz : bytes)
    (desc : MessageDescriptor) (allow : bool) (resolver resolver' : Resolver)
    (flag : bool) :
  (forall name d, resolver name = Some d -> resolver' name = Some d) ->
  RejectUnknownFields bz desc allow resolver = Some (Returns (flag, None)) ->
  RejectUnknownFields bz desc allow resolver' = Some (Returns (flag, None)).
Proof.
  intros Hext. rewrite !RejectUnknownFields_loopFrom.
  apply (loopFrom_grows resolver resolver' Hext). left; reflexivity.
Qed.

End ValidatorGrowth.

(** **** The two helpers on wire types *)


(** The decimal text of [%d] tells two integers apart. *)
Lemma decimal_injective (a b : Z) :
  NilZero.string_of_int (Z.to_int a) = NilZero.string_of_int (Z.to_int b) ->
  a = b.
Proof.
  intros E. apply (f_equal NilZero.int_of_string) in E.
  assert (Hn : forall z, Z.to_int z <> Decimal.Pos Decimal.Nil /\
                         Z.to_int z <> Decimal.Neg Decimal.Nil).
  { intros [|p|p]; simpl; split; try discriminate;
      intros E'; inversion E' as [E''];
      exact (DecimalPos.Unsigned.to_uint_nonnil p E''). }
  rewrite !NilZero.isi in E by apply Hn.
  inversion E as [E']. apply (f_equal Z.of_int) in E'.
  rewrite !DecimalZ.of_to in E'. exact E'.
Qed.

(** X14. [WireTypeToString] tells wire types apart: two wire types with the
    same text are equal, the named ones and those printed as a number. *)
Theorem WireTypeToString_injective (wt wt' : Z) :
  WireTypeToString wt = WireTypeToString wt' -> wt = wt'.
Proof.
  unfold WireTypeToString.
  destruct (wt =? 0) eqn:E0; [|destruct (wt =? 1) eqn:E1;
    [|destruct (wt =? 2) eqn:E2; [|destruct (wt =? 3) eqn:E3;
    [|destruct (wt =? 4) eqn:E4; [|destruct (wt =? 5) eqn:E5]]]]];
  (destruct (wt' =? 0) eqn:F0; [|destruct (wt' =? 1) eqn:F1;
    [|destruct (wt' =? 2) eqn:F2; [|destruct (wt' =? 3) eqn:F3;
    [|destruct (wt' =? 4) eqn:F4; [|destruct (wt' =? 5) eqn:F5]]]]]);
  simpl; try discriminate; try lia.
  intros E. inversion E as [E']. apply decimal_injective. exact E'.
Qed.

End decode.

(** ** A small schema to run the validator on

    Three message types: [O] with a string (1), a nested [I] (2), an [Any]
    (3) and an int64 (4); [I] with an int32 (1) and a nested [O] (2); and
    [google.protobuf.Any] with its type URL (1) and value (2). One name,
    [E], resolves to a descriptor that is not a message descriptor. *)

Module sample.
Import decode.

Inductive Msg : Type := O | I | AnyMsg.

Record Field : Type :=
  mkField { name : string; kind : Kind; message : option Msg }.

Inductive Desc : Type := MsgDesc (m : Msg) | EnumDesc.

Definition fullName (m : Msg) : string :=
  match m with
  | O => "O"
  | I => "I"
  | AnyMsg => "google.protobuf.Any"
  end.

Definition byNumber (m : Msg) (num : Z) : option Field :=
  match m with
  | O =>
      if num =? 1 then Some (mkField "O.name" StringKind None)
      else if num =? 2 then Some (mkField "O.inner" MessageKind (Some I))
      else if num =? 3 then Some (mkField "O.any" MessageKind (Some AnyMsg))
      else if num =? 4 then Some (mkField "O.count" Int64Kind None)
      else None
  | I =>
      if num =? 1 then Some (mkField "I.id" Int32Kind None)
      else if num =? 2 then Some (mkField "I.outer" MessageKind (Some O))
      else None
  | AnyMsg =>
      if num =? 1 then
        Some (mkField "google.protobuf.Any.type_url" StringKind None)
      else if num =? 2 then
        Some (mkField "google.protobuf.Any.value" BytesKind None)
      else None
  end.

Definition asMsg (d : Desc) : option Msg :=
  match d with
  | MsgDesc m => Some m
  | EnumDesc => None
  end.

(** Decoding of an [Any]: the last occurrence of each of the two fields
    wins and every other field is skipped. *)
Fixpoint unmarshalAny (fuel : nat) (b : bytes) (a : Any) : option Any :=
  match fuel with
  | 0%nat => None
  | S fuel =>
      if len b =? 0 then Some a
      else
        match headField b with
        | None => None
        | Some (num, typ, fieldBytes, rest) =>
            if typ =? protowire.BytesType then
              match content fieldBytes with
              | None => None
              | Some payload =>
                  if num =? 1 then
                    unmarshalAny fuel rest
                      (mkAny (string_of_list_byte payload) (Value a))
                  else if num =? 2 then
                    unmarshalAny fuel rest (mkAny (TypeUrl a) payload)
                  else unmarshalAny fuel rest a
              end
            else unmarshalAny fuel rest a
        end
  end.

Definition unmarshal (b : bytes) : option Any :=
  unmarshalAny (S (length b)) b (mkAny "" []).

Lemma unmarshalAny_Value (fuel : nat) : forall b a a',
  unmarshalAny fuel b a = Some a' ->
  len (Value a') <= Z.max (len (Value a)) (len b).
Proof.
  induction fuel as [|fuel IH]; intros b a a' Hu; [discriminate|].
  simpl in Hu.
  destruct (len b =? 0); [inversion Hu; subst; lia|].
  destruct (headField b) as [[[[num typ] fieldBytes] rest]|] eqn:Hh;
    [|discriminate].
  apply headField_shorter in Hh. destruct Hh as [Hfb Hrest].
  destruct (typ =? protowire.BytesType); [|apply IH in Hu; lia].
  destruct (content fieldBytes) as [payload|] eqn:Hc; [|discriminate].
  apply content_shorter in Hc.
  destruct (num =? 1); [apply IH in Hu; simpl in Hu; lia|].
  destruct (num =? 2); apply IH in Hu; simpl in Hu; lia.
Qed.

Lemma unmarshal_Value (b : bytes) (a : Any) :
  unmarshal b = Some a -> len (Value a) <= len b.
Proof.
  intros Hu. apply unmarshalAny_Value in Hu. simpl in Hu.
  pose proof (len_nonneg b). unfold len in *. simpl in *. lia.
Qed.

#[export] Instance reflect : Reflect := {|
  MessageDescriptor := Msg;
  FieldDescriptor := Field;
  Descriptor := Desc;
  md_FullName := fullName;
  md_ByNumber := byNumber;
  fd_FullName := name;
  fd_Kind := kind;
  fd_Message := message;
  asMessageDescriptor := asMsg;
  anyDesc := AnyMsg;
  Unmarshal := unmarshal;
  Unmarshal_Value := unmarshal_Value
|}.

(** The three message types as descriptors. *)
Definition descO : MessageDescriptor := O.
Definition descI : MessageDescriptor := I.

Definition resolver : Resolver := fun name =>
  if String.eqb name "O" then Some (MsgDesc O)
  else if String.eqb name "I" then Some (MsgDesc I)
  else if String.eqb name "google.protobuf.Any" then Some (MsgDesc AnyMsg)
  else if String.eqb name "E" then Some EnumDesc
  else None.

End sample.

(** ** [x/tx/signing/aminojson/aminojson.go] *)

Module aminojson.
Import decode.

(** The messages of [cosmos.tx.v1beta1] the handler reads and builds, with
    the fields it uses. A message-typed field that the code tests against
    [nil] or sets to a pointer is an [option]; a nil slice is the empty
    list. The handler dereferences [txData.Body] and [txData.AuthInfo]
    without a test, so they are plain records here, and the projections
    carry the name of their message where two messages share a field
    name. *)
Record Coin : Type := mkCoin { Denom : string; Coin_Amount : string }.

Record Fee : Type := mkFee {
  Fee_Amount : list Coin;
  GasLimit : Z;
  Fee_Payer : string;
  Fee_Granter : string
}.

Record Tip : Type := mkTip { Tip_Amount : list Coin; Tipper : string }.

Record AuthInfo : Type := mkAuthInfo {
  AuthInfo_Fee : option Fee;
  AuthInfo_Tip : option Tip
}.

Record TxBody : Type := mkTxBody {
  Messages : list Any;
  TxBody_Memo : string;
  TxBody_TimeoutHeight : Z;
  ExtensionOptions : list Any;
  NonCriticalExtensionOptions : list Any
}.

Record AminoSignFee : Type := mkAminoSignFee {
  Amount : list Coin;
  Gas : Z;
  Payer : string;
  Granter : string
}.

Record AminoSignDoc : Type := mkAminoSignDoc {
  AccountNumber : Z;
  TimeoutHeight : Z;
  ChainId : string;
  Sequence : Z;
  Memo : string;
  Msgs : list Any;
  AminoSignDoc_Fee : option AminoSignFee
}.

(** [signing.SignerData] and [signing.TxData], with the fields read here. *)
Record SignerData : Type := mkSignerData {
  Address : string;
  SignerData_ChainId : string;
  SignerData_AccountNumber : Z;
  SignerData_Sequence : Z
}.

Record TxData : Type := mkTxData {
  Body : TxBody;
  TxData_AuthInfo : AuthInfo;
  BodyBytes : bytes
}.

(** The errors [GetSignBytes] returns: the validator's, the four made with
    [fmt.Errorf], the encoder's and those of [encoding/json]. *)
Inductive SignError : Type :=
| ErrUnknownFields (err : Error)
| ErrExtensionOptions
| ErrEmptyAddress
| ErrEmptyTipper
| ErrNilFee
| ErrEncoder
| ErrJSON.

(** [encoding/json] as [sortJSON] uses it: [json.Unmarshal] into an
    [interface{}] and [json.Marshal] of the value obtained; [None] is an
    error. *)
Class EncodingJSON : Type := {
  json_value : Type;
  json_Unmarshal : bytes -> option json_value;
  json_Marshal : json_value -> option bytes
}.

Section Handler.
Context {R : Reflect} {J : EncodingJSON}.

(** The handler: its file resolver and its encoder, through the encoder's
    method [Marshal] at a sign document ([None] is an error). *)
Record SignModeHandler : Type := mkSignModeHandler {
  fileResolver : Resolver;
  encoder : AminoSignDoc -> option bytes
}.

(** [body.ProtoReflect().Descriptor()]: the descriptor of
    [cosmos.tx.v1beta1.TxBody]. *)
Variable TxBodyDescriptor : MessageDescriptor.

Definition sortJSON (toSortJSON : bytes) : SignError + bytes :=
  match json_Unmarshal toSortJSON with
  | None => inl ErrJSON
  | Some c =>
      match json_Marshal c with
      | None => inl ErrJSON
      | Some js => inr js
      end
  end.

(** The sign document of lines 112 to 120, for the fee selected; of the
    transaction it reads the body only. *)
Definition signDoc (signerData : SignerData) (body : TxBody)
    (fee : AminoSignFee) : AminoSignDoc :=
  {| AccountNumber := SignerData_AccountNumber signerData;
     TimeoutHeight := TxBody_TimeoutHeight body;
     ChainId := SignerData_ChainId signerData;
     Sequence := SignerData_Sequence signerData;
     Memo := TxBody_Memo body;
     Msgs := Messages body;
     AminoSignDoc_Fee := Some fee |}.

(** Lines 122 to 126: the encoder, then [sortJSON]. *)
Definition marshalSorted (h : SignModeHandler) (doc : AminoSignDoc)
  : SignError + bytes :=
  match encoder h doc with
  | None => inl ErrEncoder
  | Some bz => sortJSON bz
  end.

Definition GetSignBytes (h : SignModeHandler) (signerData : SignerData)
    (txData : TxData) : option (Run (SignError + bytes)) :=
  let body := Body txData in
  match RejectUnknownFields (BodyBytes txData) TxBodyDescriptor false
          (fileResolver h) with
  | None => None
  | Some Panics => Some Panics
  | Some (Returns (_, Some err)) => Some (Returns (inl (ErrUnknownFields err)))
  | Some (Returns (_, None)) =>
    if (0 <? Z.of_nat (length (ExtensionOptions body)))
       || (0 <? Z.of_nat (length (NonCriticalExtensionOptions body)))
    then Some (Returns (inl ErrExtensionOptions))
    else if String.eqb (Address signerData) "" then
      Some (Returns (inl ErrEmptyAddress))
    else
    let tip := AuthInfo_Tip (TxData_AuthInfo txData) in
    if match tip with
       | Some tip => String.eqb (Tipper tip) ""
       | None => false
       end
    then Some (Returns (inl ErrEmptyTipper))
    else
    let isTipper :=
      match tip with
      | Some tip => String.eqb (Tipper tip) (Address signerData)
      | None => false
      end in
    if isTipper then
      Some (Returns (marshalSorted h (signDoc signerData body
        {| Amount := []; Gas := 0; Payer := ""; Granter := "" |})))
    else
      match AuthInfo_Fee (TxData_AuthInfo txData) with
      | None => Some (Returns (inl ErrNilFee))
      | Some f =>
          Some (Returns (marshalSorted h (signDoc signerData body
            {| Amount := Fee_Amount f; Gas := GasLimit f;
               Payer := Fee_Payer f; Granter := Fee_Granter f |})))
      end
  end.

(** *** The fee of the sign document and the preconditions *)

Lemma nonempty_length (A : Type) (l : list A) :
  (0 <? Z.of_nat (length l)) = false <-> l = [].
Proof.
  destruct l; simpl; split; intros E; try reflexivity; discriminate.
Qed.

(** C6. Let the body bytes pass validation and the preconditions hold (no
    extension options, a signer address). When a tip is present and its
    tipper is the signer, the document that [GetSignBytes] hands to the
    encoder has the fee with no amount, gas zero, and no payer or granter,
    whatever the fee the transaction declares (absent or present, of any
    value). When the signer is not the tipper (no tip, or a tip with
    another, non-empty tipper) and the transaction declares a fee, the
    fee of the document has the amount, gas limit, payer and granter of
    that fee. The other fields of the document are those of the signer
    data and of the body, and the result is what the encoder makes of the
    document, passed through [sortJSON]. *)
Theorem sign_doc_fee (h : SignModeHandler) (signerData : SignerData)
    (txData : TxData) (flag : bool) :
  RejectUnknownFields (BodyBytes txData) TxBodyDescriptor false
    (fileResolver h) = Some (Returns (flag, None)) ->
  ExtensionOptions (Body txData) = [] ->
  NonCriticalExtensionOptions (Body txData) = [] ->
  Address signerData <> ""%string ->
  (forall tip, AuthInfo_Tip (TxData_AuthInfo txData) = Some tip ->
     Tipper tip = Address signerData ->
     GetSignBytes h signerData txData
     = Some (Returns
         match encoder h
                 {| AccountNumber := SignerData_AccountNumber signerData;
                    TimeoutHeight := TxBody_TimeoutHeight (Body txData);
                    ChainId := SignerData_ChainId signerData;
                    Sequence := SignerData_Sequence signerData;
                    Memo := TxBody_Memo (Body txData);
                    Msgs := Messages (Body txData);
                    AminoSignDoc_Fee :=
                      Some {| Amount := []; Gas := 0;
                              Payer := ""; Granter := "" |} |} with
         | None => inl ErrEncoder
         | Some bz => sortJSON bz
         end)) /\
  (forall f, AuthInfo_Fee (TxData_AuthInfo txData) = Some f ->
     match AuthInfo_Tip (TxData_AuthInfo txData) with
     | Some tip => Tipper tip <> ""%string /\ Tipper tip <> Address signerData
     | None => True
     end ->
     GetSignBytes h signerData txData
     = Some (Returns
         match encoder h
                 {| AccountNumber := SignerData_AccountNumber signerData;
                    TimeoutHeight := TxBody_TimeoutHeight (Body txData);
                    ChainId := SignerData_ChainId signerData;
                    Sequence := SignerData_Sequence signerData;
                    Memo := TxBody_Memo (Body txData);
                    Msgs := Messages (Body txData);
                    AminoSignDoc_Fee :=
                      Some {| Amount := Fee_Amount f; Gas := GasLimit f;
                              Payer := Fee_Payer f;
                              Granter := Fee_Granter f |} |} with
         | None => inl ErrEncoder
         | Some bz => sortJSON bz
         end)).
Proof.
  intros Hv He Hn Ha. unfold GetSignBytes. rewrite Hv, He, Hn. simpl.
  apply String.eqb_neq in Ha. rewrite Ha. split.
  - intros tip -> Ht. rewrite Ht, Ha, String.eqb_refl. reflexivity.
  - intros f -> Ht.
    destruct (AuthInfo_Tip (TxData_AuthInfo txData)) as [tip|];
      [|reflexivity].
    destruct Ht as [H1 H2]. apply String.eqb_neq in H1, H2.
    rewrite H1, H2. reflexivity.
Qed.


End Handler.

(** *** When sign bytes are returned, and what they depend on *)

Section HandlerFacts.
Context {R : Reflect} {J : EncodingJSON}.
Variable TxBodyDescriptor : MessageDescriptor.

(** X15. [GetSignBytes] returns sign bytes only for a transaction that
    meets every precondition: the strict validator accepts the body bytes,
    the body has no extension options of either kind, the signer address
    is not empty, a tip has a tipper, and the signer is the tipper or the
    transaction declares a fee. The bytes are then the sorted encoding of
    the sign document for some fee. *)
Theorem sign_bytes_only_when_preconditions_hold (h : SignModeHandler)
    (signerData : SignerData) (txData : TxData) (bz : bytes) :
  GetSignBytes TxBodyDescriptor h signerData txData = Some (Returns (inr bz)) ->
  RejectUnknownFieldsStrict (BodyBytes txData) TxBodyDescriptor
    (fileResolver h) = Some (Returns None) /\
  ExtensionOptions (Body txData) = [] /\
  NonCriticalExtensionOptions (Body txData) = [] /\
  Address signerData <> ""%string /\
  (forall tip, AuthInfo_Tip (TxData_AuthInfo txData) = Some tip ->
               Tipper tip <> ""%string) /\
  ((exists tip, AuthInfo_Tip (TxData_AuthInfo txData) = Some tip /\
                Tipper tip = Address signerData) \/
   AuthInfo_Fee (TxData_AuthInfo txData) <> None) /\
  exists fee, marshalSorted h (signDoc signerData (Body txData) fee) = inr bz.
Proof.
  unfold GetSignBytes, RejectUnknownFieldsStrict.
  destruct (RejectUnknownFields _ _ _ _) as [[[flag [err|]]|]|];
    try discriminate.
  destruct (0 <? Z.of_nat (length (ExtensionOptions (Body txData)))) eqn:He;
    [discriminate|].
  destruct (0 <? Z.of_nat (length (NonCriticalExtensionOptions (Body txData))))
    eqn:Hn; [discriminate|].
  apply nonempty_length in He, Hn. simpl.
  destruct (String.eqb (Address signerData) "") eqn:Ha; [discriminate|].
  apply String.eqb_neq in Ha.
  destruct (AuthInfo_Tip (TxData_AuthInfo txData)) as [tip|].
  - destruct (String.eqb (Tipper tip) "") eqn:Ht; [discriminate|].
    apply String.eqb_neq in Ht.
    assert (Htip : forall tip', Some tip = Some tip' ->
                                Tipper tip' <> ""%string)
      by (intros tip' E; inversion E; subst; exact Ht).
    destruct (String.eqb (Tipper tip) (Address signerData)) eqn:Hs.
    + apply String.eqb_eq in Hs. intros E; injection E as E'.
      repeat split; try assumption; try reflexivity.
      * left. exists tip. split; [reflexivity|exact Hs].
      * eexists; exact E'.
    + destruct (AuthInfo_Fee (TxData_AuthInfo txData)) as [f|];
        [|discriminate].
      intros E; injection E as E'.
      repeat split; try assumption; try reflexivity.
      * right; discriminate.
      * eexists; exact E'.
  - destruct (AuthInfo_Fee (TxData_AuthInfo txData)) as [f|];
      [|discriminate].
    intros E; injection E as E'.
    repeat split; try assumption; try reflexivity.
    + intros tip; discriminate.
    + right; discriminate.
    + eexists; exact E'.
Qed.

(** X16. [GetSignBytes] returns no sign bytes for a body whose bytes hold a
    field that is not in the descriptor of the message around it, critical
    or not, anywhere the validator reads: the body bytes are validated with
    non-critical unknown fields disallowed. *)
Theorem no_sign_bytes_over_an_unknown_field (h : SignModeHandler)
    (signerData : SignerData) (txData : TxData)
    (desc' : MessageDescriptor) (rest : bytes) (tagNum wireType m : Z) :
  Occurs (fileResolver h) TxBodyDescriptor (BodyBytes txData) desc' rest ->
  protowire.ConsumeTag rest = (tagNum, wireType, m) -> 0 <= m ->
  md_ByNumber desc' tagNum = None ->
  forall bz,
    GetSignBytes TxBodyDescriptor h signerData txData
    <> Some (Returns (inr bz)).
Proof.
  intros Ho Ht Hm Hfd bz.
  assert (Hf : fails (RejectUnknownFields (BodyBytes txData) TxBodyDescriptor
                        false (fileResolver h))).
  { rewrite RejectUnknownFields_loopFrom.
    apply (Occurs_fails _ _ _ _ _ _ Ho). intros h0.
    rewrite (loopFrom_unknown _ _ _ _ _ _ _ _ Ht Hm Hfd). cbv zeta.
    destruct (Z.land tagNum bit11NonCritical =? 0); apply fails_error. }
  unfold GetSignBytes.
  destruct Hf as [(flag & e & ->)| ->]; discriminate.
Qed.

(** X17. Of the tip, [GetSignBytes] reads the tipper only. Two transactions
    with the same body, body bytes and fee, whose tips are both absent or
    name the same tipper, get the same result, whatever the amounts of the
    tips. *)
Theorem sign_bytes_ignore_the_tip_amount (h : SignModeHandler)
    (signerData : SignerData) (txData txData' : TxData) :
  Body txData = Body txData' ->
  BodyBytes txData = BodyBytes txData' ->
  AuthInfo_Fee (TxData_AuthInfo txData)
  = AuthInfo_Fee (TxData_AuthInfo txData') ->
  option_map Tipper (AuthInfo_Tip (TxData_AuthInfo txData))
  = option_map Tipper (AuthInfo_Tip (TxData_AuthInfo txData')) ->
  GetSignBytes TxBodyDescriptor h signerData txData
  = GetSignBytes TxBodyDescriptor h signerData txData'.
Proof.
  intros Hb Hbz Hf Ht. unfold GetSignBytes. rewrite Hb, Hbz, Hf.
  destruct (AuthInfo_Tip (TxData_AuthInfo txData)) as [tip|],
           (AuthInfo_Tip (TxData_AuthInfo txData')) as [tip'|];
    simpl in Ht; try discriminate; [|reflexivity].
  inversion Ht as [Ht']. rewrite Ht'. reflexivity.
Qed.

End HandlerFacts.

(** *** The key-sorted form of a JSON document *)

(** Modelled from the spec: [sortJSON] hands the whole step to
    [json.Unmarshal] and [json.Marshal] of Go's [encoding/json], whose code
    is not among the source files. The spec describes the step: the text is
    parsed into a generic tree of null, boolean, number, string, ordered
    list and key-value mapping, and re-emitted "with every mapping's keys
    sorted lexicographically at every nesting depth, arrays preserved in
    original order, numbers and strings preserved verbatim". [tree] is that
    tree, with numbers and strings as their text and a mapping as its
    entries in the order of the text; [canonical] sorts the entries of
    every mapping by key, keeping entries with equal keys in their order. *)
#[local] Set Warnings "-register-all".
Inductive tree : Type :=
| Null
| Boolean (b : bool)
| Number (text : string)
| Text (text : string)
| Items (items : list tree)
| Mapping (entries : list (string * tree)).

Fixpoint insertEntry (e : string * tree) (l : list (string * tree))
  : list (string * tree) :=
  match l with
  | [] => [e]
  | e' :: l' =>
      if String.leb (fst e) (fst e') then e :: l
      else e' :: insertEntry e l'
  end.

Fixpoint sortEntries (l : list (string * tree)) : list (string * tree) :=
  match l with
  | [] => []
  | e :: l' => insertEntry e (sortEntries l')
  end.

Fixpoint canonical (t : tree) : tree :=
  match t with
  | Items items => Items (map canonical items)
  | Mapping entries =>
      Mapping (sortEntries
                 (map (fun e => (fst e, canonical (snd e))) entries))
  | _ => t
  end.

(** Modelled from the spec: [encoding/json] over a textual syntax given by
    [parse] and [emit]. [json.Unmarshal] parses the text into the tree and
    [json.Marshal] emits the tree with the keys of every mapping sorted. *)
Definition canonicalJSON (parse : bytes -> option tree)
    (emit : tree -> bytes) : EncodingJSON :=
  {| json_value := tree;
     json_Unmarshal := parse;
     json_Marshal := fun t => Some (emit (canonical t)) |}.

Inductive sortedEntries : list (string * tree) -> Prop :=
| sorted_nil : sortedEntries []
| sorted_one e : sortedEntries [e]
| sorted_cons e e' l :
    String.leb (fst e) (fst e') = true -> sortedEntries (e' :: l) ->
    sortedEntries (e :: e' :: l).

Lemma insertEntry_sorted e l :
  sortedEntries l -> sortedEntries (insertEntry e l).
Proof.
  induction 1 as [|e1|e1 e2 l Hle Hs IH]; simpl.
  - constructor.
  - destruct (String.leb (fst e) (fst e1)) eqn:E.
    + constructor; [assumption|constructor].
    + constructor; [|constructor].
      destruct (String.leb_total (fst e) (fst e1)); congruence.
  - destruct (String.leb (fst e) (fst e1)) eqn:E.
    + constructor; [assumption|]. constructor; assumption.
    + simpl in IH. destruct (String.leb (fst e) (fst e2)) eqn:E2.
      * constructor; [|assumption].
        destruct (String.leb_total (fst e) (fst e1)); congruence.
      * constructor; assumption.
Qed.

Lemma sortEntries_sorted l : sortedEntries (sortEntries l).
Proof.
  induction l as [|e l IH]; simpl; [constructor|].
  apply insertEntry_sorted; assumption.
Qed.

Lemma sortEntries_of_sorted l : sortedEntries l -> sortEntries l = l.
Proof.
  induction 1 as [|e|e e' l Hle Hs IH]; simpl; try reflexivity.
  simpl in IH. rewrite IH. simpl. rewrite Hle. reflexivity.
Qed.

Lemma sortEntries_idempotent l : sortEntries (sortEntries l) = sortEntries l.
Proof. apply sortEntries_of_sorted, sortEntries_sorted. Qed.

Lemma insertEntry_map (f : tree -> tree) e l :
  map (fun e => (fst e, f (snd e))) (insertEntry e l)
  = insertEntry (fst e, f (snd e)) (map (fun e => (fst e, f (snd e))) l).
Proof.
  induction l as [|e' l IH]; simpl; [reflexivity|].
  destruct (String.leb (fst e) (fst e')); simpl; [reflexivity|].
  rewrite IH; reflexivity.
Qed.

Lemma sortEntries_map (f : tree -> tree) l :
  map (fun e => (fst e, f (snd e))) (sortEntries l)
  = sortEntries (map (fun e => (fst e, f (snd e))) l).
Proof.
  induction l as [|e l IH]; simpl; [reflexivity|].
  rewrite insertEntry_map, IH. reflexivity.
Qed.

Lemma canonical_idempotent : forall t, canonical (canonical t) = canonical t.
Proof.
  fix IH 1. intros [| b | n | s | items | entries]; simpl; try reflexivity.
  - f_equal. rewrite map_map.
    induction items as [|t items IHitems]; simpl; [reflexivity|].
    rewrite IH, IHitems. reflexivity.
  - f_equal. rewrite sortEntries_map, sortEntries_idempotent. f_equal.
    rewrite map_map. simpl.
    induction entries as [|[k v] entries IHentries]; simpl; [reflexivity|].
    rewrite IH, IHentries. reflexivity.
Qed.

(** C8. Canonicalization is idempotent. For the key-sort step modelled from
    the spec, over any textual syntax in which the canonical text of the
    document parses back to its canonical tree: when [sortJSON] turns [x]
    into [y], it turns [y] into [y]. *)
Theorem sortJSON_idempotent (parse : bytes -> option tree)
    (emit : tree -> bytes) (x y : bytes) :
  (forall t, parse x = Some t ->
             parse (emit (canonical t)) = Some (canonical t)) ->
  sortJSON (J := canonicalJSON parse emit) x = inr y ->
  sortJSON (J := canonicalJSON parse emit) y = inr y.
Proof.
  unfold sortJSON. simpl. intros Hre.
  destruct (parse x) as [t|]; [|discriminate].
  intros E; inversion E; subst y.
  rewrite (Hre t eq_refl), canonical_idempotent. reflexivity.
Qed.

End aminojson.

(** ** The SQLite write batch (package [sqlite], in the same source file)

    A [Batch] records [Set] and [Delete] operations and replays them on an
    SQL transaction in [Write]. The database of [database/sql] stays a
    parameter: its state is threaded through the calls that reach it, and
    [*sql.Tx] is a handle into that state. *)

Module sqlite.

(** Go's [int], 64 bits wide: the sum with its wrap-around. *)
Definition wrapInt (x : Z) : Z := (x + 2 ^ 63) mod 2 ^ 64 - 2 ^ 63.
Definition addInt (a b : Z) : Z := wrapInt (a + b).

(** The three SQL statements and the two reserved keys that [Write] names;
    they are constants of the package defined outside this file. *)
Inductive Stmt : Type := reservedUpsertStmt | upsertStmt | delStmt.

(** An argument of [Exec]. *)
Inductive Arg : Type :=
| reservedStoreKey
| keyLatestHeight
| ArgBytes (b : bytes)
| ArgUint64 (n : Z)
| ArgInt (n : Z).

(** [database/sql] as the batch uses it: [db.Begin], [tx.Exec] and
    [tx.Commit], each a step of the state of the database; [None] in the
    place of an error is [nil]. *)
Class Database : Type := {
  State : Type;
  Tx : Type;
  SQLError : Type;
  Begin : State -> State * (SQLError + Tx);
  Exec : Tx -> Stmt -> list Arg -> State -> State * option SQLError;
  Commit : Tx -> State -> State * option SQLError
}.

Definition batchActionSet : Z := 0.
Definition batchActionDel : Z := 1.

Record batchOp : Type := mkBatchOp {
  action : Z;
  op_storeKey : bytes;
  op_key : bytes;
  op_value : bytes
}.

Section Batch.
Context `{Database}.

(** The errors made with [fmt.Errorf], by the text they wrap the cause in:
    "failed to create SQL transaction", "failed to exec SQL statement" and
    "failed to write SQL transaction". *)
Inductive BatchError : Type :=
| ErrCreateTransaction (err : SQLError)
| ErrExecStatement (err : SQLError)
| ErrWriteTransaction (err : SQLError).

(** The fields of [Batch] but [db]: the database is the state that
    [NewBatch], [Reset] and [Write] take and return. *)
Record Batch : Type := mkBatch {
  tx : Tx;
  ops : list batchOp;
  size : Z;
  version : Z
}.

Definition NewBatch (version : Z) (db : State)
  : State * (BatchError + Batch) :=
  match Begin db with
  | (db, inl err) => (db, inl (ErrCreateTransaction err))
  | (db, inr tx) =>
      (db, inr {| tx := tx; ops := []; size := 0; version := version |})
  end.

Definition Size (b : Batch) : Z := size b.

(** [Reset] empties the batch before it begins the new transaction, and
    keeps the old transaction when that fails. *)
Definition Reset (b : Batch) (db : State)
  : State * Batch * option SQLError :=
  let b := {| tx := tx b; ops := []; size := 0; version := version b |} in
  match Begin db with
  | (db, inl err) => (db, b, Some err)
  | (db, inr tx) =>
      (db, {| tx := tx; ops := ops b; size := size b; version := version b |},
       None)
  end.

(** [Set]; the name is taken in Rocq. *)
Definition Batch_Set (b : Batch) (storeKey key value : bytes)
  : Batch * option BatchError :=
  ({| tx := tx b;
      ops := ops b ++ [mkBatchOp batchActionSet storeKey key value];
      size := addInt (size b) (addInt (len key) (len value));
      version := version b |}, None).

Definition Delete (b : Batch) (storeKey key : bytes)
  : Batch * option BatchError :=
  ({| tx := tx b;
      ops := ops b ++ [mkBatchOp batchActionDel storeKey key []];
      size := addInt (size b) (len key);
      version := version b |}, None).

(** The loop [for _, op := range b.ops] of [Write]; an operation whose
    action is neither of the two falls through the [switch]. *)
Fixpoint writeOps (tx : Tx) (version : Z) (ops : list batchOp) (db : State)
  : State * option BatchError :=
  match ops with
  | [] => (db, None)
  | op :: ops =>
      if action op =? batchActionSet then
        match Exec tx upsertStmt
                [ArgBytes (op_storeKey op); ArgBytes (op_key op);
                 ArgBytes (op_value op); ArgUint64 version;
                 ArgBytes (op_value op)] db with
        | (db, Some err) => (db, Some (ErrExecStatement err))
        | (db, None) => writeOps tx version ops db
        end
      else if action op =? batchActionDel then
        match Exec tx delStmt
                [ArgUint64 version; ArgBytes (op_storeKey op);
                 ArgBytes (op_key op); ArgUint64 version] db with
        | (db, Some err) => (db, Some (ErrExecStatement err))
        | (db, None) => writeOps tx version ops db
        end
      else writeOps tx version ops db
  end.

Definition Write (b : Batch) (db : State) : State * option BatchError :=
  match Exec (tx b) reservedUpsertStmt
          [reservedStoreKey; keyLatestHeight; ArgUint64 (version b);
           ArgInt 0; ArgUint64 (version b)] db with
  | (db, Some err) => (db, Some (ErrExecStatement err))
  | (db, None) =>
      match writeOps (tx b) (version b) (ops b) db with
      | (db, Some err) => (db, Some err)
      | (db, None) =>
          match Commit (tx b) db with
          | (db, Some err) => (db, Some (ErrWriteTransaction err))
          | (db, None) => (db, None)
          end
      end
  end.

(** *** What the batch has recorded *)

(** A call of [Set] or of [Delete]. *)
Inductive Call : Type :=
| CallSet (storeKey key value : bytes)
| CallDelete (storeKey key : bytes).

Definition call (b : Batch) (c : Call) : Batch :=
  match c with
  | CallSet storeKey key value => fst (Batch_Set b storeKey key value)
  | CallDelete storeKey key => fst (Delete b storeKey key)
  end.

(** The bytes a call adds to the size, and the statement [Write] runs for
    it. *)
Definition bytesOf (c : Call) : Z :=
  match c with
  | CallSet _ key value => len key + len value
  | CallDelete _ key => len key
  end.

Definition statementOf (version : Z) (c : Call) : Stmt * list Arg :=
  match c with
  | CallSet storeKey key value =>
      (upsertStmt, [ArgBytes storeKey; ArgBytes key; ArgBytes value;
                    ArgUint64 version; ArgBytes value])
  | CallDelete storeKey key =>
      (delStmt, [ArgUint64 version; ArgBytes storeKey; ArgBytes key;
                 ArgUint64 version])
  end.

(** The statements run in order on one transaction, up to the first that
    fails. *)
Fixpoint execAll (tx : Tx) (l : list (Stmt * list Arg)) (db : State)
  : State * option SQLError :=
  match l with
  | [] => (db, None)
  | (query, args) :: l =>
      match Exec tx query args db with
      | (db, Some err) => (db, Some err)
      | (db, None) => execAll tx l db
      end
  end.

Definition sumZ (l : list Z) : Z := fold_right Z.add 0 l.

Lemma wrapInt_add (a b : Z) : wrapInt (wrapInt a + b) = wrapInt (a + b).
Proof.
  unfold wrapInt.
  replace ((a + 2 ^ 63) mod 2 ^ 64 - 2 ^ 63 + b + 2 ^ 63)
    with ((a + 2 ^ 63) mod 2 ^ 64 + b) by lia.
  rewrite Z.add_mod_idemp_l by lia. f_equal. f_equal. lia.
Qed.

Lemma wrapInt_add_r (a b : Z) : wrapInt (a + wrapInt b) = wrapInt (a + b).
Proof. rewrite (Z.add_comm a), wrapInt_add. f_equal. lia. Qed.

(** A batch as [NewBatch] returns it, or as [Reset] leaves it. *)
Definition fresh (b0 : Batch) : Prop :=
  (exists version db db', NewBatch version db = (db', inr b0)) \/
  (exists b db db' err, Reset b db = (db', b0, err)).

Lemma fresh_empty (b0 : Batch) : fresh b0 -> ops b0 = [] /\ size b0 = 0.
Proof.
  intros [(v & db & db' & E)|(b & db & db' & err & E)].
  - unfold NewBatch in E. destruct (Begin db) as [db1 [e|t]];
      inversion E; subst; split; reflexivity.
  - unfold Reset in E. destruct (Begin db) as [db1 [e|t]];
      inversion E; subst; split; reflexivity.
Qed.

Definition opOf (c : Call) : batchOp :=
  match c with
  | CallSet storeKey key value => mkBatchOp batchActionSet storeKey key value
  | CallDelete storeKey key => mkBatchOp batchActionDel storeKey key []
  end.

Lemma calls_fields (cs : list Call) : forall b,
  tx (fold_left call cs b) = tx b /\
  version (fold_left call cs b) = version b /\
  ops (fold_left call cs b) = ops b ++ map opOf cs /\
  wrapInt (size (fold_left call cs b))
  = wrapInt (size b + sumZ (map bytesOf cs)).
Proof.
  induction cs as [|c cs IH]; intros b; simpl.
  - rewrite app_nil_r, Z.add_0_r. repeat split; reflexivity.
  - destruct (IH (call b c)) as (Ht & Hv & Ho & Hs).
    rewrite Ht, Hv, Ho, Hs.
    destruct c as [storeKey key value|storeKey key]; simpl;
      rewrite <- app_assoc; repeat split; try reflexivity;
      unfold addInt; rewrite ?wrapInt_add_r, wrapInt_add; f_equal; lia.
Qed.

Lemma wrapInt_wrapInt (a : Z) : wrapInt (wrapInt a) = wrapInt a.
Proof.
  replace (wrapInt a) with (wrapInt a + 0) at 1 by lia.
  rewrite wrapInt_add. f_equal. lia.
Qed.

Lemma size_wrapped (cs : list Call) (b : Batch) :
  size b = wrapInt (size b) ->
  size (fold_left call cs b) = wrapInt (size (fold_left call cs b)).
Proof.
  revert b. induction cs as [|c cs IH]; intros b Hb; simpl; [exact Hb|].
  apply IH. destruct c; simpl; unfold addInt; rewrite wrapInt_wrapInt;
    reflexivity.
Qed.

Lemma wrapInt_small (a : Z) : - 2 ^ 63 <= a < 2 ^ 63 -> wrapInt a = a.
Proof. intros Ha. unfold wrapInt. rewrite Z.mod_small; lia. Qed.

Lemma bytesOf_nonneg (cs : list Call) : 0 <= sumZ (map bytesOf cs).
Proof.
  induction cs as [|c cs IH]; simpl; [lia|].
  destruct c; simpl;
    repeat match goal with |- context [len ?b] =>
      lazymatch goal with
      | _ : 0 <= len b |- _ => fail
      | _ => pose proof (len_nonneg b)
      end end; lia.
Qed.

(** X18. [Size] is the number of bytes recorded. After any sequence of [Set]
    and [Delete] calls on a batch that [NewBatch] has returned or [Reset]
    has left, [Size] is the sum of the lengths of the keys and values of
    the [Set] calls and of the keys of the [Delete] calls, as an [int];
    below [2^63] it is that sum itself. *)
Theorem Size_is_the_sum_of_the_recorded_bytes (b0 : Batch)
    (cs : list Call) :
  fresh b0 ->
  Size (fold_left call cs b0) = wrapInt (sumZ (map bytesOf cs)) /\
  (sumZ (map bytesOf cs) < 2 ^ 63 ->
   Size (fold_left call cs b0) = sumZ (map bytesOf cs)).
Proof.
  intros Hf. apply fresh_empty in Hf. destruct Hf as [_ Hs].
  assert (E : Size (fold_left call cs b0) = wrapInt (sumZ (map bytesOf cs))).
  { unfold Size. rewrite size_wrapped by (rewrite Hs; reflexivity).
    destruct (calls_fields cs b0) as (_ & _ & _ & E).
    rewrite E, Hs. reflexivity. }
  split; [exact E|]. intros Hlt. rewrite E. apply wrapInt_small.
  pose proof (bytesOf_nonneg cs). lia.
Qed.

Lemma writeOps_calls (t : Tx) (v : Z) (cs : list Call) : forall db,
  writeOps t v (map opOf cs) db =
  match execAll t (map (statementOf v) cs) db with
  | (db', Some err) => (db', Some (ErrExecStatement err))
  | (db', None) => (db', None)
  end.
Proof.
  induction cs as [|c cs IH]; intros db; simpl; [reflexivity|].
  destruct c as [storeKey key value|storeKey key]; simpl;
    destruct (Exec t _ _ db) as [db' [err|]]; try reflexivity; apply IH.
Qed.

(** X19. [Write] replays the recorded calls in the order they were made.
    After a sequence of [Set] and [Delete] calls on a batch that [NewBatch]
    has returned or [Reset] has left, [Write] executes the upsert of the
    version, then one statement for each call, in order: the upsert of
    store key, key and value for a [Set], the delete of store key and key
    for a [Delete]. The first statement that fails ends [Write] with the
    error of the statement and nothing is committed; when all succeed the
    transaction is committed. *)
Theorem Write_replays_the_calls_in_order (b0 : Batch) (cs : list Call)
    (db : State) :
  fresh b0 ->
  Write (fold_left call cs b0) db =
  match execAll (tx b0)
          ((reservedUpsertStmt,
            [reservedStoreKey; keyLatestHeight; ArgUint64 (version b0);
             ArgInt 0; ArgUint64 (version b0)])
           :: map (statementOf (version b0)) cs) db with
  | (db', Some err) => (db', Some (ErrExecStatement err))
  | (db', None) =>
      match Commit (tx b0) db' with
      | (db'', Some err) => (db'', Some (ErrWriteTransaction err))
      | (db'', None) => (db'', None)
      end
  end.
Proof.
  intros Hf. apply fresh_empty in Hf. destruct Hf as [Ho _].
  destruct (calls_fields cs b0) as (Ht & Hv & Hops & _).
  unfold Write. rewrite Ht, Hv, Hops, Ho. simpl.
  destruct (Exec (tx b0) reservedUpsertStmt _ db) as [db1 [err|]];
    [reflexivity|].
  rewrite writeOps_calls.
  destruct (execAll _ _ db1) as [db2 [err|]]; reflexivity.
Qed.

End Batch.
End sqlite.

(** ** [x/auth/vesting/client/cli/tx.go]: the schedule file *)

Module vesting.

Record InputPeriod : Type := mkInputPeriod {
  Coins : string;
  InputPeriod_Length : Z
}.

Record VestingData : Type := mkVestingData {
  StartTime : Z;
  Periods : list InputPeriod
}.

Section Schedule.

(** What the function takes from elsewhere: [sdk.Coins] and the errors of
    the three calls, [ioutil.ReadFile], [json.Unmarshal] at a
    [VestingData] and [sdk.ParseCoinsNormalized]. *)
Variables (SdkCoins error : Type).
Variable ReadFile : string -> error + bytes.
Variable Unmarshal : bytes -> error + VestingData.
Variable ParseCoinsNormalized : string -> error + SdkCoins.

(** [types.Period] *)
Record Period : Type := mkPeriod { Length : Z; Amount : SdkCoins }.

(** The errors of [readScheduleFile]: those of the three calls as they
    come, and the one made with [fmt.Errorf] from the length and the index
    of a period. *)
Inductive ScheduleError : Type :=
| ErrExternal (err : error)
| ErrInvalidPeriodLength (length i : Z).

(** The loop [for i, p := range data.Periods], from index [i] with the
    periods appended so far. *)
Fixpoint periodsFrom (i : Z) (l : list InputPeriod) (periods : list Period)
  : ScheduleError + list Period :=
  match l with
  | [] => inr periods
  | p :: l =>
      match ParseCoinsNormalized (Coins p) with
      | inl err => inl (ErrExternal err)
      | inr amount =>
          if InputPeriod_Length p <? 1 then
            inl (ErrInvalidPeriodLength (InputPeriod_Length p) i)
          else
            periodsFrom (i + 1) l
              (periods ++ [{| Length := InputPeriod_Length p;
                              Amount := amount |}])
      end
  end.

Definition readScheduleFile (path : string)
  : ScheduleError + (Z * list Period) :=
  match ReadFile path with
  | inl err => inl (ErrExternal err)
  | inr contents =>
      match Unmarshal contents with
      | inl err => inl (ErrExternal err)
      | inr data =>
          match periodsFrom 0 (Periods data) [] with
          | inl err => inl err
          | inr periods => inr (StartTime data, periods)
          end
      end
  end.

(** A period of the file and the period made from it. *)
Definition madeFrom (p : InputPeriod) (q : Period) : Prop :=
  Length q = InputPeriod_Length p /\ 1 <= Length q /\
  ParseCoinsNormalized (Coins p) = inr (Amount q).

Lemma periodsFrom_made (l : list InputPeriod) : forall i acc periods,
  periodsFrom i l acc = inr periods ->
  exists made, periods = acc ++ made /\ Forall2 madeFrom l made.
Proof.
  induction l as [|p l IH]; intros i acc periods; simpl.
  - intros E; inversion E; subst. exists []. rewrite app_nil_r.
    split; [reflexivity|constructor].
  - destruct (ParseCoinsNormalized (Coins p)) as [err|amount] eqn:Hp;
      [discriminate|].
    destruct (InputPeriod_Length p <? 1) eqn:Hl; [discriminate|].
    intros E. apply IH in E. destruct E as (made & -> & Hm).
    exists ({| Length := InputPeriod_Length p; Amount := amount |} :: made).
    rewrite <- app_assoc. split; [reflexivity|].
    constructor; [|exact Hm]. repeat split; simpl; [lia|exact Hp].
Qed.

(** X20. What [readScheduleFile] returns. On success the start time is that
    of the decoded file, and the periods are made from the periods of the
    file one for one and in order: each has the length of its period of
    the file, which is at least 1, and the coins parsed from its text. *)
Theorem readScheduleFile_periods (path : string) (startTime : Z)
    (periods : list Period) :
  readScheduleFile path = inr (startTime, periods) ->
  exists contents data,
    ReadFile path = inr contents /\ Unmarshal contents = inr data /\
    startTime = StartTime data /\
    Forall2 madeFrom (Periods data) periods.
Proof.
  unfold readScheduleFile.
  destruct (ReadFile path) as [err|contents] eqn:Hr; [discriminate|].
  destruct (Unmarshal contents) as [err|data] eqn:Hu; [discriminate|].
  destruct (periodsFrom 0 (Periods data) []) as [err|ps] eqn:Hp;
    [discriminate|].
  intros E; inversion E; subst.
  apply periodsFrom_made in Hp. destruct Hp as (made & -> & Hm).
  exists contents, data. repeat split; try assumption; try reflexivity.
Qed.

Lemma periodsFrom_invalid (l : list InputPeriod) : forall i acc n j,
  periodsFrom i l acc = inl (ErrInvalidPeriodLength n j) ->
  i <= j /\
  exists p, nth_error l (Z.to_nat (j - i)) = Some p /\
            InputPeriod_Length p = n /\ n < 1 /\
            exists made, Forall2 madeFrom (firstn (Z.to_nat (j - i)) l) made.
Proof.
  induction l as [|p l IH]; intros i acc n j; simpl; [discriminate|].
  destruct (ParseCoinsNormalized (Coins p)) as [err|amount] eqn:Hp;
    [discriminate|].
  destruct (InputPeriod_Length p <? 1) eqn:Hl.
  - intros E; inversion E; subst. split; [lia|].
    replace (j - j) with 0 by lia. simpl. exists p.
    repeat split; [lia|]. exists []. constructor.
  - intros E. apply IH in E. destruct E as (Hij & q & Hn & Hq & Hlt & made & Hm).
    split; [lia|].
    replace (Z.to_nat (j - i)) with (S (Z.to_nat (j - (i + 1)))) by lia.
    simpl. exists q. repeat split; try assumption.
    exists ({| Length := InputPeriod_Length p; Amount := amount |} :: made).
    constructor; [|exact Hm]. repeat split; simpl; [lia|exact Hp].
Qed.

(** X21. The invalid-length error of [readScheduleFile] carries the length
    [n] and the index [i] of the first period of the file whose length is
    below 1: the period at index [i] has length [n], [n < 1], and each
    period before it is valid. *)
Theorem readScheduleFile_invalid_length (path : string) (n i : Z) :
  readScheduleFile path = inl (ErrInvalidPeriodLength n i) ->
  exists contents data p,
    ReadFile path = inr contents /\ Unmarshal contents = inr data /\
    0 <= i /\ nth_error (Periods data) (Z.to_nat i) = Some p /\
    InputPeriod_Length p = n /\ n < 1 /\
    exists made, Forall2 madeFrom (firstn (Z.to_nat i) (Periods data)) made.
Proof.
  unfold readScheduleFile.
  destruct (ReadFile path) as [err|contents] eqn:Hr; [discriminate|].
  destruct (Unmarshal contents) as [err|data] eqn:Hu; [discriminate|].
  destruct (periodsFrom 0 (Periods data) []) as [err|ps] eqn:Hp;
    [|discriminate].
  intros E; inversion E; subst.
  apply periodsFrom_invalid in Hp.
  destruct Hp as (Hi & p & Hn & Hl & Hlt & made & Hm).
  rewrite Z.sub_0_r in *.
  exists contents, data, p. repeat split; try assumption; try reflexivity.
  exists made; exact Hm.
Qed.

End Schedule.
End vesting.

(** ** [x/staking/keeper/historical_info_test.go]: [IsValSetSorted] *)

Module staking.
Section Sorted.

(** [types.Validator], [math.Int], and the method [Less] of
    [types.ValidatorsByVotingPower], which are not in this file. *)
Variables (Validator Int : Type).
Variable Less : list Validator -> Z -> Z -> Int -> bool.

(** The loop [for i := n - 1; i > 0; i--], from [i]. *)
Fixpoint sortedFrom (data : list Validator) (powerReduction : Int) (i : nat)
  : bool :=
  match i with
  | 0%nat => true
  | S i' =>
      if Less data (Z.of_nat i) (Z.of_nat i - 1) powerReduction then false
      else sortedFrom data powerReduction i'
  end.

Definition IsValSetSorted (data : list Validator) (powerReduction : Int)
  : bool :=
  let n := Z.of_nat (length data) in
  sortedFrom data powerReduction (Z.to_nat (n - 1)).

Lemma sortedFrom_true (data : list Validator) (powerReduction : Int)
    (k : nat) :
  sortedFrom data powerReduction k = true <->
  forall i, 0 < i <= Z.of_nat k -> Less data i (i - 1) powerReduction = false.
Proof.
  induction k as [|k IH].
  - simpl. split; [intros _ i Hi; lia|reflexivity].
  - cbn [sortedFrom].
    destruct (Less data (Z.of_nat (S k)) (Z.of_nat (S k) - 1) powerReduction)
      eqn:Hl.
    + split; [discriminate|]. intros Hall.
      rewrite Hall in Hl by lia. discriminate.
    + rewrite IH. split.
      * intros Hall i Hi.
        destruct (Z.eq_dec i (Z.of_nat (S k))) as [->|Hne];
          [exact Hl|apply Hall; lia].
      * intros Hall i Hi. apply Hall; lia.
Qed.

(** X22. [IsValSetSorted] returns true exactly when no element of the slice
    is less than the element before it. *)
Theorem IsValSetSorted_true (data : list Validator) (powerReduction : Int) :
  IsValSetSorted data powerReduction = true <->
  forall i, 0 < i < Z.of_nat (length data) ->
            Less data i (i - 1) powerReduction = false.
Proof.
  unfold IsValSetSorted. rewrite sortedFrom_true.
  split; intros Hall i Hi; apply Hall; lia.
Qed.

End Sorted.
End staking.

(** ** The theorems at concrete buffers of the sample schema *)

Module examples.
Import decode sample aminojson.

(** Side conditions at concrete buffers are equations and comparisons of
    closed terms, settled by evaluation. *)
Ltac run :=
  lazymatch goal with
  | |- _ = _ => vm_compute; reflexivity
  | |- _ <> _ => vm_compute; discriminate
  | |- _ <= _ => vm_compute; discriminate
  end.

(** Field 1024, varint 0: a non-critical unknown field of [O] and of [I]. *)
Definition nonCritical : bytes := [x80; x40; x00].

(** Field 5, varint 1: a critical unknown field of [O] and of [I]. *)
Definition critical : bytes := [x28; x01].

(** Field 4 of [O], varint 5. *)
Definition count5 : bytes := [x20; x05].

(** Field 1 of [O], the string ["A"]. *)
Definition nameA : bytes := [x0a; x01; x41].

(** Field 1 of [O], a string field, encoded as a fixed64. *)
Definition nameFixed64 : bytes :=
  [x09; x01; x02; x03; x04; x05; x06; x07; x08].

(** An [Any] with type URL ["/I"] whose value is [nonCritical]. *)
Definition anyI : bytes := [x0a; x02; x2f; x49; x12; x03] ++ nonCritical.

(** Field 3 of [O] holding [anyI]. *)
Definition outerAny : bytes := [x1a; x09] ++ anyI.



Lemma unknown_field_by_bit11_witness :
  loopFrom (nonCritical ++ nameA) descO true resolver false
  = loopFrom nameA descO true resolver true /\
  loopFrom (critical ++ nameA) descO true resolver false
  = Some (Returns (false, Some (ErrUnknownField "O" 5 "varint"))) /\
  loopFrom (critical ++ nameA) descO false resolver false
  = Some (Returns (false, Some (ErrUnknownField "O" 5 "varint"))).
Proof.
  split; [|split].
  - apply (proj1 (unknown_field_by_bit11 (nonCritical ++ nameA) descO resolver
                    false 1024 0 2 ltac:(run) ltac:(run) ltac:(run))); run.
  - apply (proj2 (unknown_field_by_bit11 (critical ++ nameA) descO resolver
                    false 5 0 1 ltac:(run) ltac:(run) ltac:(run))); run.
  - apply (proj2 (unknown_field_by_bit11 (critical ++ nameA) descO resolver
                    false 5 0 1 ltac:(run) ltac:(run) ltac:(run))); run.
Defined.

(** C2 as stated fails. A field of [O] with number 5 is unknown and has bit
    1024 clear, and the permissive validator rejects the buffer that holds
    it; and a buffer that holds a non-critical unknown field is still
    rejected by the permissive validator when it also holds that field. *)
Lemma permissive_rejects_critical_unknown :
  protowire.ConsumeTag critical = (5, 0, 1) /\
  md_ByNumber descO 5 = None /\ Z.land 5 1024 = 0 /\
  RejectUnknownFields critical descO true resolver
  = Some (Returns (false, Some (ErrUnknownField "O" 5 "varint"))) /\
  RejectUnknownFields (nonCritical ++ critical) descO true resolver
  = Some (Returns (true, Some (ErrUnknownField "O" 5 "varint"))).
Proof. repeat split; run. Qed.

Lemma non_critical_unknown_strict_and_permissive_witness :
  (exists e, RejectUnknownFieldsStrict (count5 ++ nonCritical ++ nameA) descO
               resolver = Some (Returns (Some e))) /\
  RejectUnknownFields (count5 ++ nonCritical ++ nameA) descO true resolver
  = Some (Returns (true, None)).
Proof.
  apply (non_critical_unknown_strict_and_permissive resolver descO count5
           (nonCritical ++ nameA) 1024 0 [x00] nameA false false); run.
Defined.

(** C3 as stated fails. A field of [O] with number 1024 is unknown and has
    bit 1024 set, and the permissive validator accepts the buffer that
    holds it. *)
Lemma permissive_accepts_non_critical_unknown :
  protowire.ConsumeTag nonCritical = (1024, 0, 2) /\
  md_ByNumber descO 1024 = None /\ Z.land 1024 1024 <> 0 /\
  RejectUnknownFields nonCritical descO true resolver
  = Some (Returns (true, None)).
Proof. repeat split; run. Qed.

(** The critical unknown field inside the [I] in field 2 of an [O], after
    another field of the [O]. *)
Lemma critical_unknown_fails_witness :
  fails (RejectUnknownFields (count5 ++ [x12; x02] ++ critical) descO true
           resolver) /\
  fails (RejectUnknownFields (count5 ++ [x12; x02] ++ critical) descO false
           resolver).
Proof.
  cut (forall allow,
         fails (RejectUnknownFields (count5 ++ [x12; x02] ++ critical) descO
                  allow resolver)); [intros E; split; apply E|].
  apply (critical_unknown_fails resolver descO (count5 ++ [x12; x02] ++ critical)
           descI critical 5 0 1); try run.
  apply (Occurs_after resolver descO (count5 ++ [x12; x02] ++ critical)
           4 0 [x05] ([x12; x02] ++ critical) descI critical); try run.
  apply (Occurs_message resolver descO ([x12; x02] ++ critical) 2 2
           ([x02] ++ critical) []
           (mkField "O.inner" MessageKind (Some descI)) descI critical descI
           critical); try run.
  apply Occurs_here.
Defined.

(** A string field encoded as a fixed64, after another field. *)
Lemma wrong_wire_type_fails_witness :
  fails (RejectUnknownFields (count5 ++ nameFixed64) descO true resolver) /\
  fails (RejectUnknownFields (count5 ++ nameFixed64) descO false resolver).
Proof.
  cut (forall allow,
         fails (RejectUnknownFields (count5 ++ nameFixed64) descO allow
                  resolver)); [intros E; split; apply E|].
  apply (wrong_wire_type_fails resolver descO (count5 ++ nameFixed64) descO
           nameFixed64 1 1 1 (mkField "O.name" StringKind None)); try run.
  apply (Occurs_after resolver descO (count5 ++ nameFixed64) 4 0 [x05]
           nameFixed64 descO nameFixed64); try run.
  apply Occurs_here.
Defined.



(** The strict validator at the non-critical field inside a nested [I]. *)
Lemma rejected_non_critical_sets_flag_witness :
  exists flag,
    RejectUnknownFields ([x12; x03] ++ nonCritical) descO false resolver
    = Some (Returns (flag, Some (ErrUnknownField "I" 1024 "varint"))) /\
    flag = true.
Proof.
  exists true. split; [run|].
  apply (rejected_non_critical_sets_flag ([x12; x03] ++ nonCritical) descO
           resolver true "I" 1024 "varint"); run.
Defined.

(** A codec that keeps the bytes as they are, and an encoder that writes
    the memo: enough to run [GetSignBytes]. *)
#[export] Instance rawJSON : EncodingJSON := {|
  json_value := bytes;
  json_Unmarshal := fun b => Some b;
  json_Marshal := fun v => Some v
|}.

Definition handler : SignModeHandler :=
  mkSignModeHandler resolver (fun doc => Some (list_byte_of_string (Memo doc))).

Definition alice : SignerData := mkSignerData "alice" "test-1" 7 3.

Definition fee100 : Fee := mkFee [mkCoin "stake" "100"] 200000 "" "".

Definition tx (fee : option Fee) (tip : option Tip) (ext : list Any)
  : TxData :=
  mkTxData (mkTxBody [] "hello" 0 ext []) (mkAuthInfo fee tip) nameA.



(** A compact JSON syntax, without white space or escapes, to run
    [sortJSON] on: numbers and strings are written as their text. *)
Definition quote : byte := x22.

Fixpoint joinWith (sep : bytes) (parts : list bytes) : bytes :=
  match parts with
  | [] => []
  | [p] => p
  | p :: parts => p ++ sep ++ joinWith sep parts
  end.

Fixpoint emitJSON (t : tree) : bytes :=
  match t with
  | Null => list_byte_of_string "null"
  | Boolean true => list_byte_of_string "true"
  | Boolean false => list_byte_of_string "false"
  | Number text => list_byte_of_string text
  | Text text => quote :: list_byte_of_string text ++ [quote]
  | Items items => x5b :: joinWith [x2c] (map emitJSON items) ++ [x5d]
  | Mapping entries =>
      x7b :: joinWith [x2c]
               (map (fun e => quote :: list_byte_of_string (fst e)
                                ++ [quote; x3a] ++ emitJSON (snd e))
                    entries) ++ [x7d]
  end.

Fixpoint strip (prefix b : bytes) : option bytes :=
  match prefix, b with
  | [], _ => Some b
  | x :: prefix, y :: b => if Byte.eqb x y then strip prefix b else None
  | _ :: _, [] => None
  end.

Fixpoint span (keep : byte -> bool) (b : bytes) : bytes * bytes :=
  match b with
  | x :: b' =>
      if keep x then let '(l, r) := span keep b' in (x :: l, r) else ([], b)
  | [] => ([], [])
  end.

Definition isNumberByte (x : byte) : bool :=
  existsb (Byte.eqb x) (list_byte_of_string "0123456789+-.eE").

Definition parseText (b : bytes) : option (string * bytes) :=
  let '(s, r) := span (fun x => negb (Byte.eqb x quote)) b in
  match r with
  | _ :: r => Some (string_of_list_byte s, r)
  | [] => None
  end.

Fixpoint parseValue (fuel : nat) (b : bytes) : option (tree * bytes) :=
  match fuel with
  | 0%nat => None
  | S fuel =>
      match strip (list_byte_of_string "null") b with
      | Some r => Some (Null, r)
      | None =>
      match strip (list_byte_of_string "true") b with
      | Some r => Some (Boolean true, r)
      | None =>
      match strip (list_byte_of_string "false") b with
      | Some r => Some (Boolean false, r)
      | None =>
      match b with
      | [] => None
      | x :: r =>
          if Byte.eqb x quote then
            match parseText r with
            | Some (s, r) => Some (Text s, r)
            | None => None
            end
          else if Byte.eqb x x5b then
            match strip [x5d] r with
            | Some r => Some (Items [], r)
            | None =>
                match parseItems fuel r with
                | Some (items, r) => Some (Items items, r)
                | None => None
                end
            end
          else if Byte.eqb x x7b then
            match strip [x7d] r with
            | Some r => Some (Mapping [], r)
            | None =>
                match parseEntries fuel r with
                | Some (entries, r) => Some (Mapping entries, r)
                | None => None
                end
            end
          else
            match span isNumberByte b with
            | ([], _) => None
            | (n, r) => Some (Number (string_of_list_byte n), r)
            end
      end end end end
  end
with parseItems (fuel : nat) (b : bytes) : option (list tree * bytes) :=
  match fuel with
  | 0%nat => None
  | S fuel =>
      match parseValue fuel b with
      | Some (t, x :: r) =>
          if Byte.eqb x x5d then Some ([t], r)
          else if Byte.eqb x x2c then
            match parseItems fuel r with
            | Some (items, r) => Some (t :: items, r)
            | None => None
            end
          else None
      | _ => None
      end
  end
with parseEntries (fuel : nat) (b : bytes)
  : option (list (string * tree) * bytes) :=
  match fuel with
  | 0%nat => None
  | S fuel =>
      match strip [quote] b with
      | None => None
      | Some r =>
          match parseText r with
          | None => None
          | Some (k, r) =>
              match strip [x3a] r with
              | None => None
              | Some r =>
                  match parseValue fuel r with
                  | Some (t, x :: r) =>
                      if Byte.eqb x x7d then Some ([(k, t)], r)
                      else if Byte.eqb x x2c then
                        match parseEntries fuel r with
                        | Some (entries, r) => Some ((k, t) :: entries, r)
                        | None => None
                        end
                      else None
                  | _ => None
                  end
              end
          end
      end
  end.

Definition parseJSON (b : bytes) : option tree :=
  match parseValue (S (length b)) b with
  | Some (t, []) => Some t
  | _ => None
  end.

(** A document with the keys of a sign document in the order of the
    schema, and a value of each kind. *)
Definition document : tree :=
  (Mapping [("fee", Mapping [("gas", Text "200000");
                             ("amount", Items [Mapping [("denom", Text "stake");
                                                        ("amount", Text "100")]])]);
            ("chain_id", Text "test-1");
            ("memo", Text "hello");
            ("sequence", Text "3");
            ("account_number", Text "7");
            ("ok", Boolean true); ("n", Number "-1.5e3"); ("z", Null)])%string.

Lemma sortJSON_idempotent_witness :
  sortJSON (J := canonicalJSON parseJSON emitJSON)
    (emitJSON (canonical document))
  = inr (emitJSON (canonical document)).
Proof.
  apply (sortJSON_idempotent parseJSON emitJSON (emitJSON document)
           (emitJSON (canonical document))).
  - intros t E. vm_compute in E. inversion E; subst t.
    vm_compute. reflexivity.
  - vm_compute. reflexivity.
Defined.

(** An encoder that writes the memo and the fee of the document in the
    compact syntax, so that the fee shows in the sign bytes. *)
Definition decimal (n : Z) : string := NilZero.string_of_int (Z.to_int n).

Definition coinTree (c : Coin) : tree :=
  (Mapping [("denom", Text (Denom c)); ("amount", Text (Coin_Amount c))])%string.

Definition feeTree (fee : option AminoSignFee) : tree :=
  match fee with
  | None => Null
  | Some fee =>
      (Mapping [("gas", Text (decimal (Gas fee)));
                ("amount", Items (map coinTree (Amount fee)))])%string
  end.

Definition jsonHandler : SignModeHandler :=
  mkSignModeHandler resolver (fun doc =>
    Some (emitJSON (Mapping [("memo", Text (Memo doc));
                             ("fee", feeTree (AminoSignDoc_Fee doc))]%string))).

(** The signer is the tipper, then is not; the transaction declares the
    fee of 100 stake and gas 200000 both times. *)
Lemma sign_doc_fee_witness :
  GetSignBytes (J := canonicalJSON parseJSON emitJSON) descO jsonHandler alice
    (tx (Some fee100) (Some (mkTip [] "alice")) [])
  = Some (Returns (inr (emitJSON
      (Mapping [("fee", Mapping [("amount", Items []); ("gas", Text "0")]);
                ("memo", Text "hello")])%string))) /\
  GetSignBytes (J := canonicalJSON parseJSON emitJSON) descO jsonHandler alice
    (tx (Some fee100) (Some (mkTip [] "bob")) [])
  = Some (Returns (inr (emitJSON
      (Mapping [("fee", Mapping [("amount",
                                  Items [Mapping [("amount", Text "100");
                                                  ("denom", Text "stake")]]);
                                 ("gas", Text "200000")]);
                ("memo", Text "hello")])%string))).
Proof.
  split.
  - rewrite (proj1 (sign_doc_fee (J := canonicalJSON parseJSON emitJSON)
                      descO jsonHandler alice
                      (tx (Some fee100) (Some (mkTip [] "alice")) []) false
                      ltac:(run) ltac:(run) ltac:(run) ltac:(run))
               (mkTip [] "alice") ltac:(run) ltac:(run)).
    vm_compute. reflexivity.
  - rewrite (proj2 (sign_doc_fee (J := canonicalJSON parseJSON emitJSON)
                      descO jsonHandler alice
                      (tx (Some fee100) (Some (mkTip [] "bob")) []) false
                      ltac:(run) ltac:(run) ltac:(run) ltac:(run))
               fee100 ltac:(run) ltac:(split; discriminate)).
    vm_compute. reflexivity.
Defined.

(** *** The further properties at concrete inputs *)

(** The non-critical field inside the [I] in field 2 of an [O]. *)
Definition innerNonCritical : bytes := [x12; x03] ++ nonCritical.

(** Field 3 of [O] holding an [Any] with type URL ["/E"], which resolves to
    a descriptor that is not a message descriptor, and one with type URL
    ["/Z"], which does not resolve. *)
Definition anyE : bytes := [x1a; x04; x0a; x02; x2f; x45].
Definition anyZ : bytes := [x1a; x04; x0a; x02; x2f; x5a].

(** The resolver of the three message types alone. *)
Definition messages : Resolver := fun name =>
  if String.eqb name "O" then Some (MsgDesc O)
  else if String.eqb name "I" then Some (MsgDesc I)
  else if String.eqb name "google.protobuf.Any" then Some (MsgDesc AnyMsg)
  else None.

Lemma RejectUnknownFields_concat_witness :
  RejectUnknownFields (nonCritical ++ critical) descO true resolver
  = orFlag true (RejectUnknownFields critical descO true resolver).
Proof.
  apply (RejectUnknownFields_concat nonCritical critical descO true resolver
           true); run.
Defined.

Lemma flag_has_a_cause_witness :
  exists desc' rest tagNum wireType m,
    Occurs resolver descO innerNonCritical desc' rest /\
    protowire.ConsumeTag rest = (tagNum, wireType, m) /\ 0 <= m /\
    md_ByNumber desc' tagNum = None /\ Z.land tagNum 1024 <> 0.
Proof.
  apply (flag_has_a_cause innerNonCritical descO true resolver None); run.
Defined.

Lemma accepted_non_critical_sets_flag_witness :
  exists flag,
    RejectUnknownFields innerNonCritical descO true resolver
    = Some (Returns (flag, None)) /\ flag = true.
Proof.
  exists true. split; [run|].
  apply (accepted_non_critical_sets_flag resolver descO innerNonCritical descI
           nonCritical 1024 0 2 true true); try run.
  apply (Occurs_message resolver descO innerNonCritical 2 2
           ([x03] ++ nonCritical) []
           (mkField "O.inner" MessageKind (Some descI)) descI nonCritical descI
           nonCritical); try run.
  apply Occurs_here.
Defined.

Lemma accepted_buffer_is_well_formed_witness :
  nameA = [] \/
  exists tagNum wireType fieldBytes rest',
    headField nameA = Some (tagNum, wireType, fieldBytes, rest') /\
    match md_ByNumber descO tagNum with
    | Some fd => isWireTypeAssignable wireType (fd_Kind fd) = true
    | None => false = true /\ Z.land tagNum 1024 <> 0
    end.
Proof.
  apply (accepted_buffer_is_well_formed resolver descO (count5 ++ nameA) false
           false descO nameA); [run|].
  apply (Occurs_after resolver descO (count5 ++ nameA) 4 0 [x05] nameA descO
           nameA); try run.
  apply Occurs_here.
Defined.

Lemma unknown_field_error_names_an_unknown_field_witness :
  exists desc' rest wireType m,
    Occurs resolver descO ([x12; x02] ++ critical) desc' rest /\
    protowire.ConsumeTag rest = (5, wireType, m) /\ 0 <= m /\
    md_ByNumber desc' 5 = None /\
    "I"%string = md_FullName desc' /\
    "varint"%string = WireTypeToString wireType /\
    (Z.land 5 1024 = 0 \/ true = false).
Proof.
  apply (unknown_field_error_names_an_unknown_field ([x12; x02] ++ critical)
           descO true resolver false "I" 5 "varint"); run.
Defined.

Lemma wire_type_error_names_a_mismatch_witness :
  exists desc' rest tagNum wireType fieldBytes rest' fd,
    Occurs resolver descO (count5 ++ nameFixed64) desc' rest /\
    headField rest = Some (tagNum, wireType, fieldBytes, rest') /\
    md_ByNumber desc' tagNum = Some fd /\
    isWireTypeAssignable wireType (fd_Kind fd) = false /\
    "fixed64"%string = WireTypeToString wireType /\
    "O.name"%string = fd_FullName fd.
Proof.
  apply (wire_type_error_names_a_mismatch (count5 ++ nameFixed64) descO false
           resolver false "fixed64" "O.name"); run.
Defined.

Lemma not_found_error_comes_from_an_unresolved_any_witness :
  exists desc' rest tagNum wireType fieldBytes rest' fd fm inner a,
    Occurs resolver descO (count5 ++ anyZ) desc' rest /\
    headField rest = Some (tagNum, wireType, fieldBytes, rest') /\
    md_ByNumber desc' tagNum = Some fd /\
    fd_Message fd = Some fm /\ md_FullName fm = anyFullName /\
    content fieldBytes = Some inner /\
    Unmarshal inner = Some a /\
    resolver (MessageNameFromTypeURL (TypeUrl a)) = None.
Proof.
  apply (not_found_error_comes_from_an_unresolved_any (count5 ++ anyZ) descO
           true resolver false "Z"); run.
Defined.

Lemma RejectUnknownFields_does_not_panic_witness :
  RejectUnknownFields anyE descO true messages <> Some Panics.
Proof.
  apply (RejectUnknownFields_does_not_panic anyE descO true messages).
  - intros d tagNum fd fm. destruct d; simpl;
      repeat match goal with
             | |- context [if ?c then _ else _] => destruct c
             end;
      intros E; inversion E; subst; simpl; intros E'; inversion E';
      left; reflexivity.
  - intros name d. unfold messages.
    repeat match goal with
           | |- context [if ?c then _ else _] => destruct c
           end;
      intros E; inversion E; subst; discriminate.
Defined.

Lemma any_of_a_non_message_panics_witness :
  RejectUnknownFields (count5 ++ anyE) descO true resolver = Some Panics.
Proof.
  apply (any_of_a_non_message_panics count5 anyE descO true resolver 3 2
           [x04; x0a; x02; x2f; x45] [] [x0a; x02; x2f; x45]
           (mkField "O.any" MessageKind (Some AnyMsg)) AnyMsg (mkAny "/E" [])
           EnumDesc false false); run.
Defined.

Lemma rejection_survives_appending_witness :
  RejectUnknownFields (critical ++ nameA) descO true resolver
  = Some (Returns (false, Some (ErrUnknownField "O" 5 "varint"))).
Proof.
  apply (proj1 (rejection_survives_appending critical nameA descO true
                  resolver)); [run|discriminate|discriminate].
Defined.

Lemma WireTypeToString_injective_witness : 6 = 6.
Proof.
  apply (WireTypeToString_injective 6 6). reflexivity.
Defined.

Lemma failure_has_a_cause_witness :
  exists desc' rest,
    Occurs resolver descO (count5 ++ anyE) desc' rest /\
    Stops true resolver desc' rest Panics /\
    forall h, ends (loopFrom rest desc' true resolver h) Panics.
Proof.
  apply (failure_has_a_cause (count5 ++ anyE) descO true resolver Panics).
  vm_compute. reflexivity.
Defined.

Lemma sign_bytes_only_when_preconditions_hold_witness :
  RejectUnknownFieldsStrict nameA descO resolver = Some (Returns None) /\
  @nil Any = [] /\ @nil Any = [] /\
  "alice"%string <> ""%string /\
  (forall tip, @None Tip = Some tip -> Tipper tip <> ""%string) /\
  ((exists tip, @None Tip = Some tip /\ Tipper tip = "alice"%string) \/
   Some fee100 <> None) /\
  exists fee,
    marshalSorted handler (signDoc alice (mkTxBody [] "hello" 0 [] []) fee)
    = inr (list_byte_of_string "hello").
Proof.
  apply (sign_bytes_only_when_preconditions_hold descO handler alice
           (tx (Some fee100) None []) (list_byte_of_string "hello")); run.
Defined.

Lemma no_sign_bytes_over_an_unknown_field_witness :
  GetSignBytes descO handler alice
    (mkTxData (mkTxBody [] "hello" 0 [] []) (mkAuthInfo (Some fee100) None)
       innerNonCritical)
  <> Some (Returns (inr (list_byte_of_string "hello"))).
Proof.
  apply (no_sign_bytes_over_an_unknown_field descO handler alice
           (mkTxData (mkTxBody [] "hello" 0 [] [])
              (mkAuthInfo (Some fee100) None) innerNonCritical)
           descI nonCritical 1024 0 2); try run.
  apply (Occurs_message resolver descO innerNonCritical 2 2
           ([x03] ++ nonCritical) []
           (mkField "O.inner" MessageKind (Some descI)) descI nonCritical descI
           nonCritical); try run.
  apply Occurs_here.
Defined.

Lemma sign_bytes_ignore_the_tip_amount_witness :
  GetSignBytes descO handler alice
    (tx (Some fee100) (Some (mkTip [mkCoin "stake" "1"] "bob")) [])
  = GetSignBytes descO handler alice
      (tx (Some fee100) (Some (mkTip [mkCoin "stake" "1000000"] "bob")) []).
Proof.
  apply (sign_bytes_ignore_the_tip_amount descO handler alice
           (tx (Some fee100) (Some (mkTip [mkCoin "stake" "1"] "bob")) [])
           (tx (Some fee100) (Some (mkTip [mkCoin "stake" "1000000"] "bob")) []));
    reflexivity.
Defined.

(** A database that keeps a journal of the calls made on it and refuses the
    statement [delStmt]; one transaction handle. *)
Inductive Event : Type :=
| Began
| Executed (query : sqlite.Stmt) (args : list sqlite.Arg)
| Committed.

#[export] Instance journal : sqlite.Database := {|
  sqlite.State := list Event;
  sqlite.Tx := unit;
  sqlite.SQLError := string;
  sqlite.Begin := fun db => (db ++ [Began], inr tt);
  sqlite.Exec := fun _ query args db =>
    match query with
    | sqlite.delStmt => (db, Some "read-only"%string)
    | _ => (db ++ [Executed query args], None)
    end;
  sqlite.Commit := fun _ db => (db ++ [Committed], None)
|}.

Definition batch7 : sqlite.Batch :=
  {| sqlite.tx := tt; sqlite.ops := []; sqlite.size := 0;
     sqlite.version := 7 |}.

Definition calls : list sqlite.Call :=
  [sqlite.CallSet [x73] [x6b; x31] [x76; x76; x76];
   sqlite.CallDelete [x73] [x6b; x32];
   sqlite.CallSet [x73] [x6b; x33] []].

Lemma Size_is_the_sum_of_the_recorded_bytes_witness :
  sqlite.Size (fold_left sqlite.call calls batch7) = sqlite.wrapInt 9 /\
  (9 < 2 ^ 63 -> sqlite.Size (fold_left sqlite.call calls batch7) = 9).
Proof.
  apply (sqlite.Size_is_the_sum_of_the_recorded_bytes batch7 calls).
  left. exists 7, [], [Began]. reflexivity.
Defined.

Lemma Write_replays_the_calls_in_order_witness :
  sqlite.Write (fold_left sqlite.call calls batch7) [Began]
  = ([Began;
      Executed sqlite.reservedUpsertStmt
        [sqlite.reservedStoreKey; sqlite.keyLatestHeight; sqlite.ArgUint64 7;
         sqlite.ArgInt 0; sqlite.ArgUint64 7];
      Executed sqlite.upsertStmt
        [sqlite.ArgBytes [x73]; sqlite.ArgBytes [x6b; x31];
         sqlite.ArgBytes [x76; x76; x76]; sqlite.ArgUint64 7;
         sqlite.ArgBytes [x76; x76; x76]]],
     Some (sqlite.ErrExecStatement "read-only"%string)).
Proof.
  rewrite (sqlite.Write_replays_the_calls_in_order batch7 calls [Began]).
  - reflexivity.
  - left. exists 7, [], [Began]. reflexivity.
Defined.

(** A schedule file with two periods, and one whose second period has
    length zero. *)
Definition scheduleFile (path : string) : string + bytes :=
  if String.eqb path "good.json" then inr [x01]
  else if String.eqb path "bad.json" then inr [x02]
  else inl "no such file"%string.

Definition decodeSchedule (contents : bytes) : string + vesting.VestingData :=
  match contents with
  | [x01] =>
      inr (vesting.mkVestingData 1700000000
             [vesting.mkInputPeriod "10stake" 3600;
              vesting.mkInputPeriod "20stake" 7200])
  | [x02] =>
      inr (vesting.mkVestingData 1700000000
             [vesting.mkInputPeriod "10stake" 3600;
              vesting.mkInputPeriod "20stake" 0])
  | _ => inl "unexpected end of JSON input"%string
  end.

Definition parseCoins (s : string) : string + string := inr s.

Lemma readScheduleFile_periods_witness :
  exists contents data,
    scheduleFile "good.json" = inr contents /\ decodeSchedule contents = inr data /\
    1700000000 = vesting.StartTime data /\
    Forall2 (vesting.madeFrom string string parseCoins)
      (vesting.Periods data)
      [vesting.mkPeriod string 3600 "10stake"%string;
       vesting.mkPeriod string 7200 "20stake"%string].
Proof.
  apply (vesting.readScheduleFile_periods string string scheduleFile decodeSchedule
           parseCoins "good.json"). reflexivity.
Defined.

Lemma readScheduleFile_invalid_length_witness :
  exists contents data p,
    scheduleFile "bad.json" = inr contents /\ decodeSchedule contents = inr data /\
    0 <= 1 /\ nth_error (vesting.Periods data) (Z.to_nat 1) = Some p /\
    vesting.InputPeriod_Length p = 0 /\ 0 < 1 /\
    exists made,
      Forall2 (vesting.madeFrom string string parseCoins)
        (firstn (Z.to_nat 1) (vesting.Periods data)) made.
Proof.
  apply (vesting.readScheduleFile_invalid_length string string scheduleFile
           decodeSchedule parseCoins "bad.json" 0 1). reflexivity.
Defined.

Lemma new_types_keep_valid_buffers_valid_witness :
  RejectUnknownFields outerAny descO true resolver
  = Some (Returns (true, None)).
Proof.
  apply (new_types_keep_valid_buffers_valid outerAny descO true messages
           resolver true); [|run].
  intros name d. unfold messages, resolver.
  repeat match goal with
         | |- context [if ?c then _ else _] => destruct c
         end;
    intros E; inversion E; reflexivity.
Defined.

(** Two versions of a message type: the second adds field 2, an int64. *)
Inductive Version : Type := V1 | V2 | VAny.

Record VersionField : Type :=
  mkVersionField { vf_name : string; vf_kind : Kind }.

Definition versionFields (v : Version) (num : Z) : option VersionField :=
  match v with
  | V1 => if num =? 1 then Some (mkVersionField "V.name" StringKind) else None
  | V2 =>
      if num =? 1 then Some (mkVersionField "V.name" StringKind)
      else if num =? 2 then Some (mkVersionField "V.count" Int64Kind)
      else None
  | VAny => None
  end.

Definition versions : Reflect := {|
  MessageDescriptor := Version;
  FieldDescriptor := VersionField;
  Descriptor := Version;
  md_FullName := fun _ => "V"%string;
  md_ByNumber := versionFields;
  fd_FullName := vf_name;
  fd_Kind := vf_kind;
  fd_Message := fun _ => None;
  asMessageDescriptor := Some;
  anyDesc := VAny;
  Unmarshal := sample.unmarshal;
  Unmarshal_Value := sample.unmarshal_Value
|}.

Lemma new_fields_keep_strictly_valid_buffers_valid_witness :
  RejectUnknownFieldsStrict (H := versions) nameA V2 (fun _ => None)
  = Some (Returns None).
Proof.
  apply (new_fields_keep_strictly_valid_buffers_valid (H := versions) nameA
           V1 V2 (fun _ => None)); [|run].
  intros tagNum fd. simpl. destruct (tagNum =? 1); [|discriminate].
  intros E; exact E.
Defined.

End examples.
